(** * Sidis time-reversal solver: a shallow embedding

    Embedding of [sidis_time_reversal_solver.py].  The script works on
    float64 NumPy arrays.  The file holds two embeddings of it.

    In the first the arithmetic is exact: positions, velocities and the
    time step are rationals ([Q], every finite float is one), and the
    quantities that go through [log], [sqrt] and the complex exponential
    are real numbers ([R]).  It carries the properties that do not depend
    on rounding, and those of the wave evolver, which the specification
    states over exact complex arithmetic.

    In the second (section 5) the classical part, the entropy and the
    chaos indicator are embedded on IEEE 754 binary64 numbers with their
    rounding, overflow, infinities and NaN.  It carries the properties
    whose truth depends on rounding or overflow.

    Python integers are [Z]; the int64 that [.astype(int)] produces keeps
    its range.  Exceptions raised by Python or NumPy are values of
    [result].  The library functions ([np.zeros], [np.clip],
    [scipy.fft.fft], ...) follow their documentation. *)

From Stdlib Require Import ZArith QArith Qround Qreals Reals Lia Lra List.
From Stdlib Require Import SpecFloat.
From stdpp Require Import base list.

(** ** Exceptions *)

Inductive exn : Set := ValueError | IndexError | ZeroDivisionError.

Inductive result (A : Type) : Type :=
| Ok (a : A)
| Raise (e : exn).
Arguments Ok {A} a.
Arguments Raise {A} e.

Definition bind {A B} (r : result A) (k : A -> result B) : result B :=
  match r with
  | Ok a => k a
  | Raise e => Raise e
  end.

Notation "'let*' x ':=' r 'in' k" := (bind r (fun x => k))
  (at level 10, x name, r at level 100, k at level 200,
   format "'[v' 'let*'  x  :=  r  'in' '/' k ']'").

(** [for x in xs: acc = body(acc, x)], stopping at the first exception. *)
Fixpoint for_each {A S} (xs : list A) (body : S -> A -> result S) (s : S)
  : result S :=
  match xs with
  | [] => Ok s
  | x :: xs' => let* s' := body s x in for_each xs' body s'
  end.

(** [ys = []; for x in xs: ys.append(f(x))] *)
Fixpoint traverse {A B} (f : A -> result B) (xs : list A) : result (list B) :=
  match xs with
  | [] => Ok []
  | x :: xs' => let* y := f x in let* ys := traverse f xs' in Ok (y :: ys)
  end.

(** [range(n)] and [range(a, b)] for Python integers. *)
Definition range (n : Z) : list nat := seq 0 (Z.to_nat n).
Definition range2 (a b : nat) : list nat := seq a (b - a).

(** ** Arrays of 2D vectors *)

Abbreviation vec2 := (Q * Q)%type.
Abbreviation array2 := (list vec2).                 (* shape (N, 2) *)
Abbreviation array3 := (list array2).               (* shape (steps, N, 2) *)

Definition vzero : vec2 := (0, 0)%Q.
Definition vadd (a b : vec2) : vec2 := (fst a + fst b, snd a + snd b)%Q.
Definition vneg (a : vec2) : vec2 := (- fst a, - snd a)%Q.
Definition vscale (c : Q) (a : vec2) : vec2 := (fst a * c, snd a * c)%Q.
Definition veq (a b : vec2) : Prop := (fst a == fst b /\ snd a == snd b)%Q.

(** [np.zeros((steps, N, 2))]: negative dimensions are refused. *)
Definition np_zeros3 (steps N : Z) : result array3 :=
  if ((steps <? 0) || (N <? 0))%Z then Raise ValueError
  else Ok (replicate (Z.to_nat steps) (replicate (Z.to_nat N) vzero)).

(** [np.random.rand(N, 2)] and [np.random.randn(N, 2)]: [draw i] is row [i]
    of the array the seeded generator returns. *)
Definition np_random (draw : nat -> vec2) (N : Z) : result array2 :=
  if (N <? 0)%Z then Raise ValueError else Ok (map draw (range N)).

(** Python's [/] on numbers and [int()] on the quotient. *)
Definition py_truediv (a b : Q) : result Q :=
  if Qeq_bool b 0 then Raise ZeroDivisionError else Ok (a / b)%Q.

Definition Qtrunc (q : Q) : Z := Z.quot (Qnum q) (Zpos (Qden q)).
Definition py_int (q : Q) : Z := Qtrunc q.

(** ** 1. Classical particle simulation *)

Record classical_state : Type := {
  pos_fwd : array2;
  vel_fwd : array2;
  pos_rev : array2;
  vel_rev : array2;
  traj_fwd : array3;
  traj_rev : array3
}.

(** Lines 23-29.  [.copy()] makes [pos_rev] and [vel_rev] arrays of their
    own, so each field holds its own value. *)
Definition init_state (rand randn : nat -> vec2) (N steps : Z)
  : result classical_state :=
  let* r := np_random rand N in
  let pos_fwd := map (vscale 10) r in
  let* vel_fwd := np_random randn N in
  let pos_rev := pos_fwd in
  let vel_rev := map vneg vel_fwd in
  let* traj_fwd := np_zeros3 steps N in
  let* traj_rev := np_zeros3 steps N in
  Ok {| pos_fwd := pos_fwd; vel_fwd := vel_fwd;
        pos_rev := pos_rev; vel_rev := vel_rev;
        traj_fwd := traj_fwd; traj_rev := traj_rev |}.

(** [pos += vel * dt] *)
Definition advance (dt : Q) (pos vel : array2) : array2 :=
  zip_with vadd pos (map (vscale dt) vel).

(** Body of the forward loop, lines 33-34. *)
Definition forward_step (dt : Q) (st : classical_state) (t : nat)
  : classical_state :=
  let p := advance dt (pos_fwd st) (vel_fwd st) in
  {| pos_fwd := p; vel_fwd := vel_fwd st;
     pos_rev := pos_rev st; vel_rev := vel_rev st;
     traj_fwd := <[t := p]> (traj_fwd st); traj_rev := traj_rev st |}.

(** Body of the reverse loop, lines 38-39. *)
Definition reverse_step (dt : Q) (st : classical_state) (t : nat)
  : classical_state :=
  let p := advance dt (pos_rev st) (vel_rev st) in
  {| pos_fwd := pos_fwd st; vel_fwd := vel_fwd st;
     pos_rev := p; vel_rev := vel_rev st;
     traj_fwd := traj_fwd st; traj_rev := <[t := p]> (traj_rev st) |}.

Definition forward_loop (dt : Q) (steps : Z) (st : classical_state)
  : classical_state :=
  fold_left (forward_step dt) (range steps) st.

Definition reverse_loop (dt : Q) (steps : Z) (st : classical_state)
  : classical_state :=
  fold_left (reverse_step dt) (range steps) st.

(** Lines 23-39 for a given step count. *)
Definition integrate (rand randn : nat -> vec2) (N : Z) (dt : Q) (steps : Z)
  : result classical_state :=
  let* st := init_state rand randn N steps in
  Ok (reverse_loop dt steps (forward_loop dt steps st)).

(** Lines 15-39: [steps = int(T / dt)], then the two loops. *)
Definition run_classical (rand randn : nat -> vec2) (N : Z) (T dt : Q)
  : result classical_state :=
  let* q := py_truediv T dt in
  integrate rand randn N dt (py_int q).

(** Auxiliary notions for the proofs: the position of one particle, and
    of a whole frame, after [n] steps of [pos += vel * dt]; and the state
    with the two directions exchanged. *)
Definition point_after (dt : Q) (v p : vec2) (n : nat) : vec2 :=
  Nat.iter n (fun p => vadd p (vscale dt v)) p.

Definition frame_after (dt : Q) (vel pos : array2) (n : nat) : array2 :=
  Nat.iter n (fun p => advance dt p vel) pos.

Definition swap (st : classical_state) : classical_state :=
  {| pos_fwd := pos_rev st; vel_fwd := vel_rev st;
     pos_rev := pos_fwd st; vel_rev := vel_fwd st;
     traj_fwd := traj_rev st; traj_rev := traj_fwd st |}.

(** A vector with both coordinates in lowest terms. *)
Definition vred (p : vec2) : vec2 := (Qred (fst p), Qred (snd p)).

(** Sample draws, used to run the script on concrete inputs. *)
Definition sample_rand (i : nat) : vec2 :=
  (Z.of_nat (i + 1) # 4, 1 # Pos.of_nat (i + 2))%Q.
Definition sample_randn (i : nat) : vec2 :=
  (Z.of_nat i - 1 # 2, - 5 # 7)%Q.

(** ** 2. Entropy over time *)

Definition int64_min : Z := (- 2 ^ 63)%Z.
Definition int64_max : Z := (2 ^ 63 - 1)%Z.

(** [np.clip(z, lo, hi)] is [minimum(maximum(z, lo), hi)]. *)
Definition np_clip (z lo hi : Z) : Z := Z.min (Z.max z lo) hi.

(** Index [i] into an axis of length [len]: negative indices count from
    the end, anything else out of range raises. *)
Definition np_index (len : nat) (i : Z) : result nat :=
  if ((0 <=? i) && (i <? Z.of_nat len))%Z then Ok (Z.to_nat i)
  else if ((- Z.of_nat len <=? i) && (i <? 0))%Z
       then Ok (Z.to_nat (Z.of_nat len + i))
       else Raise IndexError.

(** [np.zeros((G, G))], holding the counts. *)
Definition np_zeros2 (G : Z) : result (list (list nat)) :=
  if (G <? 0)%Z then Raise ValueError
  else Ok (replicate (Z.to_nat G) (replicate (Z.to_nat G) 0%nat)).

(** [grid[x, y] += 1] *)
Definition grid_incr (grid : list (list nat)) (xy : Z * Z)
  : result (list (list nat)) :=
  let* i := np_index (length grid) (fst xy) in
  let* j := np_index (length (grid !!! i)) (snd xy) in
  Ok (alter (alter S j) i grid).

Definition Rsum (l : list R) : R := fold_right Rplus 0%R l.

(** Lines 51-53: flatten, keep the positive counts, divide by the total,
    and sum [p * log p]. *)
Definition entropy_of_grid (grid : list (list nat)) : R :=
  let flat := mjoin grid in
  let probs :=
    map (fun c => (INR c / INR (sum_list flat))%R)
        (filter (fun c => (0 < c)%nat) flat) in
  (- Rsum (map (fun p => p * ln p) probs))%R.

(** The terms [p * log p] for the counts [cs] out of [N]. *)
Definition shannon_terms (N : R) (cs : list nat) : list R :=
  map (fun p => (p * ln p)%R) (map (fun c => (INR c / N)%R) cs).

Section Entropy.

(** What [.astype(int)] gives for a value outside the int64 range is
    left to the platform. *)
Variable cast_overflow : Q -> Z.

Definition astype_int (q : Q) : Z :=
  let z := Qtrunc q in
  if ((int64_min <=? z) && (z <=? int64_max))%Z then z
  else cast_overflow q.

(** One coordinate of line 48. *)
Definition cell_index (grid_size : Z) (q : Q) : Z :=
  np_clip (astype_int (q / 10 * inject_Z grid_size)%Q) 0 (grid_size - 1).

Definition cell (grid_size : Z) (p : vec2) : Z * Z :=
  (cell_index grid_size (fst p), cell_index grid_size (snd p)).

(** Lines 47-50: the occupancy grid of one time step. *)
Definition occupancy (grid_size : Z) (frame : array2)
  : result (list (list nat)) :=
  let* grid := np_zeros2 grid_size in
  let indices := map (cell grid_size) frame in
  for_each indices grid_incr grid.

(** Lines 47-53: the entropy of one time step. *)
Definition entropy_step (grid_size : Z) (frame : array2) : result R :=
  let* grid := occupancy grid_size frame in
  Ok (entropy_of_grid grid).

Definition compute_entropy (traj : array3) (grid_size : Z)
  : result (list R) :=
  for_each traj
    (fun entropies frame =>
       let* grid := occupancy grid_size frame in
       Ok (entropies ++ [entropy_of_grid grid]))
    [].

End Entropy.






(** On x86-64 the conversion instruction returns the smallest int64 for
    every value out of range. *)
Definition cast_x86_64 (q : Q) : Z := int64_min.

(** Sample inputs for the entropy and chaos functions. *)
Definition collapsed_frame : array2 :=
  [ (1 # 2, 3); (3 # 4, 7 # 2); (9 # 10, 39 # 10) ]%Q.
Definition sample_traj : array3 :=
  [ [ (1 # 2, 3); (5 # 2, 7); (- (4), 123 # 10) ];
    [ (3 # 5, 31 # 10); (13 # 5, 69 # 10); (- (39 # 10), 25 # 2) ] ]%Q.

(** A grid of [n] rows of [n] counts. *)
Definition square (n : nat) (grid : list (list nat)) : Prop :=
  length grid = n /\ Forall (fun row => length row = n) grid.

(** Number of particles of a frame that fall in cell [c]. *)
Definition in_cell (cell_of : vec2 -> Z * Z) (c : Z * Z) (frame : array2)
  : nat :=
  length (filter (fun p => cell_of p = c) frame).

(** ** 3. Chaos indicator *)

(** [scipy.spatial.distance.euclidean] on two points of the plane. *)
Definition euclidean (u v : vec2) : R :=
  sqrt (Q2R ((fst u - fst v) ^ 2 + (snd u - snd v) ^ 2)).

Definition stabilizer : R := (/ 100000000)%R.     (* 1e-8 *)

(** [traj[t, i]] *)
Definition particle (frame : array2) (i : nat) : result vec2 :=
  match frame !! i with
  | Some p => Ok p
  | None => Raise IndexError
  end.

(** Lines 67-72: the two nested loops, with [total] and [count]. *)
Definition pair_loop (N : nat) (frame : array2) : result (R * nat) :=
  for_each (seq 0 N)
    (fun tc i =>
       for_each (range2 (i + 1) N)
         (fun tc j =>
            let* a := particle frame i in
            let* b := particle frame j in
            Ok ((fst tc + euclidean a b)%R, S (snd tc)))
         tc)
    (0%R, 0%nat).

(** [total / count] on Python numbers. *)
Definition py_div_count (total : R) (count : nat) : result R :=
  match count with
  | O => Raise ZeroDivisionError
  | S _ => Ok (total / INR count)%R
  end.

(** [N] is [traj.shape[1]]. *)
Definition avg_pairwise_dist (N : nat) (traj : array3) : result (list R) :=
  let* dists :=
    for_each traj
      (fun dists frame =>
         let* tc := pair_loop N frame in
         let* d := py_div_count (fst tc) (snd tc) in
         Ok (dists ++ [d]))
      [] in
  Ok (map (fun d => ln (d + stabilizer)) dists).

(** The specification's wording: all unordered pairs of distinct
    particles, their mean distance, plus the constant, then [ln]. *)
Fixpoint unordered_pairs {A} (l : list A) : list (A * A) :=
  match l with
  | [] => []
  | x :: r => map (pair x) r ++ unordered_pairs r
  end.

Definition mean_pairwise_distance (frame : array2) : R :=
  (Rsum (map (fun ab => euclidean (fst ab) (snd ab)) (unordered_pairs frame))
   / INR (length (unordered_pairs frame)))%R.

Definition spec_chaos (frame : array2) : R :=
  ln (mean_pairwise_distance frame + stabilizer).

(** ** 4. Quantum wave packet *)

(** Complex numbers, as pairs (real part, imaginary part). *)
Abbreviation C := (R * R)%type.

Definition RtoC (x : R) : C := (x, 0%R).
Definition Czero : C := RtoC 0.
Definition Cone : C := RtoC 1.
Definition Ci : C := (0%R, 1%R).                  (* 1j *)
Definition Cplus (z w : C) : C := (fst z + fst w, snd z + snd w)%R.
Definition Copp (z : C) : C := (- fst z, - snd z)%R.
Definition Cminus (z w : C) : C := Cplus z (Copp w).
Definition Cmult (z w : C) : C :=
  (fst z * fst w - snd z * snd w, fst z * snd w + snd z * fst w)%R.
Definition Cinv (z : C) : C :=
  (fst z / (fst z ^ 2 + snd z ^ 2), - snd z / (fst z ^ 2 + snd z ^ 2))%R.
Definition Cdiv (z w : C) : C := Cmult z (Cinv w).
Definition Cconj (z : C) : C := (fst z, - snd z)%R.
Definition Cabs (z : C) : R := sqrt (fst z ^ 2 + snd z ^ 2).   (* np.abs *)
Definition Cexp (z : C) : C :=                                 (* np.exp *)
  (exp (fst z) * cos (snd z), exp (fst z) * sin (snd z))%R.

(** Squared modulus. *)
Definition normsq (z : C) : R := (fst z ^ 2 + snd z ^ 2)%R.

(** [cis x] is [exp(1j * x)]. *)
Definition cis (x : R) : C := (cos x, sin x).

(** Sum of [f 0], ..., [f (n-1)]. *)
Fixpoint Csum (f : nat -> C) (n : nat) : C :=
  match n with
  | O => Czero
  | S n' => Cplus (Csum f n') (f n')
  end.

(** [scipy.fft.fft]: [y[k] = sum_n x[n] * exp(-2j*pi*k*n/N)]; an empty
    input is refused. *)
Definition fft (x : list C) : result (list C) :=
  match x with
  | [] => Raise ValueError
  | _ =>
    let N := length x in
    Ok (map (fun k =>
               Csum (fun n =>
                       Cmult (nth n x Czero)
                             (cis (- (2 * PI * INR k * INR n / INR N))))
                    N)
            (seq 0 N))
  end.

(** [scipy.fft.ifft]: [x[n] = (1/N) * sum_k y[k] * exp(2j*pi*k*n/N)]. *)
Definition ifft (y : list C) : result (list C) :=
  match y with
  | [] => Raise ValueError
  | _ =>
    let N := length y in
    Ok (map (fun n =>
               Cmult (RtoC (/ INR N))
                     (Csum (fun k =>
                              Cmult (nth k y Czero)
                                    (cis (2 * PI * INR k * INR n / INR N)))
                           N))
            (seq 0 N))
  end.

(** Elementwise product of two 1-D arrays, with NumPy's broadcasting. *)
Definition np_multiply (a b : list C) : result (list C) :=
  if (length a =? length b)%nat then Ok (zip_with Cmult a b)
  else match a, b with
       | [z], _ => Ok (map (Cmult z) b)
       | _, [w] => Ok (map (fun z => Cmult z w) a)
       | _, _ => Raise ValueError
       end.

(** [scipy.constants.hbar] is [h / (2 * pi)]. *)
Definition planck_h : R := (662607015 / 10 ^ 42)%R.
Definition hbar : R := (planck_h / (2 * PI))%R.

(** Lines 92-96. *)
Definition evolve (psi : list C) (k : list R) (t m : R) : result (list C) :=
  let* psi_k := fft psi in
  let E_k := map (fun kk => (hbar ^ 2 * kk ^ 2 / (2 * m))%R) k in
  let phase :=
    map (fun E =>
           Cexp (Cdiv (Cmult (Cmult (Copp Ci) (RtoC E)) (RtoC t))
                      (RtoC hbar)))
        E_k in
  let* psi_k_t := np_multiply psi_k phase in
  ifft psi_k_t.

(** The transforms on index functions, and the phase factor that
    [evolve] applies to a component of energy [E]. *)
Definition dft (x : nat -> C) (N k : nat) : C :=
  Csum (fun n => Cmult (x n) (cis (- (2 * PI * INR k * INR n / INR N)))) N.

Definition idft (y : nat -> C) (N n : nat) : C :=
  Cmult (RtoC (/ INR N))
        (Csum (fun k => Cmult (y k) (cis (2 * PI * INR k * INR n / INR N))) N).

Definition phase (t E : R) : C :=
  Cexp (Cdiv (Cmult (Cmult (Copp Ci) (RtoC E)) (RtoC t)) (RtoC hbar)).

Definition energy (m kk : R) : R := (hbar ^ 2 * kk ^ 2 / (2 * m))%R.

(** An array read as a function of the index, and the arrays that [fft],
    [ifft] and [evolve] return when they do not raise. *)
Definition at_index (l : list C) (n : nat) : C := nth n l Czero.

Definition spectrum (x : list C) : list C :=
  map (dft (at_index x) (length x)) (seq 0 (length x)).

Definition inverse_spectrum (y : list C) : list C :=
  map (idft (at_index y) (length y)) (seq 0 (length y)).

Definition phases (k : list R) (t m : R) : list C :=
  map (phase t) (map (energy m) k).

(** Sum of the squared moduli, on index functions and on arrays. *)
Definition norm_sum (x : nat -> C) (N : nat) : C :=
  Csum (fun n => Cmult (x n) (Cconj (x n))) N.

Definition sum_normsq (l : list C) : R := Rsum (map normsq l).

(** Sample wave packet and wavenumber grid. *)
Definition sample_psi : list C := [(1, 0); (0, 2); (-1, 1); (3, -2)]%R.
Definition sample_k : list R := [0; 1; -2; -1]%R.

(** Default value of [m]. *)
Definition m_default : R := 1%R.

(** [np.abs(psi)**2] and the total probability [sum |psi|^2 * dx]. *)
Definition density (psi : list C) : list R := map (fun z => (Cabs z ^ 2)%R) psi.

Definition total_probability (psi : list C) (dx : R) : R :=
  Rsum (map (fun d => (d * dx)%R) (density psi)).

(** ** Notions used by the further properties *)

(** A trajectory with every particle moved by the vector [c]. *)
Definition translate (c : vec2) (traj : array3) : array3 :=
  map (map (fun p => vadd p c)) traj.





(** [a * psi + b * phi] on arrays of the same length. *)
Definition linear_combination (a b : C) (psi phi : list C) : list C :=
  zip_with Cplus (map (Cmult a) psi) (map (Cmult b) phi).

(** Component [n] of what [evolve] returns, on index functions. *)
Definition evolve_at (x : nat -> C) (kk : nat -> R) (N : nat) (t m : R)
  (n : nat) : C :=
  idft (fun j => Cmult (dft x N j) (phase t (energy m (kk j)))) N n.

(** The index of the opposite frequency, and the grids on which opposite
    frequencies have the same squared wavenumber. *)
Definition reflect (N j : nat) : nat := ((N - j) mod N)%nat.

Definition symmetric_grid (k : list R) : Prop :=
  forall j, (j < length k)%nat ->
            (nth (reflect (length k) j) k 0 ^ 2 = nth j k 0 ^ 2)%R.

(** ** Lines 82-90 and 98-100: the grids and the initial packet *)

(** [np.linspace(start, stop, num)] with its default [endpoint=True]: the
    samples are [i * step + start], and the last one is set to [stop]. *)
Definition np_linspace (start stop : R) (num : Z) : result (list R) :=
  if (num <? 0)%Z then Raise ValueError
  else
    let n := Z.to_nat num in
    let div := (n - 1)%nat in
    let delta := (stop - start)%R in
    let y :=
      if (0 <? div)%nat
      then map (fun i => (INR i * (delta / INR div) + start)%R) (seq 0 n)
      else map (fun i => (INR i * delta + start)%R) (seq 0 n) in
    Ok (if (1 <? num)%Z then <[(n - 1)%nat := stop]> y else y).

(** [x[i]] on a 1-D array, for an index that is not negative. *)
Definition item (x : list R) (i : nat) : result R :=
  match x !! i with
  | Some v => Ok v
  | None => Raise IndexError
  end.

(** [fftfreq(n, d)]: the integers [0, ..., (n-1)//2, -(n//2), ..., -1]
    times [1 / (n * d)]. *)
Definition fftfreq (n : nat) (d : R) : list R :=
  let val := (1 / (INR n * d))%R in
  let N := Z.to_nat ((Z.of_nat n - 1) / 2 + 1) in
  let p1 := map Z.of_nat (seq 0 N) in
  let p2 := map (fun i => (Z.of_nat i - Z.of_nat (n / 2))%Z) (seq 0 (n / 2)) in
  map (fun i => (IZR i * val)%R) (p1 ++ p2).

(** Lines 82-84. *)
Definition wave_grid (start stop : R) (num : Z)
  : result (list R * R * list R) :=
  let* x_vals := np_linspace start stop num in
  let* x1 := item x_vals 1 in
  let* x0 := item x_vals 0 in
  let dx := (x1 - x0)%R in
  let k_vals := map (fun f => (f * 2 * PI)%R) (fftfreq (length x_vals) dx) in
  Ok (x_vals, dx, k_vals).

(** Line 90: the Gaussian wave packet. *)
Definition gaussian_packet (x0 k0 sigma : R) (x_vals : list R) : list C :=
  map (fun x =>
         Cmult (RtoC (1 / (sigma * sqrt (2 * PI))
                      * exp (- (x - x0) ^ 2 / (2 * sigma ^ 2)))%R)
               (Cexp (Cmult (Cmult Ci (RtoC k0)) (RtoC x))))
      x_vals.

(** Lines 82-100, with the script's constants as parameters: the packet
    and its two snapshots. *)
Definition quantum_part (start stop : R) (num : Z) (x0 k0 sigma t : R)
  : result (list C * list C * list C) :=
  let* g := wave_grid start stop num in
  let psi0 := gaussian_packet x0 k0 sigma (fst (fst g)) in
  let* psi_t := evolve psi0 (snd g) t m_default in
  let* psi_neg_t := evolve psi0 (snd g) (- t) m_default in
  Ok (psi0, psi_t, psi_neg_t).

(** The signed frequency index that [fftfreq] gives to position [j]. *)
Definition freq_index (n j : nat) : Z :=
  if (Z.of_nat j <? (Z.of_nat n - 1) / 2 + 1)%Z then Z.of_nat j
  else (Z.of_nat j - Z.of_nat n)%Z.

(** The Fourier mode [j] of length [N], scaled by [c]. *)
Definition fourier_mode (c : C) (N j : nat) : list C :=
  map (fun n => Cmult c (cis (2 * PI * INR j * INR n / INR N))) (seq 0 N).

(** ** 5. The script on float64

    The same lines of the script with the arithmetic NumPy performs:
    IEEE 754 binary64 numbers, every operation rounded to nearest (ties
    to even), as [SpecFloat] specifies it at precision 53.  Library
    functions that are not specified to the last bit ([np.log], the BLAS
    norm behind [scipy.linalg.norm], the result of an out-of-range cast)
    are parameters. *)

Abbreviation float64 := spec_float.

Definition f64_add : float64 -> float64 -> float64 := SFadd 53 1024.
Definition f64_sub : float64 -> float64 -> float64 := SFsub 53 1024.
Definition f64_mul : float64 -> float64 -> float64 := SFmul 53 1024.
Definition f64_div : float64 -> float64 -> float64 := SFdiv 53 1024.
Definition f64_neg : float64 -> float64 := SFopp.
Definition f64_zero : float64 := S754_zero false.

(** [float(n)] for a Python integer. *)
Definition f64_of_Z (n : Z) : float64 := binary_normalize 53 1024 n 0 false.

Definition is_finite (x : float64) : bool :=
  match x with
  | S754_zero _ | S754_finite _ _ _ => true
  | S754_infinity _ | S754_nan => false
  end.

(** The rational number a finite float stands for. *)
Definition f64_value (x : float64) : Q :=
  match x with
  | S754_finite s m e => (inject_Z (cond_Zopp s (Zpos m)) * 2 ^ e)%Q
  | _ => 0%Q
  end.

Abbreviation fvec2 := (float64 * float64)%type.
Abbreviation farray2 := (list fvec2).
Abbreviation farray3 := (list farray2).

Definition fvadd (a b : fvec2) : fvec2 :=
  (f64_add (fst a) (fst b), f64_add (snd a) (snd b)).
Definition fvneg (a : fvec2) : fvec2 := (f64_neg (fst a), f64_neg (snd a)).
Definition fvscale (c : float64) (a : fvec2) : fvec2 :=
  (f64_mul (fst a) c, f64_mul (snd a) c).
Definition fvvalue (p : fvec2) : vec2 := (f64_value (fst p), f64_value (snd p)).

(** *** Lines 23-39 *)

Definition np_zeros3_f64 (steps N : Z) : result farray3 :=
  if ((steps <? 0) || (N <? 0))%Z then Raise ValueError
  else Ok (replicate (Z.to_nat steps)
             (replicate (Z.to_nat N) (f64_zero, f64_zero))).

Definition np_random_f64 (draw : nat -> fvec2) (N : Z) : result farray2 :=
  if (N <? 0)%Z then Raise ValueError else Ok (map draw (range N)).

(** [pos += vel * dt] *)
Definition advance_f64 (dt : float64) (pos vel : farray2) : farray2 :=
  zip_with fvadd pos (map (fvscale dt) vel).

(** [for t in range(steps): pos += vel * dt; traj[t] = pos] *)
Definition euler_loop_f64 (dt : float64) (steps : Z) (vel pos : farray2)
  (traj : farray3) : farray2 * farray3 :=
  fold_left
    (fun s t => let p := advance_f64 dt (fst s) vel in (p, <[t := p]> (snd s)))
    (range steps) (pos, traj).

(** The initial positions and velocities, and the two trajectories. *)
Record classical_run_f64 : Type := {
  pos0_f64 : farray2;
  vel0_f64 : farray2;
  traj_fwd_f64 : farray3;
  traj_rev_f64 : farray3
}.

Definition integrate_f64 (rand randn : nat -> fvec2) (N : Z) (dt : float64)
  (steps : Z) : result classical_run_f64 :=
  let* r := np_random_f64 rand N in
  let pos_fwd := map (fvscale (f64_of_Z 10)) r in
  let* vel_fwd := np_random_f64 randn N in
  let pos_rev := pos_fwd in
  let vel_rev := map fvneg vel_fwd in
  let* traj_fwd := np_zeros3_f64 steps N in
  let* traj_rev := np_zeros3_f64 steps N in
  let fwd := euler_loop_f64 dt steps vel_fwd pos_fwd traj_fwd in
  let rev := euler_loop_f64 dt steps vel_rev pos_rev traj_rev in
  Ok {| pos0_f64 := pos_fwd; vel0_f64 := vel_fwd;
        traj_fwd_f64 := snd fwd; traj_rev_f64 := snd rev |}.

(** Auxiliary notions: a particle and a frame after [n] updates, and
    updates in which no coordinate is rounded. *)
Definition point_after_f64 (dt : float64) (v p : fvec2) (n : nat) : fvec2 :=
  Nat.iter n (fun p => fvadd p (fvscale dt v)) p.

Definition frame_after_f64 (dt : float64) (vel pos : farray2) (n : nat)
  : farray2 :=
  Nat.iter n (fun p => advance_f64 dt p vel) pos.

(** [x + y] is computed without rounding. *)
Definition exact_sum (x y : float64) : Prop :=
  is_finite (f64_add x y) = true /\
  (f64_value (f64_add x y) == f64_value x + f64_value y)%Q.

(** No coordinate is rounded in the addition of [pos += vel * dt]. *)
Definition exact_advance (dt : float64) (pos vel : farray2) : Prop :=
  Forall2
    (fun p v =>
       exact_sum (fst p) (f64_mul (fst v) dt) /\
       exact_sum (snd p) (f64_mul (snd v) dt))
    pos vel.

(** *** Lines 44-55 *)

(** [np.sum] of a 1-D array.  The terms are added from left to right, as
    NumPy does for short arrays; for long arrays it adds in blocks, which
    gives the same sum whenever no addition rounds, as for the counts of
    the grid. *)
Definition np_sum_f64 (l : list float64) : float64 :=
  fold_left f64_add l f64_zero.

Section Float64Entropy.

(** What the cast gives for an infinity, a NaN or a value outside the
    int64 range, and [np.log]. *)
Variable cast_overflow : float64 -> Z.
Variable np_log : float64 -> float64.

(** [.astype(int)] truncates toward zero. *)
Definition astype_int_f64 (x : float64) : Z :=
  let z := Qtrunc (f64_value x) in
  if is_finite x && (int64_min <=? z)%Z && (z <=? int64_max)%Z then z
  else cast_overflow x.

(** One coordinate of line 48: [x / 10 * grid_size], cast and clipped. *)
Definition cell_index_f64 (grid_size : Z) (x : float64) : Z :=
  np_clip
    (astype_int_f64 (f64_mul (f64_div x (f64_of_Z 10)) (f64_of_Z grid_size)))
    0 (grid_size - 1).

Definition cell_f64 (grid_size : Z) (p : fvec2) : Z * Z :=
  (cell_index_f64 grid_size (fst p), cell_index_f64 grid_size (snd p)).

Definition occupancy_f64 (grid_size : Z) (frame : farray2)
  : result (list (list nat)) :=
  let* grid := np_zeros2 grid_size in
  for_each (map (cell_f64 grid_size) frame) grid_incr grid.

(** Lines 51-53: [probs = grid.flatten() / np.sum(grid)], then
    [probs[probs > 0]] and [-np.sum(probs * np.log(probs))].  The counts
    are integers, which the floats of the grid hold exactly. *)
Definition entropy_of_grid_f64 (grid : list (list nat)) : float64 :=
  let flat := map (fun c => f64_of_Z (Z.of_nat c)) (mjoin grid) in
  let total := np_sum_f64 flat in
  let probs := map (fun c => f64_div c total) flat in
  let probs := filter (fun p => SFltb f64_zero p = true) probs in
  f64_neg (np_sum_f64 (map (fun p => f64_mul p (np_log p)) probs)).

Definition compute_entropy_f64 (traj : farray3) (grid_size : Z)
  : result (list float64) :=
  for_each traj
    (fun entropies frame =>
       let* grid := occupancy_f64 grid_size frame in
       Ok (entropies ++ [entropy_of_grid_f64 grid]))
    [].

End Float64Entropy.

(** *** Lines 63-74 *)




Section Float64Chaos.

(** The 2-norm of a vector of the plane as the BLAS routine behind
    [scipy.linalg.norm] returns it, and [np.log]. *)
Variable nrm2 : float64 -> float64 -> float64.
Variable np_log : float64 -> float64.







End Float64Chaos.

(** *** Sample inputs *)

(** The doubles 0.1, 0.125, 0.1875, 0.2, 1.0, 2.0 and 1e308. *)
Definition f64_tenth : float64 := S754_finite false 7205759403792794 (-56).
Definition f64_eighth : float64 := S754_finite false 4503599627370496 (-55).
Definition f64_3_16 : float64 := S754_finite false 6755399441055744 (-55).
Definition f64_fifth : float64 := S754_finite false 7205759403792794 (-55).
Definition f64_one : float64 := S754_finite false 4503599627370496 (-52).
Definition f64_two : float64 := S754_finite false 4503599627370496 (-51).
Definition f64_1e308 : float64 := S754_finite false 5010420900022432 971.

(** The double nearest to [ln 0.2], -1.6094379124341003. *)
Definition f64_log_fifth : float64 :=
  S754_finite true 7248263982714163 (-52).

(** [np.log] at the arguments of the examples; NaN stands for the
    arguments that are not listed. *)
Definition np_log_sample (x : float64) : float64 :=
  if SFeqb x f64_fifth then f64_log_fifth
  else if SFeqb x f64_one then f64_zero
  else S754_nan.


Definition cast_x86_64_f64 (x : float64) : Z := int64_min.

Definition sample_rand_f64 (i : nat) : fvec2 := (f64_3_16, f64_3_16).
Definition sample_randn_f64 (i : nat) : fvec2 := (f64_two, f64_neg f64_two).

(** [n + 0.5] *)
Definition f64_half (n : Z) : float64 :=
  f64_div (f64_of_Z (2 * n + 1)) (f64_of_Z 2).

(** One frame of five particles in five different cells, and one frame
    without particles. *)
Definition five_cells : farray3 :=
  [ map (fun n => (f64_half n, f64_half 0)) [0; 1; 2; 3; 4]%Z ].
Definition no_particles : farray3 := [ [] ].

Definition sample_traj_f64 : farray3 :=
  [ [ (f64_of_Z 0, f64_of_Z 0); (f64_of_Z 3, f64_of_Z 4);
      (f64_of_Z 6, f64_of_Z 8) ];
    [ (f64_half 0, f64_of_Z 1); (f64_of_Z 3, f64_half 4);
      (f64_of_Z (-6), f64_of_Z 9) ] ].


(** *** The exponential series at a rational

    [exp_series q n] is the pair of [q^n / n!] and of the sum of
    [q^i / i!] for [i <= n]; it is used to compare a logarithm with a
    float. *)
Fixpoint exp_series (q : Q) (n : nat) : Q * Q :=
  match n with
  | O => (1, 1)%Q
  | S k =>
      let ts := exp_series q k in
      let t := Qred (fst ts * q / inject_Z (Z.of_nat (S k)))%Q in
      (t, Qred (snd ts + t)%Q)
  end.

(** * Properties *)

(** ** The embedding on concrete inputs *)

Example steps_of_the_script :
  (let* q := py_truediv 100 (1 # 10) in Ok (py_int q)) = Ok 1000%Z.
Proof. reflexivity. Qed.

Example zero_time_step_raises :
  run_classical sample_rand sample_randn 20 100 0 = Raise ZeroDivisionError.
Proof. reflexivity. Qed.

Example two_steps_forward :
  (let* st := integrate sample_rand sample_randn 1 (1 # 2) 2 in
   Ok (map (map vred) (traj_fwd st), map (map vred) (traj_rev st)))
  = Ok ([[(9 # 4, 65 # 14)]; [(2, 30 # 7)]],
        [[(11 # 4, 75 # 14)]; [(3, 40 # 7)]])%Q.
Proof. vm_compute. reflexivity. Qed.

Example cell_inside : cell cast_x86_64 10 (5 # 2, 7)%Q = (2, 7)%Z.
Proof. reflexivity. Qed.

Example cell_clamped : cell cast_x86_64 10 (- (4), 123 # 10)%Q = (0, 9)%Z.
Proof. reflexivity. Qed.

Example cell_truncates_towards_zero :
  astype_int cast_x86_64 (- (1 # 2)) = 0%Z /\ Qfloor (- (1 # 2)) = (-1)%Z.
Proof. split; reflexivity. Qed.

Example occupancy_two_by_two :
  occupancy cast_x86_64 2 [(1, 1); (6, 1); (7, 12)]%Q = Ok [[1; 0]; [1; 1]]%nat.
Proof. reflexivity. Qed.

Example grid_size_zero_raises :
  compute_entropy cast_x86_64 sample_traj 0 = Raise IndexError.
Proof. reflexivity. Qed.

Example grid_size_negative_raises :
  compute_entropy cast_x86_64 sample_traj (-1) = Raise ValueError.
Proof. reflexivity. Qed.

Example pair_loop_three :
  exists total, pair_loop 3 collapsed_frame = Ok (total, 3%nat).
Proof. eexists. reflexivity. Qed.

Example fft_of_nothing_raises : fft [] = Raise ValueError.
Proof. reflexivity. Qed.

Example evolve_grid_mismatch_raises :
  exists e, evolve sample_psi [0; 1]%R 1%R m_default = Raise e.
Proof. eexists. reflexivity. Qed.

(** ** Classical integrator *)

Lemma bind_Ok {A B} (r : result A) (k : A -> result B) (b : B) :
  bind r k = Ok b -> exists a, r = Ok a /\ k a = Ok b.
Proof. destruct r as [a|e]; simpl; [eauto | discriminate]. Qed.

Lemma init_state_Ok rand randn N steps st0 :
  init_state rand randn N steps = Ok st0 ->
  (0 <= N)%Z /\ (0 <= steps)%Z /\
  pos_fwd st0 = map (vscale 10) (map rand (range N)) /\
  vel_fwd st0 = map randn (range N) /\
  pos_rev st0 = pos_fwd st0 /\
  vel_rev st0 = map vneg (vel_fwd st0) /\
  traj_fwd st0 = replicate (Z.to_nat steps) (replicate (Z.to_nat N) vzero) /\
  traj_rev st0 = replicate (Z.to_nat steps) (replicate (Z.to_nat N) vzero).
Proof.
  unfold init_state, np_random, np_zeros3.
  destruct (Z.ltb_spec N 0); [discriminate|].
  destruct (Z.ltb_spec steps 0); [discriminate|].
  simpl. intros [= <-]. simpl. repeat split; auto.
Qed.

Lemma init_state_total rand randn N steps :
  (0 <= N)%Z -> (0 <= steps)%Z ->
  exists st0, init_state rand randn N steps = Ok st0.
Proof.
  intros HN Hs. unfold init_state, np_random, np_zeros3.
  destruct (Z.ltb_spec N 0); [lia|].
  destruct (Z.ltb_spec steps 0); [lia|].
  simpl. eauto.
Qed.

Lemma zip_with_fst_id {A B} (l : list A) (k : list B) :
  length k = length l -> zip_with (fun a _ => a) l k = l.
Proof.
  revert k. induction l as [|a l IH]; intros [|b k]; simpl; try easy.
  intros [= H]. f_equal. auto.
Qed.

Lemma frame_after_pointwise dt vel pos n :
  length vel = length pos ->
  frame_after dt vel pos n = zip_with (fun p v => point_after dt v p n) pos vel.
Proof.
  intros Hlen. induction n as [|n IH].
  - simpl. symmetry. apply zip_with_fst_id, Hlen.
  - unfold frame_after in *. simpl. rewrite IH. clear IH Hlen.
    unfold advance. revert vel.
    induction pos as [|p pos IHp]; intros [|v vel]; simpl; auto.
    f_equal. apply IHp.
Qed.

Lemma frame_after_length dt vel pos n :
  length vel = length pos -> length (frame_after dt vel pos n) = length pos.
Proof.
  intros H. induction n as [|n IH]; simpl; auto.
  unfold advance. rewrite length_zip_with, length_map.
  fold (frame_after dt vel pos n). rewrite IH, H. apply Nat.min_id.
Qed.

(** State of the forward loop after the iterations [a], ..., [a+n-1]. *)
Lemma forward_loop_seq dt n : forall a st,
  let st' := fold_left (forward_step dt) (seq a n) st in
  pos_fwd st' = frame_after dt (vel_fwd st) (pos_fwd st) n /\
  vel_fwd st' = vel_fwd st /\ pos_rev st' = pos_rev st /\
  vel_rev st' = vel_rev st /\ traj_rev st' = traj_rev st /\
  length (traj_fwd st') = length (traj_fwd st) /\
  forall t, traj_fwd st' !! t =
            if decide (a <= t < a + n /\ t < length (traj_fwd st))%nat
            then Some (frame_after dt (vel_fwd st) (pos_fwd st) (S (t - a)))
            else traj_fwd st !! t.
Proof.
  induction n as [|n IH]; intros a st; cbn [seq fold_left].
  - cbn zeta. repeat split; auto. intros t. destruct decide; auto. lia.
  - specialize (IH (S a) (forward_step dt st a)). cbn zeta in IH |- *.
    cbn [forward_step pos_fwd vel_fwd pos_rev vel_rev traj_fwd traj_rev]
      in IH.
    destruct IH as (Hp & Hv & Hpr & Hvr & Htr & Hlen & Ht).
    rewrite Hp, Hv, Hpr, Hvr, Htr, Hlen. rewrite length_insert.
    assert (Hshift : forall k, frame_after dt (vel_fwd st)
                       (advance dt (pos_fwd st) (vel_fwd st)) k
                     = frame_after dt (vel_fwd st) (pos_fwd st) (S k)).
    { intros k. unfold frame_after. induction k; simpl; auto.
      simpl in IHk. rewrite IHk. reflexivity. }
    repeat split; auto.
    intros t. rewrite Ht, length_insert.
    destruct (decide (S a <= t < S a + n /\ t < length (traj_fwd st))%nat)
      as [H1|H1].
    + rewrite decide_True by lia. rewrite Hshift. do 2 f_equal. lia.
    + destruct (decide (t = a)) as [->|Hne].
      * destruct (decide (a < length (traj_fwd st))%nat).
        -- rewrite list_lookup_insert_eq by auto.
           rewrite decide_True by lia. rewrite Nat.sub_diag. reflexivity.
        -- rewrite decide_False by lia.
           rewrite list_insert_ge by lia. reflexivity.
      * rewrite list_lookup_insert_ne by auto.
        rewrite decide_False by lia. reflexivity.
Qed.

Lemma swap_swap st : swap (swap st) = st.
Proof. destruct st; reflexivity. Qed.

Lemma reverse_fold_swap dt l : forall st,
  fold_left (reverse_step dt) l st
  = swap (fold_left (forward_step dt) l (swap st)).
Proof.
  induction l as [|t l IH]; intros st; cbn [fold_left].
  - symmetry. apply swap_swap.
  - rewrite IH. reflexivity.
Qed.

Lemma reverse_loop_seq dt n a st :
  let st' := fold_left (reverse_step dt) (seq a n) st in
  pos_rev st' = frame_after dt (vel_rev st) (pos_rev st) n /\
  vel_rev st' = vel_rev st /\ pos_fwd st' = pos_fwd st /\
  vel_fwd st' = vel_fwd st /\ traj_fwd st' = traj_fwd st /\
  length (traj_rev st') = length (traj_rev st) /\
  forall t, traj_rev st' !! t =
            if decide (a <= t < a + n /\ t < length (traj_rev st))%nat
            then Some (frame_after dt (vel_rev st) (pos_rev st) (S (t - a)))
            else traj_rev st !! t.
Proof.
  cbn zeta. rewrite reverse_fold_swap.
  exact (forward_loop_seq dt n a (swap st)).
Qed.

(** The two trajectories the script ends with. *)
Lemma integrate_frames rand randn N dt steps st0 :
  init_state rand randn N steps = Ok st0 ->
  let st := reverse_loop dt steps (forward_loop dt steps st0) in
  length (traj_fwd st) = Z.to_nat steps /\
  length (traj_rev st) = Z.to_nat steps /\
  forall t, (t < Z.to_nat steps)%nat ->
    traj_fwd st !! t
    = Some (frame_after dt (vel_fwd st0) (pos_fwd st0) (S t)) /\
    traj_rev st !! t
    = Some (frame_after dt (map vneg (vel_fwd st0)) (pos_fwd st0) (S t)).
Proof.
  intros H0. apply init_state_Ok in H0.
  destruct H0 as (HN & Hs & Hp & Hv & Hpr & Hvr & Htf & Htr).
  cbn zeta. unfold reverse_loop, forward_loop, range.
  pose proof (forward_loop_seq dt (Z.to_nat steps) 0 st0) as F.
  cbn zeta in F. set (st1 := fold_left _ _ st0) in *.
  pose proof (reverse_loop_seq dt (Z.to_nat steps) 0 st1) as B.
  cbn zeta in B. set (st2 := fold_left _ _ st1) in *.
  destruct F as (F1 & F2 & F3 & F4 & F5 & F6 & F7).
  destruct B as (B1 & B2 & B3 & B4 & B5 & B6 & B7).
  rewrite B5, F6, B6, F5, Htf, Htr, !length_replicate.
  repeat split; auto; rewrite ?B7, ?F7, ?F5, ?F4, ?F3, ?Htf, ?Htr,
    ?length_replicate, ?Hvr, ?Hpr, ?Nat.sub_0_r;
    rewrite decide_True by lia; reflexivity.
Qed.

Lemma veq_refl a : veq a a.
Proof. split; reflexivity. Qed.

(** A particle and its mirror image stay symmetric about the midpoint. *)
Lemma point_after_mirror dt v n : forall p q,
  veq (vadd (point_after dt v p n) (point_after dt (vneg v) q n)) (vadd p q).
Proof.
  induction n as [|n IH]; intros p q.
  - apply veq_refl.
  - specialize (IH p q).
    change (point_after dt v p (S n))
      with (vadd (point_after dt v p n) (vscale dt v)).
    change (point_after dt (vneg v) q (S n))
      with (vadd (point_after dt (vneg v) q n) (vscale dt (vneg v))).
    destruct IH as [IH1 IH2]. unfold veq, vadd, vscale, vneg in *.
    cbn [fst snd] in *. split.
    + rewrite <- IH1. ring.
    + rewrite <- IH2. ring.
Qed.

Lemma frame_after_mirror dt n : forall vel pos,
  length vel = length pos ->
  Forall2 veq
    (zip_with vadd (frame_after dt vel pos n)
                   (frame_after dt (map vneg vel) pos n))
    (map (vscale 2) pos).
Proof.
  intros vel pos Hlen.
  rewrite !frame_after_pointwise by (rewrite ?length_map; auto).
  revert vel Hlen.
  induction pos as [|p pos IH]; intros [|v vel] Hlen; try discriminate;
    cbn [zip_with map]; constructor.
  - destruct (point_after_mirror dt v n p p) as [H1 H2].
    unfold veq, vadd, vscale in *. cbn [fst snd] in *.
    rewrite H1, H2. split; ring.
  - apply IH. simpl in Hlen. lia.
Qed.

(** The reverse loop is the forward loop with the two directions
    exchanged, so the forward loop leaves the reverse arrays alone. *)
Lemma forward_loop_frame dt steps st0 :
  let st1 := forward_loop dt steps st0 in
  vel_fwd st1 = vel_fwd st0 /\ pos_rev st1 = pos_rev st0 /\
  vel_rev st1 = vel_rev st0.
Proof.
  cbn zeta. unfold forward_loop, range.
  destruct (forward_loop_seq dt (Z.to_nat steps) 0 st0)
    as (_ & Hv & Hpr & Hvr & _).
  auto.
Qed.

(** C3. For every generated particle set the reverse initial velocities
    are the elementwise negation of the forward ones and the reverse
    initial positions are the forward initial positions: this holds right
    after the arrays are set up, and still when the reverse loop starts,
    after the forward loop has moved [pos_fwd] in place. *)
Theorem velocity_mirror_symmetry rand randn N steps dt st0 :
  init_state rand randn N steps = Ok st0 ->
  (vel_rev st0 = map vneg (vel_fwd st0) /\ pos_rev st0 = pos_fwd st0) /\
  (let st1 := forward_loop dt steps st0 in
   vel_rev st1 = map vneg (vel_fwd st1) /\ pos_rev st1 = pos_fwd st0).
Proof.
  intros H0. apply init_state_Ok in H0.
  destruct H0 as (_ & _ & _ & _ & Hpr & Hvr & _).
  split; [auto|]. cbn zeta.
  destruct (forward_loop_frame dt steps st0) as (Hv & Hp & Hr).
  rewrite Hv, Hp, Hr. auto.
Qed.

Lemma velocity_mirror_symmetry_witness :
  exists st0,
    init_state sample_rand sample_randn 3 4 = Ok st0 /\
    (vel_rev st0 = map vneg (vel_fwd st0) /\ pos_rev st0 = pos_fwd st0) /\
    (let st1 := forward_loop (1 # 10) 4 st0 in
     vel_rev st1 = map vneg (vel_fwd st1) /\ pos_rev st1 = pos_fwd st0).
Proof.
  eexists. split; [reflexivity|].
  apply (velocity_mirror_symmetry sample_rand sample_randn 3 4 (1 # 10)).
  reflexivity.
Defined.

(** C9, as the code has it. With a step count of exactly 0 (and a particle
    count that is not negative) the integrator returns empty trajectories
    and does not raise; with a negative step count the allocation of the
    trajectory array raises [ValueError]. *)
Theorem zero_steps_empty_trajectory rand randn N dt :
  (0 <= N)%Z ->
  (exists st, integrate rand randn N dt 0 = Ok st /\
              traj_fwd st = [] /\ traj_rev st = []) /\
  (forall steps, (steps < 0)%Z ->
                 integrate rand randn N dt steps = Raise ValueError).
Proof.
  intros HN. split.
  - destruct (init_state_total rand randn N 0 HN) as [st0 H0]; [lia|].
    unfold integrate. rewrite H0. cbn [bind]. eexists. split; [reflexivity|].
    apply init_state_Ok in H0.
    destruct H0 as (_ & _ & _ & _ & _ & _ & Htf & Htr).
    change (reverse_loop dt 0 (forward_loop dt 0 st0)) with st0.
    rewrite Htf, Htr. auto.
  - intros steps Hs. unfold integrate, init_state, np_random, np_zeros3.
    destruct (Z.ltb_spec N 0); [lia|].
    destruct (Z.ltb_spec steps 0); [|lia]. reflexivity.
Qed.

Lemma zero_steps_empty_trajectory_witness :
  (exists st, integrate sample_rand sample_randn 20 (1 # 10) 0 = Ok st /\
              traj_fwd st = [] /\ traj_rev st = []) /\
  integrate sample_rand sample_randn 20 (1 # 10) (-3) = Raise ValueError.
Proof.
  destruct (zero_steps_empty_trajectory sample_rand sample_randn 20 (1 # 10))
    as [H0 Hneg]; [lia|].
  split; [exact H0 | apply Hneg; lia].
Defined.

(** C9 as stated fails: the step count -1000 (from [T = 100] and
    [dt = -0.1]) is malformed, and the script raises instead of returning
    an empty trajectory. *)
Lemma negative_steps_raise :
  (py_int (100 / - (1 # 10)) <= 0)%Z /\
  run_classical sample_rand sample_randn 20 100 (- (1 # 10))
  = Raise ValueError /\
  ~ (exists st,
       integrate sample_rand sample_randn 20 (- (1 # 10)) (-1000) = Ok st /\
       length (traj_fwd st) = 0%nat).
Proof.
  split; [vm_compute; discriminate|]. split; [reflexivity|].
  intros (st & H & _). vm_compute in H. discriminate.
Qed.

(** In exact arithmetic the forward and the reverse frame of every time
    step add up, particle by particle, to twice the common initial
    positions. *)
Lemma point_reflection_exact_arithmetic rand randn N dt steps st0 st t :
  init_state rand randn N steps = Ok st0 ->
  integrate rand randn N dt steps = Ok st ->
  (t < Z.to_nat steps)%nat ->
  exists ff fr,
    traj_fwd st !! t = Some ff /\ traj_rev st !! t = Some fr /\
    length ff = Z.to_nat N /\ length fr = Z.to_nat N /\
    Forall2 veq (zip_with vadd ff fr) (map (vscale 2) (pos_fwd st0)).
Proof.
  intros H0 Hi Ht. unfold integrate in Hi. rewrite H0 in Hi.
  cbn [bind] in Hi. injection Hi as <-.
  destruct (integrate_frames rand randn N dt steps st0 H0) as (_ & _ & Hf).
  destruct (Hf t Ht) as [Hff Hfr].
  apply init_state_Ok in H0.
  destruct H0 as (HN & Hs & Hp & Hv & _).
  assert (Hlen : length (vel_fwd st0) = length (pos_fwd st0)).
  { rewrite Hp, Hv, !length_map. reflexivity. }
  assert (HlenN : length (pos_fwd st0) = Z.to_nat N).
  { rewrite Hp, !length_map. unfold range. apply length_seq. }
  eexists _, _. split; [exact Hff|]. split; [exact Hfr|].
  rewrite !frame_after_length by (rewrite ?length_map; auto).
  repeat split; auto.
  apply frame_after_mirror, Hlen.
Qed.

(** ** Loops that append one result per element *)

Lemma for_each_append {A B} (f : A -> result B) (xs : list A) :
  forall acc,
    for_each xs (fun acc x => let* y := f x in Ok (acc ++ [y])) acc
    = let* ys := traverse f xs in Ok (acc ++ ys).
Proof.
  induction xs as [|x xs IH]; intros acc; cbn [for_each traverse bind].
  - rewrite app_nil_r. reflexivity.
  - destruct (f x) as [y|e]; cbn [bind]; [|reflexivity].
    rewrite IH. destruct (traverse f xs) as [ys|e]; cbn [bind]; [|reflexivity].
    rewrite <- app_assoc. reflexivity.
Qed.

Lemma traverse_Ok {A B} (f : A -> result B) (xs : list A) (ys : list B) :
  traverse f xs = Ok ys -> Forall2 (fun x y => f x = Ok y) xs ys.
Proof.
  revert ys. induction xs as [|x xs IH]; intros ys; cbn [traverse].
  - intros [= <-]. constructor.
  - intros H. apply bind_Ok in H. destruct H as (y & Hy & H).
    apply bind_Ok in H. destruct H as (ys' & Hys & [= <-]).
    constructor; auto.
Qed.

Lemma traverse_total {A B} (f : A -> result B) (g : A -> B) (xs : list A) :
  Forall (fun x => f x = Ok (g x)) xs -> traverse f xs = Ok (map g xs).
Proof.
  induction 1 as [|x xs Hx _ IH]; cbn [traverse map]; [reflexivity|].
  rewrite Hx, IH. reflexivity.
Qed.

(** ** Binning *)

Lemma Qtrunc_nonneg q : (0 <= Qnum q)%Z -> Qtrunc q = Qfloor q.
Proof.
  intros H. destruct q as [n d]. unfold Qtrunc, Qfloor. cbn [Qnum Qden] in *.
  apply Z.quot_div_nonneg; lia.
Qed.



Lemma np_clip_range z G : (1 <= G)%Z -> (0 <= np_clip z 0 (G - 1) < G)%Z.
Proof. unfold np_clip. lia. Qed.

(** ** The occupancy grid *)

Lemma np_index_Ok len i k : np_index len i = Ok k -> (k < len)%nat.
Proof.
  unfold np_index.
  destruct (Z.leb_spec 0 i), (Z.ltb_spec i (Z.of_nat len)); cbn [andb];
    try (intros [= <-]; lia);
    destruct (Z.leb_spec (- Z.of_nat len) i), (Z.ltb_spec i 0); cbn [andb];
    try discriminate; intros [= <-]; lia.
Qed.

Lemma np_index_in_range len i :
  (0 <= i < Z.of_nat len)%Z -> np_index len i = Ok (Z.to_nat i).
Proof.
  intros H. unfold np_index.
  destruct (Z.leb_spec 0 i), (Z.ltb_spec i (Z.of_nat len)); cbn [andb];
    auto; lia.
Qed.

Lemma sum_list_alter_S (row : list nat) j :
  (j < length row)%nat -> sum_list (alter S j row) = S (sum_list row).
Proof.
  revert j. induction row as [|c row IH]; intros [|j] H; simpl in H;
    try lia.
  - reflexivity.
  - change (alter S (S j) (c :: row)) with (c :: alter S j row).
    change (sum_list (c :: alter S j row))
      with (c + sum_list (alter S j row))%nat.
    rewrite IH by lia. simpl. lia.
Qed.

Lemma sum_list_join_cons (row : list nat) grid :
  sum_list (mjoin (row :: grid)) = (sum_list row + sum_list (mjoin grid))%nat.
Proof.
  change (mjoin (row :: grid)) with (row ++ mjoin grid).
  apply sum_list_with_app.
Qed.

Lemma sum_list_join_alter (grid : list (list nat)) i j :
  (i < length grid)%nat -> (j < length (grid !!! i))%nat ->
  sum_list (mjoin (alter (alter S j) i grid)) = S (sum_list (mjoin grid)).
Proof.
  revert i. induction grid as [|row grid IH]; intros [|i] Hi Hj;
    simpl in Hi; try lia.
  - change (alter (alter S j) 0%nat (row :: grid))
      with (alter S j row :: grid).
    rewrite !sum_list_join_cons, sum_list_alter_S by exact Hj. lia.
  - change (alter (alter S j) (S i) (row :: grid))
      with (row :: alter (alter S j) i grid).
    rewrite !sum_list_join_cons, IH; [lia | lia | exact Hj].
Qed.

Lemma square_alter n (grid : list (list nat)) i j :
  square n grid -> square n (alter (alter S j) i grid).
Proof.
  intros [Hlen Hrows]. split; [rewrite length_alter; exact Hlen|].
  apply Forall_forall. intros row Hrow.
  apply list_elem_of_lookup in Hrow. destruct Hrow as [k Hk].
  rewrite list_lookup_alter in Hk.
  rewrite Forall_forall in Hrows.
  destruct (decide (i = k)) as [->|Hne].
  - destruct (grid !! k) as [r|] eqn:E; [|discriminate].
    injection Hk as <-. rewrite length_alter.
    apply Hrows. eapply list_elem_of_lookup_2, E.
  - apply Hrows. eapply list_elem_of_lookup_2, Hk.
Qed.

Lemma grid_incr_Ok n grid xy grid' :
  square n grid -> grid_incr grid xy = Ok grid' ->
  square n grid' /\ sum_list (mjoin grid') = S (sum_list (mjoin grid)).
Proof.
  intros Hsq H. unfold grid_incr in H.
  apply bind_Ok in H. destruct H as (i & Hi & H).
  apply bind_Ok in H. destruct H as (j & Hj & [= <-]).
  apply np_index_Ok in Hi, Hj. split.
  - apply square_alter, Hsq.
  - apply sum_list_join_alter; assumption.
Qed.

Lemma for_each_grid_incr n cells : forall grid grid',
  square n grid -> for_each cells grid_incr grid = Ok grid' ->
  square n grid' /\
  sum_list (mjoin grid') = (length cells + sum_list (mjoin grid))%nat.
Proof.
  induction cells as [|c cells IH]; intros grid grid' Hsq H;
    cbn [for_each] in H.
  - injection H as <-. auto.
  - apply bind_Ok in H. destruct H as (g1 & H1 & H).
    destruct (grid_incr_Ok n grid c g1 Hsq H1) as [Hsq1 Hsum1].
    destruct (IH g1 grid' Hsq1 H) as [Hsq' Hsum'].
    split; [assumption|]. rewrite Hsum', Hsum1. simpl. lia.
Qed.

Lemma square_zeros n : square n (replicate n (replicate n 0%nat)).
Proof.
  split; [apply length_replicate|].
  apply Forall_replicate, length_replicate.
Qed.

Lemma sum_list_join_zeros n m :
  sum_list (mjoin (replicate n (replicate m 0%nat))) = 0%nat.
Proof.
  induction n as [|n IH]; [reflexivity|].
  cbn [replicate]. rewrite sum_list_join_cons, IH, sum_list_replicate. lia.
Qed.

Lemma length_join_rows m (grid : list (list nat)) :
  Forall (fun row => length row = m) grid ->
  length (mjoin grid) = (length grid * m)%nat.
Proof.
  induction 1 as [|row grid Hr _ IH]; [reflexivity|].
  change (mjoin (row :: grid)) with (row ++ mjoin grid).
  rewrite length_app, IH, Hr. simpl. lia.
Qed.

Lemma length_join_square n grid :
  square n grid -> length (mjoin grid) = (n * n)%nat.
Proof.
  intros [Hlen Hrows]. rewrite (length_join_rows n) by assumption.
  rewrite Hlen. reflexivity.
Qed.

Lemma square_row n (grid : list (list nat)) i :
  square n grid -> (i < n)%nat -> length (grid !!! i) = n.
Proof.
  intros [Hlen Hrows] Hi. rewrite Forall_forall in Hrows. apply Hrows.
  apply list_elem_of_lookup_total_2. lia.
Qed.

Lemma grid_incr_in_range n grid (x y : Z) :
  square n grid -> (0 <= x < Z.of_nat n)%Z -> (0 <= y < Z.of_nat n)%Z ->
  grid_incr grid (x, y)
  = Ok (alter (alter S (Z.to_nat y)) (Z.to_nat x) grid).
Proof.
  intros Hsq Hx Hy. unfold grid_incr. cbn [fst snd].
  rewrite np_index_in_range by (destruct Hsq as [-> _]; exact Hx).
  cbn [bind]. rewrite (square_row n) by (auto; lia).
  rewrite np_index_in_range by exact Hy. reflexivity.
Qed.

Lemma lookup_grid_alter n (grid : list (list nat)) i0 j0 i j :
  square n grid -> (i0 < n)%nat -> (j0 < n)%nat ->
  (alter (alter S j0) i0 grid !!! i) !!! j
  = (((grid !!! i) !!! j) + (if decide ((i0, j0) = (i, j)) then 1 else 0))%nat.
Proof.
  intros Hsq Hi0 Hj0. rewrite list_lookup_total_alter.
  destruct (decide (i0 = i /\ (i0 < length grid)%nat)) as [[-> _]|Hne].
  - rewrite list_lookup_total_alter.
    destruct (decide (j0 = j /\ (j0 < length (grid !!! i))%nat))
      as [[-> _]|Hnj].
    + rewrite decide_True by reflexivity. lia.
    + rewrite decide_False; [lia|]. intros [= ->]. apply Hnj.
      split; [reflexivity|]. rewrite (square_row n); auto.
  - rewrite decide_False; [lia|]. intros [= -> ->]. apply Hne.
    destruct Hsq as [-> _]. auto.
Qed.

(** With every index in [0, n), the loop of line 49 succeeds and each
    cell ends up with the number of indices that name it. *)
Lemma for_each_grid_incr_counts n (cells : list (Z * Z)) : forall grid,
  square n grid ->
  Forall (fun c => (0 <= fst c < Z.of_nat n)%Z /\ (0 <= snd c < Z.of_nat n)%Z)
         cells ->
  exists grid',
    for_each cells grid_incr grid = Ok grid' /\
    forall i j, (i < n)%nat -> (j < n)%nat ->
      (grid' !!! i) !!! j
      = (((grid !!! i) !!! j)
         + length (filter (fun c => c = (Z.of_nat i, Z.of_nat j)) cells))%nat.
Proof.
  induction cells as [|[x y] cells IH]; intros grid Hsq Hin.
  - exists grid. split; [reflexivity|]. intros. simpl. lia.
  - apply Forall_cons in Hin. destruct Hin as [[Hx Hy] Hin].
    cbn [fst snd] in Hx, Hy. cbn [for_each].
    rewrite (grid_incr_in_range n) by assumption. cbn [bind].
    destruct (IH _ (square_alter n grid (Z.to_nat x) (Z.to_nat y) Hsq) Hin)
      as (grid' & Hrun & Hcount).
    exists grid'. split; [exact Hrun|]. intros i j Hi Hj.
    rewrite Hcount, (lookup_grid_alter n) by (auto; lia).
    rewrite filter_cons.
    destruct (decide ((Z.to_nat x, Z.to_nat y) = (i, j))) as [E|E].
    + injection E as <- <-. rewrite !Z2Nat.id by lia.
      rewrite decide_True by reflexivity. simpl. lia.
    + rewrite decide_False; [lia|]. intros [= -> ->]. apply E.
      rewrite !Nat2Z.id. reflexivity.
Qed.

Lemma in_cell_map cell_of c (frame : array2) :
  in_cell cell_of c frame
  = length (filter (fun c' => c' = c) (map cell_of frame)).
Proof.
  unfold in_cell. induction frame as [|p frame IH]; [reflexivity|].
  cbn [map]. rewrite !filter_cons.
  destruct (decide (cell_of p = c)); simpl; rewrite IH; reflexivity.
Qed.

Lemma cell_in_range cast G p :
  (1 <= G)%Z ->
  (0 <= fst (cell cast G p) < G)%Z /\ (0 <= snd (cell cast G p) < G)%Z.
Proof.
  intros HG. unfold cell, cell_index. cbn [fst snd].
  split; apply np_clip_range, HG.
Qed.

Lemma occupancy_Ok cast G frame grid :
  occupancy cast G frame = Ok grid ->
  square (Z.to_nat G) grid /\ sum_list (mjoin grid) = length frame.
Proof.
  unfold occupancy, np_zeros2. destruct (Z.ltb_spec G 0); [discriminate|].
  cbn [bind]. intros Hrun.
  apply (for_each_grid_incr (Z.to_nat G)) in Hrun; [|apply square_zeros].
  destruct Hrun as [Hsq Hsum]. split; [exact Hsq|].
  rewrite Hsum, sum_list_join_zeros, length_map. lia.
Qed.

Lemma lookup_zeros n i j :
  (i < n)%nat -> (j < n)%nat ->
  (replicate n (replicate n 0%nat) !!! i) !!! j = 0%nat.
Proof.
  intros Hi Hj. rewrite !lookup_total_replicate_2 by assumption. reflexivity.
Qed.

Lemma occupancy_counts cast G frame :
  (1 <= G)%Z ->
  exists grid,
    occupancy cast G frame = Ok grid /\
    forall i j, (i < Z.to_nat G)%nat -> (j < Z.to_nat G)%nat ->
      (grid !!! i) !!! j
      = in_cell (cell cast G) (Z.of_nat i, Z.of_nat j) frame.
Proof.
  intros HG. unfold occupancy, np_zeros2.
  destruct (Z.ltb_spec G 0); [lia|]. cbn [bind].
  destruct (for_each_grid_incr_counts (Z.to_nat G) (map (cell cast G) frame)
              _ (square_zeros _)) as (grid & Hrun & Hcount).
  - apply Forall_forall. intros c Hc. apply list_elem_of_fmap in Hc.
    destruct Hc as (p & -> & _). rewrite Z2Nat.id by lia.
    apply cell_in_range, HG.
  - exists grid. split; [exact Hrun|]. intros i j Hi Hj.
    rewrite Hcount, lookup_zeros, in_cell_map by assumption. reflexivity.
Qed.

(** ** Shannon entropy of a list of counts *)

Local Open Scope R_scope.

Lemma ln_le_sub1 x : 0 < x -> ln x <= x - 1.
Proof.
  intros Hx. pose proof (exp_ineq1_le (x - 1)) as H.
  replace (1 + (x - 1)) with x in H by ring.
  destruct H as [H|H].
  - left. rewrite <- (ln_exp (x - 1)). apply ln_increasing; assumption.
  - right. rewrite H at 1. apply ln_exp.
Qed.

Lemma ln_le_mono x y : 0 < x -> x <= y -> ln x <= ln y.
Proof.
  intros Hx [H | ->].
  - left. apply ln_increasing; assumption.
  - right. reflexivity.
Qed.

Lemma ln_0 : ln 0 = 0.
Proof.
  unfold ln. destruct (Rlt_dec 0 0) as [H|H]; [|reflexivity].
  exfalso. exact (Rlt_irrefl 0 H).
Qed.

Lemma ln_INR_nonneg (n : nat) : 0 <= ln (INR n).
Proof.
  destruct n as [|n].
  - simpl. rewrite ln_0. lra.
  - rewrite <- ln_1. apply ln_le_mono; [lra|].
    rewrite S_INR. pose proof (pos_INR n). lra.
Qed.

(** One term of the entropy sum is not positive. *)
Lemma plogp_nonpos p : 0 < p -> p <= 1 -> p * ln p <= 0.
Proof.
  intros H0 H1. assert (ln p <= 0).
  { rewrite <- ln_1. apply ln_le_mono; assumption. }
  nra.
Qed.

(** Gibbs' inequality, one term at a time. *)
Lemma plogp_gibbs p K : 0 < p -> 0 < K -> - (p * ln p) <= p * ln K + / K - p.
Proof.
  intros Hp HK.
  assert (HpK : 0 < p * K) by (apply Rmult_lt_0_compat; assumption).
  assert (Hinv : 0 < / (p * K)) by (apply Rinv_0_lt_compat; assumption).
  pose proof (ln_le_sub1 (/ (p * K)) Hinv) as H.
  rewrite ln_Rinv, ln_mult in H by assumption.
  apply (Rmult_le_compat_l p) in H; [|lra].
  replace (p * (/ (p * K) - 1)) with (/ K - p) in H by (field; lra).
  lra.
Qed.

Lemma shannon_nonneg N cs :
  0 < N -> Forall (fun c => (1 <= c)%nat /\ INR c <= N) cs ->
  0 <= - Rsum (shannon_terms N cs).
Proof.
  intros HN. induction 1 as [|c cs [Hc1 HcN] _ IH]; simpl; [lra|].
  assert (0 < INR c) by (apply lt_0_INR; lia).
  assert (Hp : 0 < INR c / N) by (apply Rdiv_lt_0_compat; assumption).
  assert (Hp1 : INR c / N <= 1).
  { apply (Rmult_le_reg_r N); [assumption|]. 
    replace (INR c / N * N) with (INR c) by (field; lra). lra. }
  pose proof (plogp_nonpos _ Hp Hp1). unfold shannon_terms in IH. lra.
Qed.

Lemma shannon_gibbs N K cs :
  0 < N -> 0 < K -> Forall (fun c => (1 <= c)%nat) cs ->
  - Rsum (shannon_terms N cs)
  <= (ln K - 1) * (INR (sum_list cs) / N) + INR (length cs) / K.
Proof.
  intros HN HK. induction 1 as [|c cs Hc1 _ IH].
  - simpl. lra.
  - assert (0 < INR c) by (apply lt_0_INR; lia).
    assert (Hp : 0 < INR c / N) by (apply Rdiv_lt_0_compat; assumption).
    pose proof (plogp_gibbs _ K Hp HK) as Hg.
    change (sum_list (c :: cs)) with (c + sum_list cs)%nat.
    change (length (c :: cs)) with (S (length cs)).
    rewrite plus_INR, S_INR. unfold shannon_terms in *.
    cbn [map Rsum fold_right].
    fold (Rsum (map (fun p => p * ln p) (map (fun c => INR c / N) cs))).
    unfold Rdiv in *. nra.
Qed.

Lemma filter_pos_sum (l : list nat) :
  sum_list (filter (fun c => (0 < c)%nat) l) = sum_list l.
Proof.
  induction l as [|c l IH]; [reflexivity|].
  rewrite filter_cons. destruct (decide (0 < c)%nat).
  - change (sum_list (c :: filter (fun c => (0 < c)%nat) l))
      with (c + sum_list (filter (fun c => (0 < c)%nat) l))%nat.
    rewrite IH. reflexivity.
  - rewrite IH. change (sum_list (c :: l)) with (c + sum_list l)%nat. lia.
Qed.

Lemma filter_pos_Forall (l : list nat) :
  Forall (fun c => (1 <= c)%nat) (filter (fun c => (0 < c)%nat) l).
Proof.
  apply Forall_forall. intros c Hc. apply list_elem_of_filter in Hc.
  destruct Hc as [Hc _]. lia.
Qed.

Lemma length_le_sum (l : list nat) :
  Forall (fun c => (1 <= c)%nat) l -> (length l <= sum_list l)%nat.
Proof.
  induction 1 as [|c l Hc _ IH]; [reflexivity|].
  change (sum_list (c :: l)) with (c + sum_list l)%nat. simpl. lia.
Qed.

(** Entropy of the counts [flat]: between 0 and [ln] of the smaller of
    the number of particles and the number of cells. *)
Lemma entropy_bounds_counts (grid : list (list nat)) :
  let flat := mjoin grid in
  0 <= entropy_of_grid grid
  <= ln (INR (Nat.min (sum_list flat) (length flat))).
Proof.
  cbn zeta. unfold entropy_of_grid.
  set (flat := mjoin grid). set (cs := filter _ flat).
  fold (shannon_terms (INR (sum_list flat)) cs).
  assert (Hsum : sum_list cs = sum_list flat) by apply filter_pos_sum.
  assert (Hpos : Forall (fun c => (1 <= c)%nat) cs) by apply filter_pos_Forall.
  assert (HK : (length cs <= Nat.min (sum_list flat) (length flat))%nat).
  { apply Nat.min_glb.
    - rewrite <- Hsum. apply length_le_sum, Hpos.
    - apply length_filter. }
  destruct (Nat.eq_dec (length cs) 0%nat) as [HK0|HK0].
  - destruct cs; [|discriminate]. simpl. rewrite Ropp_0.
    split; [lra | apply ln_INR_nonneg].
  - assert (HN : 0 < INR (sum_list flat)).
    { apply lt_0_INR. lia. }
    assert (HKr : 0 < INR (length cs)) by (apply lt_0_INR; lia).
    split.
    + apply shannon_nonneg; [exact HN|].
      apply Forall_forall. intros c Hc. split.
      * rewrite Forall_forall in Hpos. apply Hpos, Hc.
      * apply le_INR. rewrite <- Hsum.
        exact (sum_list_with_in c Datatypes.id cs Hc).
    + pose proof (shannon_gibbs _ _ cs HN HKr Hpos) as Hg.
      rewrite Hsum in Hg.
      replace ((ln (INR (length cs)) - 1)
               * (INR (sum_list flat) / INR (sum_list flat))
               + INR (length cs) / INR (length cs))
        with (ln (INR (length cs))) in Hg by (field; lra).
      eapply Rle_trans; [exact Hg|].
      apply ln_le_mono; [exact HKr | apply le_INR, HK].
Qed.

(** ** compute_entropy *)

Lemma for_each_ext {A S} (xs : list A) (f g : S -> A -> result S) :
  (forall s x, f s x = g s x) ->
  forall s, for_each xs f s = for_each xs g s.
Proof.
  intros Hfg. induction xs as [|x xs IH]; intros s; cbn [for_each].
  - reflexivity.
  - rewrite Hfg. destruct (g s x); cbn [bind]; auto.
Qed.

Lemma compute_entropy_traverse cast traj G :
  compute_entropy cast traj G = traverse (entropy_step cast G) traj.
Proof.
  unfold compute_entropy.
  rewrite (for_each_ext traj _
             (fun acc x => let* y := entropy_step cast G x in Ok (acc ++ [y]))).
  - rewrite for_each_append. destruct (traverse _ traj); reflexivity.
  - intros acc frame. unfold entropy_step.
    destruct (occupancy cast G frame); reflexivity.
Qed.

Lemma entropy_step_Ok cast G frame e :
  entropy_step cast G frame = Ok e ->
  exists grid, occupancy cast G frame = Ok grid /\ e = entropy_of_grid grid.
Proof.
  unfold entropy_step. intros H. apply bind_Ok in H.
  destruct H as (grid & Hg & [= <-]). eauto.
Qed.

Lemma compute_entropy_total cast traj G :
  (1 <= G)%Z ->
  exists es, compute_entropy cast traj G = Ok es /\ length es = length traj.
Proof.
  intros HG. rewrite compute_entropy_traverse.
  induction traj as [|frame traj (es & IH & Hlen)]; cbn [traverse].
  - exists []. auto.
  - destruct (occupancy_counts cast G frame HG) as (grid & Hg & _).
    unfold entropy_step at 1. rewrite Hg, IH. cbn [bind].
    eexists. split; [reflexivity|]. simpl. lia.
Qed.


(** A run of [occupancy] that returns on a frame with a particle in it had
    a grid with at least one cell per axis. *)
Lemma occupancy_nonempty cast G p frame grid :
  occupancy cast G (p :: frame) = Ok grid -> (1 <= G)%Z.
Proof.
  unfold occupancy, np_zeros2. destruct (Z.ltb_spec G 0); [discriminate|].
  cbn [bind map for_each]. intros Hrun.
  apply bind_Ok in Hrun. destruct Hrun as (g1 & H1 & _).
  unfold grid_incr in H1. apply bind_Ok in H1. destruct H1 as (i & Hi & _).
  apply np_index_Ok in Hi. rewrite length_replicate in Hi. lia.
Qed.

(** A list of counts one of which is the sum of them all. *)
Lemma filter_pos_single (l : list nat) n :
  n ∈ l -> sum_list l = n ->
  filter (fun c => (0 < c)%nat) l = if decide (0 < n)%nat then [n] else [].
Proof.
  assert (Hz : forall k : list nat,
             sum_list k = 0%nat -> filter (fun c => (0 < c)%nat) k = []).
  { induction k as [|c k IHk]; [reflexivity|].
    change (sum_list (c :: k)) with (c + sum_list k)%nat. intros Hs.
    rewrite filter_cons_False by (simpl; lia). apply IHk. lia. }
  induction l as [|c l IH]; intros Hin Hsum.
  - apply elem_of_nil in Hin. contradiction.
  - change (sum_list (c :: l)) with (c + sum_list l)%nat in Hsum.
    apply elem_of_cons in Hin. destruct Hin as [->|Hin].
    + rewrite filter_cons, (Hz l) by lia. reflexivity.
    + pose proof (sum_list_with_in n Datatypes.id l Hin) as Hle.
      change (n <= sum_list l)%nat in Hle.
      rewrite filter_cons_False by (simpl; lia). apply IH; [exact Hin | lia].
Qed.

Lemma entropy_single (grid : list (list nat)) :
  sum_list (mjoin grid) ∈ mjoin grid -> entropy_of_grid grid = 0.
Proof.
  intros Hin. unfold entropy_of_grid.
  rewrite (filter_pos_single _ _ Hin eq_refl).
  destruct (decide (0 < sum_list (mjoin grid))%nat) as [Hpos|Hpos].
  - cbn [map Rsum fold_right].
    assert (0 < INR (sum_list (mjoin grid))) by (apply lt_0_INR; exact Hpos).
    replace (INR (sum_list (mjoin grid)) / INR (sum_list (mjoin grid)))
      with 1 by (field; lra).
    rewrite ln_1. ring.
  - cbn [map Rsum fold_right]. ring.
Qed.

Lemma in_cell_all cell_of c (frame : array2) :
  (forall p, p ∈ frame -> cell_of p = c) ->
  in_cell cell_of c frame = length frame.
Proof.
  unfold in_cell. induction frame as [|p frame IH]; intros Hall.
  - reflexivity.
  - rewrite filter_cons_True by (apply Hall; left).
    simpl. f_equal. apply IH. intros q Hq. apply Hall. right. exact Hq.
Qed.

Lemma occupancy_collapsed cast G frame grid c :
  occupancy cast G frame = Ok grid ->
  (forall p, p ∈ frame -> cell cast G p = c) ->
  entropy_of_grid grid = 0.
Proof.
  intros Hrun Hall. destruct (occupancy_Ok _ _ _ _ Hrun) as [Hsq Hsum].
  destruct frame as [|p frame].
  - unfold entropy_of_grid.
    assert (Hz : filter (fun c => (0 < c)%nat) (mjoin grid) = []).
    {       rewrite <- (filter_pos_sum (mjoin grid)) in Hsum.
      pose proof (length_le_sum _ (filter_pos_Forall (mjoin grid))) as Hle.
      rewrite Hsum in Hle. simpl in Hle.
      destruct (filter _ (mjoin grid)); [reflexivity | simpl in Hle; lia]. }
    rewrite Hz. cbn [map Rsum fold_right]. ring.
  - pose proof (occupancy_nonempty _ _ _ _ _ Hrun) as HG.
    destruct (occupancy_counts cast G (p :: frame) HG) as (grid' & Hrun' & Hc).
    rewrite Hrun in Hrun'. injection Hrun' as <-.
    destruct (cell_in_range cast G p HG) as [Hx Hy].
    rewrite (Hall p) in Hx, Hy by left.
    specialize (Hc (Z.to_nat (fst c)) (Z.to_nat (snd c))).
    rewrite !Z2Nat.id, <- surjective_pairing in Hc by lia.
    rewrite (in_cell_all _ _ _ Hall), <- Hsum in Hc.
    apply entropy_single. rewrite <- Hc by lia.
    apply list_elem_of_join. exists (grid !!! Z.to_nat (fst c)). split.
    + apply list_elem_of_lookup_total_2.
      rewrite (square_row (Z.to_nat G)); [lia | exact Hsq | lia].
    + apply list_elem_of_lookup_total_2. destruct Hsq as [-> _]. lia.
Qed.




(** C6. A time step at which all particles fall in the same grid cell has
    entropy exactly 0. *)
Theorem collapsed_entropy_zero cast traj G es t frame e c :
  compute_entropy cast traj G = Ok es ->
  traj !! t = Some frame -> es !! t = Some e ->
  (forall p, p ∈ frame -> cell cast G p = c) ->
  e = 0.
Proof.
  intros Hrun Hf He Hall. rewrite compute_entropy_traverse in Hrun.
  apply traverse_Ok in Hrun.
  pose proof (Forall2_lookup_lr _ _ _ _ _ _ Hrun Hf He) as Hstep.
  cbv beta in Hstep. apply entropy_step_Ok in Hstep.
  destruct Hstep as (grid & Hg & ->).
  exact (occupancy_collapsed cast G frame grid c Hg Hall).
Qed.

Lemma collapsed_entropy_zero_witness :
  exists e,
    compute_entropy cast_x86_64 [collapsed_frame] 10 = Ok [e] /\ e = 0.
Proof.
  eexists. split; [reflexivity|].
  eapply (collapsed_entropy_zero cast_x86_64 [collapsed_frame] 10 _ 0
            collapsed_frame _ (0, 3)%Z);
    [reflexivity | reflexivity | reflexivity |].
  intros p Hp. unfold collapsed_frame in Hp.
  repeat (apply elem_of_cons in Hp; destruct Hp as [-> | Hp];
          [vm_compute; reflexivity|]).
  apply elem_of_nil in Hp. contradiction.
Defined.

(** ** Chaos indicator *)

Lemma Rsum_cons x l : Rsum (x :: l) = x + Rsum l.
Proof. reflexivity. Qed.

Lemma Rsum_app l k : Rsum (l ++ k) = Rsum l + Rsum k.
Proof.
  unfold Rsum. induction l as [|x l IH]; simpl; [ring | rewrite IH; ring].
Qed.

Lemma drop_cons_inv {A} (l : list A) s b rest :
  drop s l = b :: rest -> l !! s = Some b /\ drop (S s) l = rest.
Proof.
  intros H. split.
  - pose proof (lookup_drop l s 0) as E.
    rewrite H, Nat.add_0_r in E. symmetry. exact E.
  - pose proof (drop_drop l 1 s) as E. rewrite H in E.
    replace (s + 1)%nat with (S s) in E by lia. symmetry. exact E.
Qed.

(** The inner loop, for particle [a] at index [i], over the particles
    [rest] that follow index [s - 1]. *)
Lemma inner_loop frame i a :
  frame !! i = Some a ->
  forall rest s tc,
    drop s frame = rest ->
    for_each (seq s (length rest))
      (fun tc j =>
         let* a := particle frame i in
         let* b := particle frame j in
         Ok (fst tc + euclidean a b, S (snd tc)))
      tc
    = Ok (fst tc + Rsum (map (euclidean a) rest),
          (snd tc + length rest)%nat).
Proof.
  intros Ha. induction rest as [|b rest IH]; intros s tc Hdrop.
  - cbn [length seq for_each map Rsum fold_right].
    rewrite Rplus_0_r, Nat.add_0_r. destruct tc; reflexivity.
  - apply drop_cons_inv in Hdrop. destruct Hdrop as [Hb Hdrop].
    cbn [length seq for_each]. unfold particle at 1 2.
    rewrite Ha, Hb. cbn [bind]. rewrite (IH (S s)) by exact Hdrop.
    cbn [fst snd map]. rewrite Rsum_cons. f_equal. f_equal; [ring | lia].
Qed.

Lemma outer_loop frame :
  forall rest s tc,
    drop s frame = rest ->
    for_each (seq s (length rest))
      (fun tc i =>
         for_each (range2 (i + 1) (length frame))
           (fun tc j =>
              let* a := particle frame i in
              let* b := particle frame j in
              Ok (fst tc + euclidean a b, S (snd tc)))
           tc)
      tc
    = Ok (fst tc
          + Rsum (map (fun ab => euclidean (fst ab) (snd ab))
                      (unordered_pairs rest)),
          (snd tc + length (unordered_pairs rest))%nat).
Proof.
  induction rest as [|a rest IH]; intros s tc Hdrop.
  - cbn [length seq for_each unordered_pairs map Rsum fold_right].
    rewrite Rplus_0_r, Nat.add_0_r. destruct tc; reflexivity.
  - pose proof (f_equal length Hdrop) as Hlen.
    rewrite length_drop in Hlen. cbn [length] in Hlen.
    apply drop_cons_inv in Hdrop. destruct Hdrop as [Ha Hdrop].
    cbn [length seq for_each]. unfold range2.
    replace (length frame - (s + 1))%nat with (length rest) by lia.
    replace (s + 1)%nat with (S s) by lia.
    rewrite (inner_loop frame s a Ha rest (S s) tc Hdrop). cbn [bind].
    rewrite (IH (S s)) by exact Hdrop.
    cbn [fst snd unordered_pairs]. rewrite map_app, Rsum_app, length_app.
    rewrite map_map, length_map. cbn [fst snd].
    f_equal. f_equal; [apply Rplus_assoc | lia].
Qed.

Lemma pair_loop_pairs frame :
  pair_loop (length frame) frame
  = Ok (Rsum (map (fun ab => euclidean (fst ab) (snd ab))
                  (unordered_pairs frame)),
        length (unordered_pairs frame)).
Proof.
  unfold pair_loop.
  rewrite <- (length_seq 0 (length frame)) at 1.
  rewrite length_seq.
  rewrite (outer_loop frame frame 0 (0, 0%nat) eq_refl).
  cbn [fst snd]. rewrite Rplus_0_l. reflexivity.
Qed.

Lemma length_unordered_pairs_sq {A} (l : list A) :
  (2 * length (unordered_pairs l) + length l = length l * length l)%nat.
Proof.
  induction l as [|x l IH]; [reflexivity|].
  cbn [unordered_pairs length]. rewrite length_app, length_map. nia.
Qed.

Lemma length_unordered_pairs {A} (l : list A) :
  (2 * length (unordered_pairs l) = length l * (length l - 1))%nat.
Proof.
  pose proof (length_unordered_pairs_sq l) as H.
  destruct (length l) as [|n]; [lia|].
  replace (S n - 1)%nat with n by lia. nia.
Qed.

Lemma euclidean_nonneg u v : 0 <= euclidean u v.
Proof. apply sqrt_pos. Qed.

Lemma Rsum_nonneg l : Forall (fun x => 0 <= x) l -> 0 <= Rsum l.
Proof.
  induction 1 as [|x l Hx _ IH]; [simpl; lra|]. rewrite Rsum_cons. lra.
Qed.

Lemma stabilizer_pos : 0 < stabilizer.
Proof. unfold stabilizer. apply Rinv_0_lt_compat. lra. Qed.

Lemma mean_pairwise_distance_nonneg frame :
  0 <= mean_pairwise_distance frame.
Proof.
  unfold mean_pairwise_distance.
  assert (Hs : 0 <= Rsum (map (fun ab => euclidean (fst ab) (snd ab))
                              (unordered_pairs frame))).
  { apply Rsum_nonneg, Forall_forall. intros x Hx.
    apply list_elem_of_fmap in Hx. destruct Hx as (ab & -> & _).
    apply euclidean_nonneg. }
  destruct (unordered_pairs frame) as [|p ps]; simpl length.
  - simpl. unfold Rdiv. rewrite Rinv_0. lra.
  - apply Rmult_le_pos; [exact Hs|].
    left. apply Rinv_0_lt_compat, lt_0_INR. lia.
Qed.

Lemma chaos_step N frame :
  (2 <= N)%nat -> length frame = N ->
  (let* tc := pair_loop N frame in py_div_count (fst tc) (snd tc))
  = Ok (mean_pairwise_distance frame).
Proof.
  intros HN Hlen. subst N. rewrite pair_loop_pairs. cbn [bind fst snd].
  pose proof (length_unordered_pairs frame) as Hp.
  unfold mean_pairwise_distance.
  destruct (length (unordered_pairs frame)) as [|m] eqn:E; [nia|].
  reflexivity.
Qed.

Lemma avg_pairwise_dist_traverse N traj :
  avg_pairwise_dist N traj
  = let* dists :=
      traverse (fun frame =>
                  let* tc := pair_loop N frame in
                  py_div_count (fst tc) (snd tc)) traj in
    Ok (map (fun d => ln (d + stabilizer)) dists).
Proof.
  unfold avg_pairwise_dist.
  rewrite (for_each_ext traj _
             (fun acc x =>
                let* y := (let* tc := pair_loop N x in
                           py_div_count (fst tc) (snd tc)) in
                Ok (acc ++ [y]))).
  - rewrite for_each_append. destruct (traverse _ traj); reflexivity.
  - intros acc frame. destruct (pair_loop N frame) as [tc|]; reflexivity.
Qed.

(** In exact arithmetic and with at least two particles, the chaos value
    of each time step is the logarithm of the mean distance over all
    unordered pairs of distinct particles plus the stabilizing constant,
    and the argument of the logarithm is strictly positive. *)
Lemma chaos_exact_arithmetic N traj :
  (2 <= N)%nat ->
  Forall (fun frame => length frame = N) traj ->
  avg_pairwise_dist N traj = Ok (map spec_chaos traj) /\
  Forall (fun frame =>
            0 < mean_pairwise_distance frame + stabilizer /\
            (2 * length (unordered_pairs frame) = N * (N - 1))%nat)
         traj.
Proof.
  intros HN Hshape. split.
  - rewrite avg_pairwise_dist_traverse.
    rewrite (traverse_total _ mean_pairwise_distance).
    + cbn [bind]. rewrite map_map. reflexivity.
    + eapply Forall_impl; [exact Hshape|].
      intros frame Hlen. cbv beta. apply chaos_step; assumption.
  - eapply Forall_impl; [exact Hshape|].
    intros frame Hlen. cbv beta in *. split.
    + pose proof (mean_pairwise_distance_nonneg frame).
      pose proof stabilizer_pos. lra.
    + rewrite <- Hlen. apply length_unordered_pairs.
Qed.

(** C8, as the code has it. With fewer than two particles the chaos
    computation raises [ZeroDivisionError] as soon as the trajectory has
    a time step; on a trajectory without time steps it returns the empty
    series. *)
Theorem chaos_raises_without_pairs N traj :
  (N < 2)%nat ->
  (traj <> [] -> avg_pairwise_dist N traj = Raise ZeroDivisionError) /\
  (traj = [] -> avg_pairwise_dist N traj = Ok []).
Proof.
  intros HN. split.
  - destruct traj as [|frame traj]; [congruence|]. intros _.
    unfold avg_pairwise_dist. cbn [for_each].
    assert (Hloop : pair_loop N frame = Ok (0, 0%nat)).
    { unfold pair_loop.
      destruct N as [|[|N]]; [reflexivity | reflexivity | lia]. }
    rewrite Hloop. reflexivity.
  - intros ->. reflexivity.
Qed.

Lemma chaos_raises_without_pairs_witness :
  avg_pairwise_dist 1 [[(1 # 2, 3)%Q]; [(3 # 5, 31 # 10)%Q]]
  = Raise ZeroDivisionError /\
  avg_pairwise_dist 1 [] = Ok [].
Proof.
  destruct (chaos_raises_without_pairs
              1 [[(1 # 2, 3)%Q]; [(3 # 5, 31 # 10)%Q]]) as [H _]; [lia|].
  destruct (chaos_raises_without_pairs 1 []) as [_ H']; [lia|].
  split; [apply H; discriminate | apply H'; reflexivity].
Defined.

(** C8 as stated fails: a single particle integrated for zero steps gives
    a trajectory of shape (0, 1, 2), on which the chaos computation
    returns without raising. *)
Lemma chaos_single_particle_no_steps :
  (1 < 2)%nat /\
  exists st,
    integrate sample_rand sample_randn 1 (1 # 10) 0 = Ok st /\
    avg_pairwise_dist 1 (traj_fwd st) = Ok [].
Proof.
  split; [lia|]. eexists. split; reflexivity.
Qed.

(** ** Complex numbers *)

Lemma C_eq (z w : C) : fst z = fst w -> snd z = snd w -> z = w.
Proof. destruct z, w. simpl. intros -> ->. reflexivity. Qed.

Ltac Csolve :=
  intros; apply C_eq;
  unfold Cminus, Cplus, Cmult, Copp, Cconj, Czero, Cone, Ci, RtoC;
  cbn [fst snd]; ring.

Lemma C_ring_theory : ring_theory Czero Cone Cplus Cmult Cminus Copp eq.
Proof. constructor; Csolve. Qed.

Add Ring C_ring : C_ring_theory.

Lemma Cmult_integral z w : Cmult z w = Czero -> z = Czero \/ w = Czero.
Proof.
  destruct z as [a b], w as [c d]. unfold Cmult, Czero, RtoC. cbn [fst snd].
  intros [= H1 H2].
  assert (H : (a ^ 2 + b ^ 2) * (c ^ 2 + d ^ 2) = 0) by nra.
  apply Rmult_integral in H. destruct H as [H|H]; [left | right];
    f_equal; nra.
Qed.

Lemma Cmult_assoc_C z w u : Cmult z (Cmult w u) = Cmult (Cmult z w) u.
Proof. ring. Qed.

Lemma normsq_mult z w : normsq (Cmult z w) = normsq z * normsq w.
Proof. unfold normsq, Cmult. cbn [fst snd]. ring. Qed.

Lemma normsq_conj z : RtoC (normsq z) = Cmult z (Cconj z).
Proof. unfold normsq. Csolve. Qed.

Lemma Cabs_sq z : Cabs z ^ 2 = normsq z.
Proof.
  unfold Cabs, normsq. rewrite <- Rsqr_pow2. apply Rsqr_sqrt.
  nra.
Qed.

(** ** The unit circle *)

Lemma cis_plus a b : cis (a + b) = Cmult (cis a) (cis b).
Proof. unfold cis. apply C_eq; unfold Cmult; cbn [fst snd];
  [apply cos_plus | rewrite sin_plus; ring]. Qed.

Lemma cis_0 : cis 0 = Cone.
Proof. unfold cis, Cone, RtoC. rewrite cos_0, sin_0. reflexivity. Qed.

Lemma cis_opp a : cis (- a) = Cconj (cis a).
Proof. unfold cis, Cconj. rewrite cos_neg, sin_neg. reflexivity. Qed.

Lemma normsq_cis a : normsq (cis a) = 1.
Proof.
  unfold normsq, cis. cbn [fst snd]. pose proof (sin2_cos2 a) as H.
  unfold Rsqr in H. lra.
Qed.

Lemma cis_cancel a : Cmult (cis a) (cis (- a)) = Cone.
Proof. rewrite <- cis_plus, Rplus_opp_r. apply cis_0. Qed.

Lemma cis_2PI_nat (n : nat) : cis (2 * PI * INR n) = Cone.
Proof.
  induction n as [|n IH].
  - simpl. rewrite Rmult_0_r. apply cis_0.
  - rewrite S_INR, Rmult_plus_distr_l, Rmult_1_r, cis_plus, IH.
    unfold cis. rewrite cos_2PI, sin_2PI. Csolve.
Qed.

Lemma cis_mult_nat (n : nat) a :
  cis (INR (S n) * a) = Cmult (cis (INR n * a)) (cis a).
Proof. rewrite S_INR, Rmult_plus_distr_r, Rmult_1_l. apply cis_plus. Qed.

(** [cis a] is 1 only at multiples of a full turn. *)
Lemma cis_neq_1 a : - (2 * PI) < a < 2 * PI -> a <> 0 -> cis a <> Cone.
Proof.
  intros Ha Hne Hcis. unfold cis, Cone, RtoC in Hcis.
  injection Hcis as Hcos _.
  replace a with (2 * (a / 2)) in Hcos by field.
  rewrite cos_2a_sin in Hcos.
  assert (Hsin : sin (a / 2) = 0) by nra.
  destruct (Rtotal_order a 0) as [Hneg | [Hz | Hpos]]; [| contradiction |].
  - assert (0 < sin (- (a / 2))) by (apply sin_gt_0; lra).
    rewrite sin_neg in *. lra.
  - assert (0 < sin (a / 2)) by (apply sin_gt_0; lra). lra.
Qed.

(** ** Finite sums of complex numbers *)

Lemma Csum_ext f g n :
  (forall i, (i < n)%nat -> f i = g i) -> Csum f n = Csum g n.
Proof.
  induction n as [|n IH]; intros H; cbn [Csum]; [reflexivity|].
  rewrite IH, H by (intros; try apply H; lia). reflexivity.
Qed.

Lemma Csum_zero n : Csum (fun _ => Czero) n = Czero.
Proof.
  induction n as [|n IH]; cbn [Csum]; [reflexivity | rewrite IH; ring].
Qed.

Lemma Csum_scale c f n : Cmult c (Csum f n) = Csum (fun i => Cmult c (f i)) n.
Proof.
  induction n as [|n IH]; cbn [Csum]; [ring|]. rewrite <- IH. ring.
Qed.

Lemma Csum_scale_r c f n : Cmult (Csum f n) c = Csum (fun i => Cmult (f i) c) n.
Proof.
  induction n as [|n IH]; cbn [Csum]; [ring|]. rewrite <- IH. ring.
Qed.

Lemma Csum_plus f g n :
  Csum (fun i => Cplus (f i) (g i)) n = Cplus (Csum f n) (Csum g n).
Proof.
  induction n as [|n IH]; cbn [Csum]; [ring|]. rewrite IH. ring.
Qed.

Lemma Csum_exchange (f : nat -> nat -> C) n m :
  Csum (fun i => Csum (fun j => f i j) m) n
  = Csum (fun j => Csum (fun i => f i j) n) m.
Proof.
  induction n as [|n IH]; cbn [Csum].
  - symmetry. apply Csum_zero.
  - rewrite IH, <- Csum_plus. reflexivity.
Qed.

(** A sum with a single term that is not zero. *)
Lemma Csum_single f n k :
  (k < n)%nat -> (forall i, (i < n)%nat -> i <> k -> f i = Czero) ->
  Csum f n = f k.
Proof.
  induction n as [|n IH]; intros Hk Hz; [lia|]. cbn [Csum].
  destruct (Nat.eq_dec k n) as [->|Hne].
  - rewrite (Csum_ext f (fun _ => Czero)) by (intros; apply Hz; lia).
    rewrite Csum_zero. ring.
  - rewrite IH by (try lia; intros; apply Hz; lia).
    rewrite (Hz n) by lia. ring.
Qed.

Lemma Csum_conj f n : Cconj (Csum f n) = Csum (fun i => Cconj (f i)) n.
Proof.
  induction n as [|n IH]; cbn [Csum]; [Csolve|]. rewrite <- IH. Csolve.
Qed.

(** ** Roots of unity *)

(** The geometric sum of the powers of [cis a]. *)
Lemma geometric_cis a n :
  Cmult (Cminus (cis a) Cone) (Csum (fun k => cis (INR k * a)) n)
  = Cminus (cis (INR n * a)) Cone.
Proof.
  induction n as [|n IH].
  - cbn [Csum INR]. rewrite Rmult_0_l, cis_0. ring.
  - cbn [Csum]. rewrite cis_mult_nat.
    transitivity
      (Cplus (Cmult (Cminus (cis a) Cone) (Csum (fun k => cis (INR k * a)) n))
             (Cmult (Cminus (cis a) Cone) (cis (INR n * a)))); [ring|].
    rewrite IH. ring.
Qed.

(** Orthogonality of the characters of the cyclic group of order [N]. *)
Lemma roots_orthogonal N j l :
  (j < N)%nat -> (l < N)%nat ->
  Csum (fun k => cis (INR k * (2 * PI * (INR j - INR l) / INR N))) N
  = if Nat.eq_dec j l then RtoC (INR N) else Czero.
Proof.
  intros Hj Hl.
  assert (HN : 0 < INR N) by (apply lt_0_INR; lia).
  destruct (Nat.eq_dec j l) as [->|Hne].
  - rewrite (Csum_ext _ (fun _ => Cone)).
    + clear. induction N as [|N IH]; cbn [Csum]; [reflexivity|].
      rewrite IH, S_INR. Csolve.
    + intros i _. replace (INR i * (2 * PI * (INR l - INR l) / INR N))
        with 0 by (field; lra). apply cis_0.
  - set (a := 2 * PI * (INR j - INR l) / INR N).
    pose proof (geometric_cis a N) as Hg.
    assert (Hturn : cis (INR N * a) = Cone).
    { replace (INR N * a) with (2 * PI * INR j + - (2 * PI * INR l))
        by (unfold a; field; lra).
      rewrite cis_plus, cis_opp, !cis_2PI_nat. Csolve. }
    rewrite Hturn in Hg.
    replace (Cminus Cone Cone) with Czero in Hg by ring.
    apply Cmult_integral in Hg. destruct Hg as [Hg|Hg]; [|exact Hg].
    exfalso. apply (cis_neq_1 a).
    + pose proof PI_RGT_0 as Hpi.
      assert (Hjl : - INR N < INR j - INR l < INR N).
      { apply lt_INR in Hj, Hl. pose proof (pos_INR j). pose proof (pos_INR l).
        lra. }
      unfold a. split.
      * apply (Rmult_lt_reg_r (INR N)); [exact HN|].
        replace (2 * PI * (INR j - INR l) / INR N * INR N)
          with (2 * PI * (INR j - INR l)) by (field; lra). nra.
      * apply (Rmult_lt_reg_r (INR N)); [exact HN|].
        replace (2 * PI * (INR j - INR l) / INR N * INR N)
          with (2 * PI * (INR j - INR l)) by (field; lra). nra.
    + unfold a. intros H0.
      assert (Hjl : INR j - INR l = 0).
      { pose proof PI_RGT_0.
        apply (Rmult_eq_reg_l (2 * PI / INR N)).
        - rewrite Rmult_0_r, <- H0. field. lra.
        - apply Rgt_not_eq. apply Rdiv_lt_0_compat; lra. }
      apply Hne, INR_eq. lra.
    + replace (cis a) with (Cplus (Cminus (cis a) Cone) Cone) by ring.
      rewrite Hg. ring.
Qed.

(** ** The discrete Fourier transform and its inverse *)

Lemma Cinv_INR_cancel N z :
  (0 < N)%nat -> Cmult (RtoC (/ INR N)) (Cmult z (RtoC (INR N))) = z.
Proof.
  intros HN. assert (INR N <> 0) by (apply not_0_INR; lia).
  apply C_eq; unfold Cmult, RtoC; cbn [fst snd]; field; assumption.
Qed.

Lemma idft_dft x N n : (n < N)%nat -> idft (dft x N) N n = x n.
Proof.
  intros Hn. assert (HN : INR N <> 0) by (apply not_0_INR; lia).
  unfold idft, dft.
  rewrite (Csum_ext _
    (fun k => Csum (fun m => Cmult (x m)
                 (cis (INR k * (2 * PI * (INR n - INR m) / INR N)))) N)).
  2:{ intros k _. rewrite Csum_scale_r. apply Csum_ext. intros m _.
      rewrite <- Cmult_assoc_C, <- cis_plus. do 2 f_equal. field. exact HN. }
  rewrite Csum_exchange.
  rewrite (Csum_ext _
    (fun m => Cmult (x m) (if Nat.eq_dec n m then RtoC (INR N) else Czero))).
  2:{ intros m Hm. rewrite <- Csum_scale, roots_orthogonal by assumption.
      reflexivity. }
  rewrite (Csum_single _ N n Hn).
  - destruct (Nat.eq_dec n n); [|contradiction].
    apply Cinv_INR_cancel. lia.
  - intros i _ Hi. destruct (Nat.eq_dec n i); [congruence | ring].
Qed.

Lemma dft_idft y N k : (k < N)%nat -> dft (idft y N) N k = y k.
Proof.
  intros Hk. assert (HN : INR N <> 0) by (apply not_0_INR; lia).
  unfold idft, dft.
  rewrite (Csum_ext _
    (fun n => Cmult (RtoC (/ INR N))
       (Csum (fun j => Cmult (y j)
                 (cis (INR n * (2 * PI * (INR j - INR k) / INR N)))) N))).
  2:{ intros n _. rewrite <- Cmult_assoc_C. f_equal.
      rewrite Csum_scale_r. apply Csum_ext. intros j _.
      rewrite <- Cmult_assoc_C, <- cis_plus. do 2 f_equal. field. exact HN. }
  rewrite <- Csum_scale, Csum_exchange.
  rewrite (Csum_ext _
    (fun j => Cmult (y j) (if Nat.eq_dec j k then RtoC (INR N) else Czero))).
  2:{ intros j Hj. rewrite <- Csum_scale, roots_orthogonal by assumption.
      reflexivity. }
  rewrite (Csum_single _ N k Hk).
  - destruct (Nat.eq_dec k k); [|contradiction].
    apply Cinv_INR_cancel. lia.
  - intros i _ Hi. destruct (Nat.eq_dec i k); [congruence | ring].
Qed.

(** ** fft, ifft and evolve when they return *)

Lemma fft_spectrum x : x <> [] -> fft x = Ok (spectrum x).
Proof. destruct x; [congruence | reflexivity]. Qed.

Lemma ifft_inverse_spectrum y : y <> [] -> ifft y = Ok (inverse_spectrum y).
Proof. destruct y; [congruence | reflexivity]. Qed.

Lemma length_spectrum x : length (spectrum x) = length x.
Proof. unfold spectrum. rewrite length_map, length_seq. reflexivity. Qed.

Lemma length_inverse_spectrum y : length (inverse_spectrum y) = length y.
Proof.
  unfold inverse_spectrum. rewrite length_map, length_seq. reflexivity.
Qed.

Lemma nonempty_length {A} (l : list A) : l <> [] <-> (0 < length l)%nat.
Proof. destruct l; simpl; split; intros; try congruence; lia. Qed.

Lemma nth_map_seq (f : nat -> C) N n :
  (n < N)%nat -> nth n (map f (seq 0 N)) Czero = f n.
Proof.
  intros Hn. rewrite (nth_indep _ Czero (f 0%nat))
    by (rewrite length_map, length_seq; exact Hn).
  rewrite map_nth, seq_nth by exact Hn. reflexivity.
Qed.

Lemma map_seq_ext (f g : nat -> C) N :
  (forall n, (n < N)%nat -> f n = g n) -> map f (seq 0 N) = map g (seq 0 N).
Proof.
  intros H. apply map_ext_in. intros n Hn. apply in_seq in Hn. apply H. lia.
Qed.

Lemma map_at_index l : map (at_index l) (seq 0 (length l)) = l.
Proof.
  apply (nth_ext _ _ Czero Czero).
  - rewrite length_map, length_seq. reflexivity.
  - intros n Hn. rewrite length_map, length_seq in Hn.
    rewrite nth_map_seq by exact Hn. reflexivity.
Qed.

Lemma dft_ext x x' N k :
  (forall n, (n < N)%nat -> x n = x' n) -> dft x N k = dft x' N k.
Proof.
  intros H. apply Csum_ext. intros n Hn. rewrite H by exact Hn. reflexivity.
Qed.

Lemma idft_ext y y' N n :
  (forall k, (k < N)%nat -> y k = y' k) -> idft y N n = idft y' N n.
Proof.
  intros H. unfold idft. f_equal. apply Csum_ext. intros k Hk.
  rewrite H by exact Hk. reflexivity.
Qed.

(** The two transforms undo each other. *)
Lemma inverse_spectrum_spectrum x : inverse_spectrum (spectrum x) = x.
Proof.
  unfold inverse_spectrum. rewrite length_spectrum.
  transitivity (map (at_index x) (seq 0 (length x))); [|apply map_at_index].
  apply map_seq_ext. intros n Hn.
  rewrite (idft_ext _ (dft (at_index x) (length x))).
  - apply idft_dft, Hn.
  - intros k Hk. unfold at_index at 1, spectrum. apply nth_map_seq, Hk.
Qed.

Lemma spectrum_inverse_spectrum y : spectrum (inverse_spectrum y) = y.
Proof.
  unfold spectrum. rewrite length_inverse_spectrum.
  transitivity (map (at_index y) (seq 0 (length y))); [|apply map_at_index].
  apply map_seq_ext. intros k Hk.
  rewrite (dft_ext _ (idft (at_index y) (length y))).
  - apply dft_idft, Hk.
  - intros n Hn. unfold at_index at 1, inverse_spectrum.
    apply nth_map_seq, Hn.
Qed.

Lemma length_phases k t m : length (phases k t m) = length k.
Proof. unfold phases. rewrite !length_map. reflexivity. Qed.

Lemma np_multiply_same_length a b :
  length a = length b -> np_multiply a b = Ok (zip_with Cmult a b).
Proof. intros H. unfold np_multiply. rewrite H, Nat.eqb_refl. reflexivity. Qed.

(** What [evolve] returns on a packet and a wavenumber grid of the same,
    positive, length. *)
Lemma evolve_Ok psi k t m :
  psi <> [] -> length k = length psi ->
  evolve psi k t m
  = Ok (inverse_spectrum (zip_with Cmult (spectrum psi) (phases k t m))).
Proof.
  intros Hne Hlen. unfold evolve. rewrite (fft_spectrum psi Hne). cbn [bind].
  fold (energy m). change (map _ (map (energy m) k)) with (phases k t m).
  rewrite np_multiply_same_length
    by (rewrite length_spectrum, length_phases; auto).
  cbn [bind]. apply ifft_inverse_spectrum.
  apply nonempty_length.
  rewrite length_zip_with, length_spectrum, length_phases.
  apply nonempty_length in Hne. lia.
Qed.

(** ** The phase factors *)

Lemma phase_cis t E :
  phase t E = cis (- (E * t * (hbar / (hbar ^ 2 + 0 ^ 2)))).
Proof.
  unfold phase, Cexp, cis.
  set (z := Cdiv _ _).
  assert (Hre : fst z = 0).
  { unfold z, Cdiv, Cinv, Cmult, Copp, Ci, RtoC. cbn [fst snd].
    unfold Rdiv. ring. }
  assert (Him : snd z = - (E * t * (hbar / (hbar ^ 2 + 0 ^ 2)))).
  { unfold z, Cdiv, Cinv, Cmult, Copp, Ci, RtoC. cbn [fst snd].
    unfold Rdiv. ring. }
  rewrite Hre, Him, exp_0, !Rmult_1_l. reflexivity.
Qed.

Lemma phase_cancel t E : Cmult (phase t E) (phase (- t) E) = Cone.
Proof.
  rewrite !phase_cis.
  replace (- (E * - t * (hbar / (hbar ^ 2 + 0 ^ 2))))
    with (- - (E * t * (hbar / (hbar ^ 2 + 0 ^ 2)))) by ring.
  apply cis_cancel.
Qed.

Lemma normsq_phase t E : normsq (phase t E) = 1.
Proof. rewrite phase_cis. apply normsq_cis. Qed.

Lemma zip_phases_cancel k t m : forall F : list C,
  length k = length F ->
  zip_with Cmult (zip_with Cmult F (phases k t m)) (phases k (- t) m) = F.
Proof.
  unfold phases. induction k as [|kk k IH]; intros [|z F] Hlen;
    try discriminate; [reflexivity|].
  cbn [map zip_with]. rewrite IH by (simpl in Hlen; lia).
  f_equal. rewrite <- Cmult_assoc_C, phase_cancel. ring.
Qed.

(** C1. Evolving a wave packet by [+t] and the result by [-t], on a
    wavenumber grid of the packet's length, gives back the original
    amplitude array, exactly. *)
Theorem evolve_round_trip psi k t :
  psi <> [] -> length k = length psi ->
  exists psi_t,
    evolve psi k t m_default = Ok psi_t /\
    evolve psi_t k (- t) m_default = Ok psi.
Proof.
  intros Hne Hlen. eexists. split; [apply evolve_Ok; assumption|].
  set (G := zip_with Cmult (spectrum psi) (phases k t m_default)).
  assert (HG : length G = length psi).
  { unfold G. rewrite length_zip_with, length_spectrum, length_phases. lia. }
  rewrite evolve_Ok.
  - rewrite spectrum_inverse_spectrum. unfold G.
    rewrite zip_phases_cancel by (rewrite length_spectrum; exact Hlen).
    rewrite inverse_spectrum_spectrum. reflexivity.
  - apply nonempty_length. rewrite length_inverse_spectrum, HG.
    apply nonempty_length, Hne.
  - rewrite length_inverse_spectrum, HG. exact Hlen.
Qed.

Lemma evolve_round_trip_witness :
  exists psi_t,
    evolve sample_psi sample_k (5 / 2) m_default = Ok psi_t /\
    evolve psi_t sample_k (- (5 / 2)) m_default = Ok sample_psi.
Proof.
  apply (evolve_round_trip sample_psi sample_k (5 / 2));
    [discriminate | reflexivity].
Defined.

(** ** Parseval's identity *)

Lemma Cconj_mult z w : Cconj (Cmult z w) = Cmult (Cconj z) (Cconj w).
Proof. Csolve. Qed.

Lemma Cconj_cis a : Cconj (cis (- a)) = cis a.
Proof.
  rewrite cis_opp. unfold Cconj. cbn [fst snd].
  apply C_eq; cbn [fst snd]; ring.
Qed.

Lemma RtoC_plus a b : RtoC (a + b) = Cplus (RtoC a) (RtoC b).
Proof. Csolve. Qed.

Lemma RtoC_mult a b : RtoC (a * b) = Cmult (RtoC a) (RtoC b).
Proof. Csolve. Qed.

Lemma RtoC_inj a b : RtoC a = RtoC b -> a = b.
Proof. intros [= H]. exact H. Qed.

Lemma idft_sum y N n :
  (0 < N)%nat ->
  Csum (fun k => Cmult (y k) (cis (2 * PI * INR k * INR n / INR N))) N
  = Cmult (RtoC (INR N)) (idft y N n).
Proof.
  intros HN. unfold idft.
  set (S := Csum _ N). clearbody S.
  assert (INR N <> 0) by (apply not_0_INR; lia).
  apply C_eq; unfold Cmult, RtoC; cbn [fst snd]; field; assumption.
Qed.

Lemma dft_parseval x N :
  (0 < N)%nat -> norm_sum (dft x N) N = Cmult (RtoC (INR N)) (norm_sum x N).
Proof.
  intros HN. assert (HNr : INR N <> 0) by (apply not_0_INR; lia).
  unfold norm_sum.
  (* conj(X_k) as a sum over m *)
  rewrite (Csum_ext _
    (fun k => Csum (fun m =>
        Cmult (Cconj (x m))
              (Cmult (dft x N k) (cis (2 * PI * INR k * INR m / INR N)))) N)).
  2:{ intros k _. unfold dft at 2. rewrite Csum_conj, Csum_scale.
      apply Csum_ext. intros m _. rewrite Cconj_mult, Cconj_cis.
      generalize (dft x N k). intros X. ring. }
  rewrite Csum_exchange.
  rewrite (Csum_ext _
    (fun m => Cmult (RtoC (INR N)) (Cmult (x m) (Cconj (x m))))).
  2:{ intros m Hm. rewrite <- Csum_scale, (idft_sum _ N m HN).
      rewrite (idft_dft x N m Hm). ring. }
  symmetry. apply Csum_scale.
Qed.

Lemma sum_normsq_norm_sum l :
  RtoC (sum_normsq l) = norm_sum (at_index l) (length l).
Proof.
  unfold sum_normsq, norm_sum.
  induction l as [|z l IH] using rev_ind; [reflexivity|].
  rewrite map_app, Rsum_app, length_app, Nat.add_comm.
  cbn [length Nat.add Csum].
  rewrite RtoC_plus, IH. f_equal.
  - apply Csum_ext. intros n Hn. unfold at_index.
    rewrite app_nth1 by exact Hn. reflexivity.
  - unfold at_index. rewrite nth_middle. cbn [map]. rewrite Rsum_cons.
    rewrite <- normsq_conj. f_equal. simpl. ring.
Qed.

Lemma sum_normsq_spectrum x :
  sum_normsq (spectrum x) = INR (length x) * sum_normsq x.
Proof.
  destruct (Nat.eq_dec (length x) 0%nat) as [H0|H0].
  - destruct x; [|discriminate]. unfold sum_normsq. simpl. ring.
  - apply RtoC_inj. rewrite RtoC_mult, !sum_normsq_norm_sum, length_spectrum.
    rewrite <- dft_parseval by lia. unfold norm_sum. apply Csum_ext.
    intros k Hk. unfold at_index at 1 2, spectrum.
    rewrite nth_map_seq by exact Hk. reflexivity.
Qed.

Lemma sum_normsq_inverse_spectrum y :
  INR (length y) * sum_normsq (inverse_spectrum y) = sum_normsq y.
Proof.
  rewrite <- (length_inverse_spectrum y), <- sum_normsq_spectrum.
  rewrite spectrum_inverse_spectrum. reflexivity.
Qed.

Lemma sum_normsq_phases k t m : forall F : list C,
  length k = length F ->
  sum_normsq (zip_with Cmult F (phases k t m)) = sum_normsq F.
Proof.
  unfold phases, sum_normsq. induction k as [|kk k IH]; intros [|z F] Hlen;
    try discriminate; [reflexivity|].
  cbn [map zip_with]. rewrite !Rsum_cons, IH by (simpl in Hlen; lia).
  rewrite normsq_mult, normsq_phase. ring.
Qed.

Lemma total_probability_sum_normsq psi dx :
  total_probability psi dx = sum_normsq psi * dx.
Proof.
  unfold total_probability, density, sum_normsq.
  induction psi as [|z psi IH]; [simpl; ring|].
  cbn [map]. rewrite !Rsum_cons, IH, Cabs_sq. ring.
Qed.

(** C2. [evolve] conserves the total probability [sum |psi|^2 * dx],
    for positive and for negative times. *)
Theorem evolve_conserves_probability psi k t dx :
  psi <> [] -> length k = length psi ->
  exists psi_t,
    evolve psi k t m_default = Ok psi_t /\
    total_probability psi_t dx = total_probability psi dx.
Proof.
  intros Hne Hlen. eexists. split; [apply evolve_Ok; assumption|].
  rewrite !total_probability_sum_normsq. f_equal.
  set (G := zip_with Cmult (spectrum psi) (phases k t m_default)).
  assert (HG : length G = length psi).
  { unfold G. rewrite length_zip_with, length_spectrum, length_phases. lia. }
  assert (HN : INR (length psi) <> 0).
  { apply not_0_INR. apply nonempty_length in Hne. lia. }
  apply (Rmult_eq_reg_l (INR (length psi))); [|exact HN].
  rewrite <- HG at 1. rewrite sum_normsq_inverse_spectrum. unfold G.
  rewrite sum_normsq_phases by (rewrite length_spectrum; exact Hlen).
  apply sum_normsq_spectrum.
Qed.

Lemma evolve_conserves_probability_witness :
  exists psi_t,
    evolve sample_psi sample_k (- (5 / 2)) m_default = Ok psi_t /\
    total_probability psi_t (20 / 1023)
    = total_probability sample_psi (20 / 1023).
Proof.
  apply (evolve_conserves_probability sample_psi sample_k (- (5 / 2)));
    [discriminate | reflexivity].
Defined.

(** * Further properties of the code *)

(** ** Classical integrator: shape, closed form, steps *)

Local Open Scope Q_scope.

Lemma veq_sym a b : veq a b -> veq b a.
Proof. intros [H1 H2]. split; symmetry; assumption. Qed.

Lemma veq_trans a b c : veq a b -> veq b c -> veq a c.
Proof.
  intros [H1 H2] [H3 H4]. split; [rewrite H1 | rewrite H2]; assumption.
Qed.

Lemma inject_Z_succ_nat n :
  inject_Z (Z.of_nat (S n)) == inject_Z (Z.of_nat n) + 1.
Proof. unfold Qeq, inject_Z, Qplus. cbn [Qnum Qden]. lia. Qed.

(** [n] steps of [p += v * dt] add [n * dt] times the velocity. *)
Lemma point_after_closed dt v p n :
  veq (point_after dt v p n)
      (vadd p (vscale (inject_Z (Z.of_nat n) * dt) v)).
Proof.
  induction n as [|n [IH1 IH2]].
  - change (point_after dt v p 0) with p.
    change (inject_Z (Z.of_nat 0)) with 0.
    unfold veq, vadd, vscale. cbn [fst snd]. split; ring.
  - change (point_after dt v p (S n))
      with (vadd (point_after dt v p n) (vscale dt v)).
    unfold veq, vadd, vscale in *. cbn [fst snd] in *.
    rewrite IH1, IH2, inject_Z_succ_nat. split; ring.
Qed.

(** Reversing the time step is reversing the velocity. *)
Lemma point_after_opp dt v p n :
  veq (point_after (- dt) v p n) (point_after dt (vneg v) p n).
Proof.
  induction n as [|n [IH1 IH2]]; [apply veq_refl|].
  change (point_after (- dt) v p (S n))
    with (vadd (point_after (- dt) v p n) (vscale (- dt) v)).
  change (point_after dt (vneg v) p (S n))
    with (vadd (point_after dt (vneg v) p n) (vscale dt (vneg v))).
  unfold veq, vadd, vscale, vneg in *. cbn [fst snd] in *.
  rewrite IH1, IH2. split; ring.
Qed.

Lemma init_state_lengths rand randn N steps st0 :
  init_state rand randn N steps = Ok st0 ->
  length (pos_fwd st0) = Z.to_nat N /\ length (vel_fwd st0) = Z.to_nat N.
Proof.
  intros H0. apply init_state_Ok in H0.
  destruct H0 as (_ & _ & Hp & Hv & _).
  rewrite Hp, Hv, !length_map. unfold range. rewrite length_seq. auto.
Qed.

Lemma integrate_Ok rand randn N dt steps st :
  integrate rand randn N dt steps = Ok st ->
  exists st0, init_state rand randn N steps = Ok st0 /\
              st = reverse_loop dt steps (forward_loop dt steps st0).
Proof.
  unfold integrate. intros H. apply bind_Ok in H.
  destruct H as (st0 & H0 & [= <-]). eauto.
Qed.

(** X1. The integrator returns exactly when neither the particle count
    nor the step count is negative, and raises [ValueError] otherwise; when
    it returns, both trajectories have [steps] frames of [N] particles. *)
Theorem integrate_shape rand randn N dt steps :
  ((0 <= N)%Z -> (0 <= steps)%Z ->
   exists st,
     integrate rand randn N dt steps = Ok st /\
     length (traj_fwd st) = Z.to_nat steps /\
     length (traj_rev st) = Z.to_nat steps /\
     Forall (fun frame => length frame = Z.to_nat N) (traj_fwd st) /\
     Forall (fun frame => length frame = Z.to_nat N) (traj_rev st)) /\
  ((N < 0)%Z \/ (steps < 0)%Z ->
   integrate rand randn N dt steps = Raise ValueError).
Proof.
  split.
  - intros HN Hs.
    destruct (init_state_total rand randn N steps HN Hs) as [st0 H0].
    unfold integrate. rewrite H0. cbn [bind]. eexists. split; [reflexivity|].
    destruct (integrate_frames rand randn N dt steps st0 H0)
      as (Lf & Lr & Hlook).
    destruct (init_state_lengths _ _ _ _ _ H0) as [Lp Lv].
    split; [exact Lf|]. split; [exact Lr|].
    split; apply Forall_lookup; intros t frame Ht.
    + pose proof (lookup_lt_Some _ _ _ Ht) as Hlt. rewrite Lf in Hlt.
      destruct (Hlook t Hlt) as [Hff _]. rewrite Hff in Ht.
      replace frame with (frame_after dt (vel_fwd st0) (pos_fwd st0) (S t))
        by congruence.
      rewrite frame_after_length; lia.
    + pose proof (lookup_lt_Some _ _ _ Ht) as Hlt. rewrite Lr in Hlt.
      destruct (Hlook t Hlt) as [_ Hfr]. rewrite Hfr in Ht.
      replace frame
        with (frame_after dt (map vneg (vel_fwd st0)) (pos_fwd st0) (S t))
        by congruence.
      rewrite frame_after_length; rewrite ?length_map; lia.
  - intros Hneg. unfold integrate, init_state, np_random, np_zeros3.
    destruct (Z.ltb_spec N 0); [reflexivity|].
    destruct (Z.ltb_spec steps 0); [reflexivity | lia].
Qed.

Lemma integrate_shape_witness :
  (exists st,
     integrate sample_rand sample_randn 3 (1 # 10) 4 = Ok st /\
     length (traj_fwd st) = 4%nat /\ length (traj_rev st) = 4%nat /\
     Forall (fun frame => length frame = 3%nat) (traj_fwd st) /\
     Forall (fun frame => length frame = 3%nat) (traj_rev st)) /\
  integrate sample_rand sample_randn (-2) (1 # 10) 4 = Raise ValueError.
Proof.
  destruct (integrate_shape sample_rand sample_randn 3 (1 # 10) 4)
    as [H _].
  destruct (integrate_shape sample_rand sample_randn (-2) (1 # 10) 4)
    as [_ H'].
  split; [apply H; lia | apply H'; lia].
Defined.

(** What the two loops leave in the position and velocity arrays. *)
Lemma integrate_final rand randn N dt steps st0 :
  init_state rand randn N steps = Ok st0 ->
  let st := reverse_loop dt steps (forward_loop dt steps st0) in
  pos_fwd st = frame_after dt (vel_fwd st0) (pos_fwd st0) (Z.to_nat steps) /\
  pos_rev st
  = frame_after dt (map vneg (vel_fwd st0)) (pos_fwd st0) (Z.to_nat steps) /\
  vel_fwd st = vel_fwd st0 /\ vel_rev st = map vneg (vel_fwd st0).
Proof.
  intros H0. apply init_state_Ok in H0.
  destruct H0 as (_ & _ & _ & _ & Hpr & Hvr & _).
  cbn zeta. unfold reverse_loop, forward_loop, range.
  pose proof (forward_loop_seq dt (Z.to_nat steps) 0 st0) as F.
  cbn zeta in F. set (st1 := fold_left _ _ st0) in *.
  pose proof (reverse_loop_seq dt (Z.to_nat steps) 0 st1) as B.
  cbn zeta in B. set (st2 := fold_left _ _ st1) in *.
  destruct F as (F1 & F2 & F3 & F4 & _).
  destruct B as (B1 & B2 & B3 & B4 & _).
  rewrite B3, B4, B1, B2, F1, F2, F3, F4, Hpr, Hvr. auto.
Qed.

(** X3. The loops never touch the velocities; consecutive frames differ
    by exactly one step [pos += vel * dt], the first frame being one step
    after the initial positions; and on exit [pos_fwd] and [pos_rev] hold
    the last frames of their trajectories. *)
Theorem euler_steps_between_frames rand randn N dt steps st0 st :
  init_state rand randn N steps = Ok st0 ->
  integrate rand randn N dt steps = Ok st ->
  vel_fwd st = vel_fwd st0 /\ vel_rev st = vel_rev st0 /\
  (forall t, (S t < Z.to_nat steps)%nat ->
     exists f f',
       traj_fwd st !! t = Some f /\ traj_fwd st !! S t = Some f' /\
       f' = advance dt f (vel_fwd st)) /\
  ((0 < Z.to_nat steps)%nat ->
   traj_fwd st !! 0%nat = Some (advance dt (pos_fwd st0) (vel_fwd st0)) /\
   last (traj_fwd st) = Some (pos_fwd st) /\
   last (traj_rev st) = Some (pos_rev st)).
Proof.
  intros H0 Hi. apply integrate_Ok in Hi.
  destruct Hi as (st0' & H0' & ->). rewrite H0 in H0'. injection H0' as <-.
  destruct (integrate_frames rand randn N dt steps st0 H0) as (Lf & Lr & Hf).
  destruct (integrate_final rand randn N dt steps st0 H0)
    as (Pf & Pr & Vf & Vr).
  pose proof (init_state_Ok _ _ _ _ _ H0) as (_ & _ & _ & _ & _ & Hvr & _).
  split; [exact Vf|]. split; [rewrite Vr, Hvr; reflexivity|]. split.
  - intros t Ht. destruct (Hf t) as [Ht0 _]; [lia|].
    destruct (Hf (S t) Ht) as [Ht1 _].
    eexists _, _. split; [exact Ht0|]. split; [exact Ht1|].
    rewrite Vf. reflexivity.
  - intros Hpos. destruct (Hf 0%nat Hpos) as [Hfirst _].
    split; [exact Hfirst|].
    rewrite !last_lookup, Lf, Lr.
    destruct (Hf (Nat.pred (Z.to_nat steps))) as [Hlf Hlr]; [lia|].
    rewrite Hlf, Hlr, Pf, Pr.
    replace (S (Nat.pred (Z.to_nat steps))) with (Z.to_nat steps) by lia.
    auto.
Qed.

Lemma euler_steps_between_frames_witness :
  exists st0 st,
    init_state sample_rand sample_randn 3 4 = Ok st0 /\
    integrate sample_rand sample_randn 3 (1 # 10) 4 = Ok st /\
    vel_fwd st = vel_fwd st0 /\ vel_rev st = vel_rev st0 /\
    (forall t, (S t < 4)%nat ->
       exists f f',
         traj_fwd st !! t = Some f /\ traj_fwd st !! S t = Some f' /\
         f' = advance (1 # 10) f (vel_fwd st)) /\
    ((0 < 4)%nat ->
     traj_fwd st !! 0%nat
     = Some (advance (1 # 10) (pos_fwd st0) (vel_fwd st0)) /\
     last (traj_fwd st) = Some (pos_fwd st) /\
     last (traj_rev st) = Some (pos_rev st)).
Proof.
  eexists _, _. split; [reflexivity|]. split; [reflexivity|].
  apply (euler_steps_between_frames sample_rand sample_randn 3 (1 # 10) 4);
    reflexivity.
Defined.

Lemma Qtrunc_floor_nonneg q : 0 <= q -> Qtrunc q = Qfloor q.
Proof.
  intros H. apply Qtrunc_nonneg. unfold Qle in H. cbn [Qnum Qden] in H. lia.
Qed.

Lemma py_truediv_nonzero a b : ~ b == 0 -> py_truediv a b = Ok (a / b).
Proof.
  intros Hb. unfold py_truediv. destruct (Qeq_bool b 0) eqn:E; [|reflexivity].
  apply Qeq_bool_iff in E. contradiction.
Qed.

Lemma frames_opp_l dt n : forall pos vel : array2,
  Forall2 veq
    (zip_with (fun p v => point_after (- dt) v p n) pos vel)
    (zip_with (fun p v => point_after dt v p n) pos (map vneg vel)).
Proof.
  induction pos as [|p pos IH]; intros [|v vel]; cbn [zip_with map];
    constructor; [apply point_after_opp | apply IH].
Qed.

Lemma point_after_opp_neg dt v p n :
  veq (point_after (- dt) (vneg v) p n) (point_after dt v p n).
Proof.
  induction n as [|n [IH1 IH2]]; [apply veq_refl|].
  change (point_after (- dt) (vneg v) p (S n))
    with (vadd (point_after (- dt) (vneg v) p n) (vscale (- dt) (vneg v))).
  change (point_after dt v p (S n))
    with (vadd (point_after dt v p n) (vscale dt v)).
  unfold veq, vadd, vscale, vneg in *. cbn [fst snd] in *.
  rewrite IH1, IH2. split; ring.
Qed.

Lemma frames_opp_r dt n : forall pos vel : array2,
  Forall2 veq
    (zip_with (fun p v => point_after (- dt) v p n) pos (map vneg vel))
    (zip_with (fun p v => point_after dt v p n) pos vel).
Proof.
  induction pos as [|p pos IH]; intros [|v vel]; cbn [zip_with map];
    constructor; [apply point_after_opp_neg | apply IH].
Qed.

(** X5. Running the integrator with the time step negated exchanges the
    two trajectories: reversing time is reversing the velocities. *)
Theorem negated_time_step_swaps_trajectories rand randn N dt steps st st' :
  integrate rand randn N dt steps = Ok st ->
  integrate rand randn N (- dt) steps = Ok st' ->
  Forall2 (Forall2 veq) (traj_fwd st') (traj_rev st) /\
  Forall2 (Forall2 veq) (traj_rev st') (traj_fwd st).
Proof.
  intros Hi Hi'. apply integrate_Ok in Hi, Hi'.
  destruct Hi as (st0 & H0 & ->). destruct Hi' as (st0' & H0' & ->).
  rewrite H0 in H0'. injection H0' as <-.
  destruct (integrate_frames rand randn N dt steps st0 H0) as (Lf & Lr & Hf).
  destruct (integrate_frames rand randn N (- dt) steps st0 H0)
    as (Lf' & Lr' & Hf').
  destruct (init_state_lengths _ _ _ _ _ H0) as [Lp Lv].
  split; apply Forall2_same_length_lookup_2; try lia; intros t f f' Ht Ht'.
  - pose proof (lookup_lt_Some _ _ _ Ht) as Hlt. rewrite Lf' in Hlt.
    destruct (Hf t Hlt) as [_ Hr]. destruct (Hf' t Hlt) as [Hl' _].
    replace f with (frame_after (- dt) (vel_fwd st0) (pos_fwd st0) (S t))
      by congruence.
    replace f'
      with (frame_after dt (map vneg (vel_fwd st0)) (pos_fwd st0) (S t))
      by congruence.
    rewrite !frame_after_pointwise by (rewrite ?length_map; lia).
    apply frames_opp_l.
  - pose proof (lookup_lt_Some _ _ _ Ht) as Hlt. rewrite Lr' in Hlt.
    destruct (Hf t Hlt) as [Hl _]. destruct (Hf' t Hlt) as [_ Hr'].
    replace f
      with (frame_after (- dt) (map vneg (vel_fwd st0)) (pos_fwd st0) (S t))
      by congruence.
    replace f' with (frame_after dt (vel_fwd st0) (pos_fwd st0) (S t))
      by congruence.
    rewrite !frame_after_pointwise by (rewrite ?length_map; lia).
    apply frames_opp_r.
Qed.

Lemma negated_time_step_swaps_trajectories_witness :
  exists st st',
    integrate sample_rand sample_randn 3 (1 # 10) 4 = Ok st /\
    integrate sample_rand sample_randn 3 (- (1 # 10)) 4 = Ok st' /\
    Forall2 (Forall2 veq) (traj_fwd st') (traj_rev st) /\
    Forall2 (Forall2 veq) (traj_rev st') (traj_fwd st).
Proof.
  eexists _, _. split; [reflexivity|]. split; [reflexivity|].
  apply (negated_time_step_swaps_trajectories
           sample_rand sample_randn 3 (1 # 10) 4); reflexivity.
Defined.

(** ** Entropy: grid sizes that raise, the largest entropy, particle order *)

Local Open Scope R_scope.

Lemma traverse_cons_raise {A B} (f : A -> result B) x xs e :
  f x = Raise e -> traverse f (x :: xs) = Raise e.
Proof. intros H. cbn [traverse]. rewrite H. reflexivity. Qed.

Lemma traverse_cons_Ok {A B} (f : A -> result B) x xs y :
  f x = Ok y ->
  traverse f (x :: xs) = let* ys := traverse f xs in Ok (y :: ys).
Proof. intros H. cbn [traverse]. rewrite H. reflexivity. Qed.

Lemma occupancy_negative cast G frame :
  (G < 0)%Z -> occupancy cast G frame = Raise ValueError.
Proof.
  intros HG. unfold occupancy, np_zeros2.
  destruct (Z.ltb_spec G 0); [reflexivity | lia].
Qed.

Lemma occupancy_zero_nonempty cast p frame :
  occupancy cast 0 (p :: frame) = Raise IndexError.
Proof.
  unfold occupancy, np_zeros2. cbn [Z.ltb Z.compare bind Z.to_nat replicate].
  cbn [map for_each]. unfold grid_incr, cell, cell_index. cbn [fst snd length].
  assert (Hclip : forall z, np_clip z 0 (0 - 1) = (-1)%Z).
  { intros z. unfold np_clip. lia. }
  rewrite Hclip. reflexivity.
Qed.

Lemma entropy_step_zero_empty cast :
  exists e, entropy_step cast 0 [] = Ok e /\ e = 0.
Proof.
  exists (entropy_of_grid []). split; [reflexivity|].
  unfold entropy_of_grid. simpl. apply Ropp_0.
Qed.

(** X6. Grid sizes below 1. On a trajectory with at least one time step
    a negative grid size raises [ValueError] (from [np.zeros]); a grid
    size of 0 raises [IndexError] as soon as some time step has a
    particle; and with no particle at all (or no time step) the function
    returns, one entropy of 0 per time step. *)
Theorem compute_entropy_small_grid_sizes cast traj G :
  ((G < 0)%Z -> traj <> [] ->
   compute_entropy cast traj G = Raise ValueError) /\
  (G = 0%Z -> Exists (fun frame => frame <> []) traj ->
   compute_entropy cast traj G = Raise IndexError) /\
  (traj = [] \/ (G = 0%Z /\ Forall (fun frame => frame = []) traj) ->
   exists es, compute_entropy cast traj G = Ok es /\
              length es = length traj /\ Forall (fun e => e = 0) es).
Proof.
  rewrite compute_entropy_traverse. split; [|split].
  - intros HG Hne. destruct traj as [|frame traj]; [congruence|].
    apply traverse_cons_raise. unfold entropy_step.
    rewrite occupancy_negative by exact HG. reflexivity.
  - intros -> Hex. induction Hex as [frame traj Hne | frame traj _ IH].
    + destruct frame as [|p frame]; [congruence|].
      apply traverse_cons_raise. unfold entropy_step.
      rewrite occupancy_zero_nonempty. reflexivity.
    + destruct frame as [|p frame].
      * destruct (entropy_step_zero_empty cast) as (e & He & _).
        rewrite (traverse_cons_Ok _ _ _ _ He), IH. reflexivity.
      * apply traverse_cons_raise. unfold entropy_step.
        rewrite occupancy_zero_nonempty. reflexivity.
  - intros [-> | [-> Hall]].
    + exists []. repeat split. constructor.
    + induction Hall as [|frame traj -> _ (es & Hes & Hlen & Hz)].
      * exists []. repeat split. constructor.
      * destruct (entropy_step_zero_empty cast) as (e & He & He0).
        rewrite (traverse_cons_Ok _ _ _ _ He), Hes. cbn [bind].
        eexists. split; [reflexivity|]. split; [simpl; lia|].
        constructor; assumption.
Qed.

Lemma compute_entropy_small_grid_sizes_witness :
  compute_entropy cast_x86_64 sample_traj (-3) = Raise ValueError /\
  compute_entropy cast_x86_64 [[]; collapsed_frame] 0 = Raise IndexError /\
  exists es, compute_entropy cast_x86_64 [[]; []] 0 = Ok es /\
             length es = 2%nat /\ Forall (fun e => e = 0) es.
Proof.
  destruct (compute_entropy_small_grid_sizes cast_x86_64 sample_traj (-3))
    as (H1 & _).
  destruct (compute_entropy_small_grid_sizes
              cast_x86_64 [[]; collapsed_frame] 0) as (_ & H2 & _).
  destruct (compute_entropy_small_grid_sizes cast_x86_64 [[]; []] 0)
    as (_ & _ & H3).
  split; [apply H1; [lia | discriminate]|].
  split; [apply H2; [reflexivity | right; left; discriminate]|].
  apply H3. right. split; [reflexivity | repeat constructor].
Defined.

Lemma in_cell_absent cell_of c (frame : array2) :
  c ∉ map cell_of frame -> in_cell cell_of c frame = 0%nat.
Proof.
  unfold in_cell. induction frame as [|p frame IH]; intros Hnot.
  - reflexivity.
  - cbn [map] in Hnot. apply not_elem_of_cons in Hnot.
    destruct Hnot as [Hne Hnot].
    rewrite filter_cons_False by congruence. apply IH, Hnot.
Qed.

Lemma in_cell_NoDup cell_of c (frame : array2) :
  NoDup (map cell_of frame) -> (in_cell cell_of c frame <= 1)%nat.
Proof.
  induction frame as [|p frame IH]; intros Hnd.
  - unfold in_cell. simpl. lia.
  - cbn [map] in Hnd. apply NoDup_cons in Hnd. destruct Hnd as [Hnot Hnd].
    unfold in_cell. rewrite filter_cons.
    destruct (decide (cell_of p = c)) as [<-|Hne].
    + fold (in_cell cell_of (cell_of p) frame) in *.
      cbn [length]. fold (in_cell cell_of (cell_of p) frame).
      rewrite (in_cell_absent _ _ _ Hnot). lia.
    + apply IH, Hnd.
Qed.

(** Every count of a square grid is the count of some cell. *)
Lemma grid_entry n (grid : list (list nat)) x :
  square n grid -> x ∈ mjoin grid ->
  exists i j, (i < n)%nat /\ (j < n)%nat /\ x = (grid !!! i) !!! j.
Proof.
  intros [Hlen Hrows] Hx. apply list_elem_of_join in Hx.
  destruct Hx as (row & Hxr & Hrow).
  apply list_elem_of_lookup in Hrow. destruct Hrow as [i Hi].
  apply list_elem_of_lookup in Hxr. destruct Hxr as [j Hj].
  exists i, j.
  pose proof (lookup_lt_Some _ _ _ Hi) as Hil.
  pose proof (lookup_lt_Some _ _ _ Hj) as Hjl.
  rewrite Forall_forall in Hrows.
  rewrite (Hrows row) in Hjl by (eapply list_elem_of_lookup_2, Hi).
  split; [lia|]. split; [lia|].
  rewrite (list_lookup_total_correct _ _ _ Hi).
  rewrite (list_lookup_total_correct _ _ _ Hj). reflexivity.
Qed.

Lemma filter_pos_ones (l : list nat) :
  Forall (fun c => (c <= 1)%nat) l ->
  filter (fun c => (0 < c)%nat) l = replicate (sum_list l) 1%nat.
Proof.
  induction 1 as [|c l Hc _ IH]; [reflexivity|].
  change (sum_list (c :: l)) with (c + sum_list l)%nat.
  rewrite filter_cons. destruct (decide (0 < c)%nat) as [Hpos|Hz].
  - replace c with 1%nat by lia. cbn [Nat.add replicate]. rewrite IH.
    reflexivity.
  - replace c with 0%nat by lia. exact IH.
Qed.

Lemma Rsum_shannon_ones M k :
  Rsum (shannon_terms M (replicate k 1%nat))
  = INR k * (INR 1 / M * ln (INR 1 / M)).
Proof.
  unfold shannon_terms. induction k as [|k IH].
  - simpl. ring.
  - cbn [replicate map]. rewrite Rsum_cons, IH, (S_INR k). ring.
Qed.

Lemma entropy_all_distinct (grid : list (list nat)) :
  Forall (fun c => (c <= 1)%nat) (mjoin grid) ->
  (0 < sum_list (mjoin grid))%nat ->
  entropy_of_grid grid = ln (INR (sum_list (mjoin grid))).
Proof.
  intros Hle Hpos. unfold entropy_of_grid.
  rewrite (filter_pos_ones _ Hle).
  fold (shannon_terms (INR (sum_list (mjoin grid)))
          (replicate (sum_list (mjoin grid)) 1%nat)).
  rewrite Rsum_shannon_ones.
  set (N := INR (sum_list (mjoin grid))).
  assert (HN : 0 < N) by (apply lt_0_INR; exact Hpos).
  change (INR 1) with 1. unfold Rdiv. rewrite Rmult_1_l, ln_Rinv by exact HN.
  field. lra.
Qed.

Lemma in_cell_Permutation cell_of c (frame frame' : array2) :
  frame ≡ₚ frame' -> in_cell cell_of c frame = in_cell cell_of c frame'.
Proof.
  intros H. unfold in_cell. apply Permutation_length.
  apply filter_Permutation, H.
Qed.

Lemma square_ext n (g g' : list (list nat)) :
  square n g -> square n g' ->
  (forall i j, (i < n)%nat -> (j < n)%nat ->
               (g !!! i) !!! j = (g' !!! i) !!! j) ->
  g = g'.
Proof.
  intros [Hl Hr] [Hl' Hr'] Heq.
  apply (list_eq_same_length g g' n Hl' Hl). intros i row row' Hi Hrow Hrow'.
  rewrite Forall_forall in Hr, Hr'.
  assert (Lr : length row = n)
    by (apply Hr; eapply list_elem_of_lookup_2, Hrow).
  assert (Lr' : length row' = n)
    by (apply Hr'; eapply list_elem_of_lookup_2, Hrow').
  apply (list_eq_same_length row row' n Lr' Lr). intros j x y Hj Hx Hy.
  specialize (Heq i j Hi Hj).
  rewrite (list_lookup_total_correct _ _ _ Hrow) in Heq.
  rewrite (list_lookup_total_correct _ _ _ Hrow') in Heq.
  rewrite (list_lookup_total_correct _ _ _ Hx) in Heq.
  rewrite (list_lookup_total_correct _ _ _ Hy) in Heq. exact Heq.
Qed.

Lemma occupancy_Permutation cast G (frame frame' : array2) :
  frame ≡ₚ frame' -> occupancy cast G frame = occupancy cast G frame'.
Proof.
  intros Hperm. destruct (Z.lt_ge_cases G 1) as [Hsmall|HG].
  - destruct (Z.lt_ge_cases G 0) as [Hneg|Hnn].
    + rewrite !occupancy_negative by exact Hneg. reflexivity.
    + replace G with 0%Z by lia.
      destruct frame as [|p frame].
      * apply Permutation_nil_l in Hperm. subst frame'. reflexivity.
      * destruct frame' as [|p' frame'].
        -- apply Permutation_nil_r in Hperm. discriminate.
        -- rewrite !occupancy_zero_nonempty. reflexivity.
  - destruct (occupancy_counts cast G frame) as (g & Hg & Hc); [lia|].
    destruct (occupancy_counts cast G frame') as (g' & Hg' & Hc'); [lia|].
    rewrite Hg, Hg'. f_equal.
    apply (square_ext (Z.to_nat G)).
    + apply (occupancy_Ok _ _ _ _ Hg).
    + apply (occupancy_Ok _ _ _ _ Hg').
    + intros i j Hi Hj. rewrite Hc, Hc' by assumption.
      apply in_cell_Permutation, Hperm.
Qed.

(** X8. The entropy does not depend on the order of the particles:
    trajectories whose frames are permutations of each other give the
    same result, whether values or an exception. *)
Theorem compute_entropy_particle_order cast traj traj' G :
  Forall2 (fun frame frame' => frame ≡ₚ frame') traj traj' ->
  compute_entropy cast traj G = compute_entropy cast traj' G.
Proof.
  intros Hperm. rewrite !compute_entropy_traverse.
  induction Hperm as [|frame frame' traj traj' Hp _ IH]; [reflexivity|].
  cbn [traverse]. unfold entropy_step at 1 3.
  rewrite (occupancy_Permutation cast G frame frame' Hp), IH. reflexivity.
Qed.

Lemma compute_entropy_particle_order_witness :
  compute_entropy cast_x86_64
    [[(1 # 2, 3); (5 # 2, 7); (- (4), 123 # 10)]%Q] 10
  = compute_entropy cast_x86_64
      [[(- (4), 123 # 10); (1 # 2, 3); (5 # 2, 7)]%Q] 10.
Proof.
  apply compute_entropy_particle_order.
  constructor; [|constructor].
  symmetry. apply (Permutation_cons_append [(1 # 2, 3); (5 # 2, 7)]%Q).
Defined.

(** ** Binning: the cell of a position *)

Local Open Scope Q_scope.









(** ** Chaos indicator: lower bound, translations *)

Local Open Scope R_scope.









Lemma for_each_map {A B S} (g : A -> B) xs (body : S -> B -> result S) :
  forall s, for_each (map g xs) body s
            = for_each xs (fun s x => body s (g x)) s.
Proof.
  induction xs as [|x xs IH]; intros s; cbn [map for_each]; [reflexivity|].
  destruct (body s (g x)); cbn [bind]; auto.
Qed.

Lemma particle_map f (frame : array2) i :
  particle (map f frame) i = let* p := particle frame i in Ok (f p).
Proof.
  unfold particle. rewrite list_lookup_fmap.
  destruct (frame !! i); reflexivity.
Qed.

Lemma euclidean_translate c u v :
  euclidean (vadd u c) (vadd v c) = euclidean u v.
Proof.
  unfold euclidean, vadd. cbn [fst snd]. f_equal. apply Qeq_eqR. ring.
Qed.

Lemma pair_loop_translate N c frame :
  pair_loop N (map (fun p => vadd p c) frame) = pair_loop N frame.
Proof.
  unfold pair_loop. apply for_each_ext. intros tc i.
  apply for_each_ext. intros tc' j. rewrite !particle_map.
  destruct (particle frame i) as [a|]; cbn [bind]; [|reflexivity].
  destruct (particle frame j) as [b|]; cbn [bind]; [|reflexivity].
  rewrite euclidean_translate. reflexivity.
Qed.

(** X12. Moving every particle by the same vector changes nothing: the
    chaos computation gives the same result, values or exception, on the
    translated trajectory. *)
Theorem chaos_translation_invariant N c traj :
  avg_pairwise_dist N (translate c traj) = avg_pairwise_dist N traj.
Proof.
  unfold avg_pairwise_dist, translate. rewrite for_each_map.
  f_equal. apply for_each_ext. intros dists frame.
  rewrite pair_loop_translate. reflexivity.
Qed.

(** ** The classical part as a whole *)




(** ** The wave evolver: errors, identity, composition *)

Lemma fft_empty : fft [] = Raise ValueError.
Proof. reflexivity. Qed.

Lemma np_multiply_mismatch (a b : list C) :
  length a <> length b -> length a <> 1%nat -> length b <> 1%nat ->
  np_multiply a b = Raise ValueError.
Proof.
  intros Hab Ha Hb. unfold np_multiply.
  destruct (Nat.eqb_spec (length a) (length b)) as [E|_]; [contradiction|].
  destruct a as [|z [|z' a]]; destruct b as [|w [|w' b]];
    simpl in *; try reflexivity; congruence.
Qed.

(** X14. [evolve] raises [ValueError] on an empty packet, and on a
    wavenumber grid whose length differs from the packet's when neither
    length is 1 (the arrays do not broadcast); on a non-empty packet with
    a grid of the same length it returns an array of that length. *)
Theorem evolve_shape_and_errors psi k t m :
  (psi = [] -> evolve psi k t m = Raise ValueError) /\
  (psi <> [] -> length k = length psi ->
   exists out, evolve psi k t m = Ok out /\ length out = length psi) /\
  (psi <> [] -> length k <> length psi ->
   length k <> 1%nat -> length psi <> 1%nat ->
   evolve psi k t m = Raise ValueError).
Proof.
  split; [|split].
  - intros ->. reflexivity.
  - intros Hne Hlen. rewrite (evolve_Ok psi k t m Hne Hlen).
    eexists. split; [reflexivity|].
    rewrite length_inverse_spectrum, length_zip_with, length_spectrum,
      length_phases. lia.
  - intros Hne Hlen Hk Hpsi. unfold evolve.
    rewrite (fft_spectrum psi Hne). cbn [bind].
    rewrite np_multiply_mismatch; [reflexivity | | |];
      rewrite ?length_spectrum, ?length_map; congruence.
Qed.

Lemma evolve_shape_and_errors_witness :
  evolve [] sample_k 1 m_default = Raise ValueError /\
  (exists out, evolve sample_psi sample_k 1 m_default = Ok out /\
               length out = length sample_psi) /\
  evolve sample_psi [0; 1] 1 m_default = Raise ValueError.
Proof.
  destruct (evolve_shape_and_errors [] sample_k 1 m_default) as (H1 & _).
  destruct (evolve_shape_and_errors sample_psi sample_k 1 m_default)
    as (_ & H2 & _).
  destruct (evolve_shape_and_errors sample_psi [0; 1] 1 m_default)
    as (_ & _ & H3).
  split; [apply H1; reflexivity|].
  split; [apply H2; [discriminate | reflexivity]|].
  apply H3; simpl; (discriminate || lia).
Defined.

Lemma phase_zero E : phase 0 E = Cone.
Proof.
  rewrite phase_cis.
  replace (- (E * 0 * (hbar / (hbar ^ 2 + 0 ^ 2)))) with 0 by ring.
  apply cis_0.
Qed.

Lemma phase_plus t1 t2 E :
  phase (t1 + t2) E = Cmult (phase t1 E) (phase t2 E).
Proof.
  rewrite !phase_cis, <- cis_plus. f_equal. ring.
Qed.

Lemma zip_phases_zero k m : forall F : list C,
  length k = length F -> zip_with Cmult F (phases k 0 m) = F.
Proof.
  unfold phases. induction k as [|kk k IH]; intros [|z F] Hlen;
    try discriminate; [reflexivity|].
  cbn [map zip_with]. rewrite IH by (simpl in Hlen; lia).
  f_equal. rewrite phase_zero. ring.
Qed.

Lemma zip_phases_plus k t1 t2 m : forall F : list C,
  zip_with Cmult (zip_with Cmult F (phases k t1 m)) (phases k t2 m)
  = zip_with Cmult F (phases k (t1 + t2) m).
Proof.
  unfold phases. induction k as [|kk k IH]; intros [|z F];
    cbn [map zip_with]; try reflexivity.
  rewrite IH. f_equal. rewrite phase_plus. ring.
Qed.

(** X15. Evolving by a time of 0 returns the packet unchanged. *)
Theorem evolve_zero_time psi k m :
  psi <> [] -> length k = length psi -> m <> 0 ->
  evolve psi k 0 m = Ok psi.
Proof.
  intros Hne Hlen _. rewrite (evolve_Ok psi k 0 m Hne Hlen).
  rewrite zip_phases_zero by (rewrite length_spectrum; exact Hlen).
  rewrite inverse_spectrum_spectrum. reflexivity.
Qed.

Lemma evolve_zero_time_witness :
  evolve sample_psi sample_k 0 m_default = Ok sample_psi.
Proof.
  apply (evolve_zero_time sample_psi sample_k m_default);
    [discriminate | reflexivity | unfold m_default; lra].
Defined.

(** X16. Evolutions compose: evolving by [t1] and the result by [t2] is
    evolving by [t1 + t2]. *)
Theorem evolve_composes psi k t1 t2 m :
  psi <> [] -> length k = length psi -> m <> 0 ->
  exists psi1,
    evolve psi k t1 m = Ok psi1 /\
    evolve psi1 k t2 m = evolve psi k (t1 + t2) m.
Proof.
  intros Hne Hlen _. eexists. split; [apply evolve_Ok; assumption|].
  set (G := zip_with Cmult (spectrum psi) (phases k t1 m)).
  assert (HG : length G = length psi).
  { unfold G. rewrite length_zip_with, length_spectrum, length_phases. lia. }
  rewrite (evolve_Ok psi k (t1 + t2) m Hne Hlen). rewrite evolve_Ok.
  - rewrite spectrum_inverse_spectrum. unfold G.
    rewrite zip_phases_plus. reflexivity.
  - apply nonempty_length. rewrite length_inverse_spectrum, HG.
    apply nonempty_length, Hne.
  - rewrite length_inverse_spectrum, HG. exact Hlen.
Qed.

Lemma evolve_composes_witness :
  exists psi1,
    evolve sample_psi sample_k (5 / 2) m_default = Ok psi1 /\
    evolve psi1 sample_k (- 4) m_default
    = evolve sample_psi sample_k (5 / 2 + - 4) m_default.
Proof.
  apply (evolve_composes sample_psi sample_k (5 / 2) (- 4) m_default);
    [discriminate | reflexivity | unfold m_default; lra].
Defined.

(** ** The wave evolver on index functions; superposition *)

Lemma at_index_zip_with (f : C -> C -> C) : forall (a b : list C) j,
  (j < length a)%nat -> (j < length b)%nat ->
  at_index (zip_with f a b) j = f (at_index a j) (at_index b j).
Proof.
  unfold at_index.
  induction a as [|x a IH]; intros [|y b] [|j] Ha Hb; simpl in *;
    try lia; [reflexivity|]. apply IH; lia.
Qed.

Lemma at_index_map (f : C -> C) (l : list C) j :
  (j < length l)%nat -> at_index (map f l) j = f (at_index l j).
Proof.
  unfold at_index. revert j.
  induction l as [|x l IH]; intros [|j] H; simpl in *; try lia;
    [reflexivity|]. apply IH. lia.
Qed.

Lemma at_index_phases k t m j :
  (j < length k)%nat ->
  at_index (phases k t m) j = phase t (energy m (nth j k 0)).
Proof.
  unfold at_index, phases. revert j.
  induction k as [|kk k IH]; intros [|j] H; simpl in *; try lia;
    [reflexivity|]. apply IH. lia.
Qed.

Lemma evolve_index psi k t m :
  psi <> [] -> length k = length psi ->
  evolve psi k t m
  = Ok (map (evolve_at (at_index psi) (fun j => nth j k 0)
                       (length psi) t m)
            (seq 0 (length psi))).
Proof.
  intros Hne Hlen. rewrite (evolve_Ok psi k t m Hne Hlen). f_equal.
  unfold inverse_spectrum.
  rewrite length_zip_with, length_spectrum, length_phases, Hlen, Nat.min_id.
  apply map_seq_ext. intros n Hn. unfold evolve_at. apply idft_ext.
  intros j Hj.
  rewrite at_index_zip_with
    by (rewrite ?length_spectrum, ?length_phases; lia).
  rewrite at_index_phases by lia. f_equal.
  unfold at_index at 1, spectrum. apply nth_map_seq, Hj.
Qed.

Lemma dft_linear a b x y N k :
  dft (fun n => Cplus (Cmult a (x n)) (Cmult b (y n))) N k
  = Cplus (Cmult a (dft x N k)) (Cmult b (dft y N k)).
Proof.
  unfold dft. rewrite !Csum_scale, <- Csum_plus. apply Csum_ext.
  intros n _. ring.
Qed.

Lemma idft_linear a b x y N n :
  idft (fun j => Cplus (Cmult a (x j)) (Cmult b (y j))) N n
  = Cplus (Cmult a (idft x N n)) (Cmult b (idft y N n)).
Proof.
  unfold idft.
  rewrite (Csum_ext _
    (fun k => Cplus
       (Cmult a (Cmult (x k) (cis (2 * PI * INR k * INR n / INR N))))
       (Cmult b (Cmult (y k) (cis (2 * PI * INR k * INR n / INR N))))))
    by (intros; ring).
  rewrite Csum_plus, <- !Csum_scale.
  set (S1 := Csum _ N). set (S2 := Csum _ N). clearbody S1 S2. ring.
Qed.

Lemma evolve_at_linear a b x y kk N t m n :
  evolve_at (fun i => Cplus (Cmult a (x i)) (Cmult b (y i))) kk N t m n
  = Cplus (Cmult a (evolve_at x kk N t m n))
          (Cmult b (evolve_at y kk N t m n)).
Proof.
  unfold evolve_at. rewrite <- idft_linear. apply idft_ext. intros j _.
  rewrite dft_linear.
  set (X := dft x N j). set (Y := dft y N j). clearbody X Y. ring.
Qed.

Lemma evolve_at_ext x x' kk N t m n :
  (forall i, (i < N)%nat -> x i = x' i) ->
  evolve_at x kk N t m n = evolve_at x' kk N t m n.
Proof.
  intros H. unfold evolve_at. apply idft_ext. intros j _.
  rewrite (dft_ext x x' N j H). reflexivity.
Qed.

Lemma linear_combination_maps a b (f g : nat -> C) (s : list nat) :
  linear_combination a b (map f s) (map g s)
  = map (fun n => Cplus (Cmult a (f n)) (Cmult b (g n))) s.
Proof.
  unfold linear_combination. induction s as [|i s IH]; [reflexivity|].
  cbn [map zip_with]. rewrite <- IH. reflexivity.
Qed.

Lemma length_linear_combination a b psi phi :
  length phi = length psi ->
  length (linear_combination a b psi phi) = length psi.
Proof.
  intros H. unfold linear_combination.
  rewrite length_zip_with, !length_map. lia.
Qed.

(** X17. Superposition: [evolve] is linear, the evolution of
    [a * psi + b * phi] is [a] times the evolution of [psi] plus [b]
    times the evolution of [phi]. *)
Theorem evolve_linear a b psi phi k t m :
  psi <> [] -> length phi = length psi -> length k = length psi ->
  m <> 0 ->
  exists e1 e2,
    evolve psi k t m = Ok e1 /\ evolve phi k t m = Ok e2 /\
    evolve (linear_combination a b psi phi) k t m
    = Ok (linear_combination a b e1 e2).
Proof.
  intros Hne Hphi Hlen _.
  assert (Hne2 : phi <> []).
  { apply nonempty_length. rewrite Hphi. apply nonempty_length, Hne. }
  assert (HL := length_linear_combination a b psi phi Hphi).
  assert (Hne3 : linear_combination a b psi phi <> []).
  { apply nonempty_length. rewrite HL. apply nonempty_length, Hne. }
  eexists _, _. split; [apply evolve_index; assumption|].
  split; [apply evolve_index; congruence|].
  rewrite evolve_index by congruence. f_equal.
  rewrite HL, Hphi, linear_combination_maps. apply map_seq_ext.
  intros n Hn. rewrite <- evolve_at_linear. apply evolve_at_ext.
  intros i Hi. unfold linear_combination.
  rewrite at_index_zip_with by (rewrite length_map; lia).
  rewrite !at_index_map by lia. reflexivity.
Qed.

Lemma evolve_linear_witness :
  exists e1 e2,
    evolve sample_psi sample_k 3 m_default = Ok e1 /\
    evolve [(0, 1); (1, 1); (2, 0); (0, 0)] sample_k 3 m_default = Ok e2 /\
    evolve (linear_combination (2, -1) Ci sample_psi
                               [(0, 1); (1, 1); (2, 0); (0, 0)])
           sample_k 3 m_default
    = Ok (linear_combination (2, -1) Ci e1 e2).
Proof.
  apply (evolve_linear (2, -1) Ci sample_psi
           [(0, 1); (1, 1); (2, 0); (0, 0)] sample_k 3 m_default);
    [discriminate | reflexivity | reflexivity | unfold m_default; lra].
Defined.

(** ** Time reversal as complex conjugation *)

Lemma Csum_shift f M :
  Csum f (S M) = Cplus (f 0%nat) (Csum (fun i => f (S i)) M).
Proof.
  induction M as [|M IH].
  - cbn [Csum]. ring.
  - change (Csum f (S (S M))) with (Cplus (Csum f (S M)) (f (S M))).
    rewrite IH. cbn [Csum].
    set (S1 := Csum _ M). clearbody S1. ring.
Qed.

Lemma Csum_reverse h M :
  Csum (fun i => h (M - 1 - i)%nat) M = Csum h M.
Proof.
  induction M as [|M IH]; [reflexivity|].
  rewrite Csum_shift.
  rewrite (Csum_ext _ (fun i => h (M - 1 - i)%nat))
    by (intros i Hi; f_equal; lia).
  rewrite IH. cbn [Csum]. replace (S M - 1 - 0)%nat with M by lia.
  set (S1 := Csum h M). clearbody S1. ring.
Qed.

Lemma reflect_0 N : reflect N 0 = 0%nat.
Proof.
  unfold reflect. rewrite Nat.sub_0_r. destruct N; [reflexivity|].
  apply Nat.Div0.mod_same.
Qed.

Lemma reflect_pos N j : (0 < j < N)%nat -> reflect N j = (N - j)%nat.
Proof. intros H. unfold reflect. apply Nat.mod_small. lia. Qed.

Lemma reflect_lt N j : (j < N)%nat -> (reflect N j < N)%nat.
Proof. intros H. unfold reflect. apply Nat.mod_upper_bound. lia. Qed.

(** Summing over the opposite frequencies is summing over all of them. *)
Lemma Csum_reflect g N : Csum (fun j => g (reflect N j)) N = Csum g N.
Proof.
  destruct N as [|M]; [reflexivity|].
  rewrite !Csum_shift, reflect_0. f_equal.
  rewrite (Csum_ext _ (fun i => g (S (M - 1 - i)))).
  - apply (Csum_reverse (fun i => g (S i))).
  - intros i Hi. rewrite reflect_pos by lia. f_equal. lia.
Qed.

Lemma cis_reflect N j n :
  (j < N)%nat ->
  cis (2 * PI * INR (reflect N j) * INR n / INR N)
  = cis (- (2 * PI * INR j * INR n / INR N)).
Proof.
  intros Hj. assert (HN : INR N <> 0) by (apply not_0_INR; lia).
  destruct j as [|j].
  - rewrite reflect_0. f_equal. simpl. field. exact HN.
  - rewrite reflect_pos, minus_INR by lia.
    replace (2 * PI * (INR N - INR (S j)) * INR n / INR N)
      with (2 * PI * INR n + - (2 * PI * INR (S j) * INR n / INR N))
      by (field; exact HN).
    rewrite cis_plus, cis_2PI_nat. ring.
Qed.

Lemma Cconj_RtoC r : Cconj (RtoC r) = RtoC r.
Proof. Csolve. Qed.

Lemma Cconj_cis_pos a : Cconj (cis a) = cis (- a).
Proof. symmetry. apply cis_opp. Qed.

Lemma dft_conj x N j :
  (j < N)%nat ->
  Cconj (dft x N j) = dft (fun n => Cconj (x n)) N (reflect N j).
Proof.
  intros Hj. unfold dft. rewrite Csum_conj. apply Csum_ext. intros n _.
  rewrite Cconj_mult, Cconj_cis.
  rewrite (cis_opp (2 * PI * INR (reflect N j) * INR n / INR N)).
  rewrite cis_reflect by exact Hj. rewrite Cconj_cis. reflexivity.
Qed.

Lemma energy_sq m a b : a ^ 2 = b ^ 2 -> energy m a = energy m b.
Proof. intros H. unfold energy. rewrite H. reflexivity. Qed.

Lemma phase_conj t E : Cconj (phase (- t) E) = phase t E.
Proof.
  rewrite !phase_cis, Cconj_cis. f_equal. ring.
Qed.

Lemma evolve_at_conj x kk N t m n :
  (forall j, (j < N)%nat -> energy m (kk (reflect N j)) = energy m (kk j)) ->
  Cconj (evolve_at x kk N (- t) m n)
  = evolve_at (fun i => Cconj (x i)) kk N t m n.
Proof.
  intros Hsym. unfold evolve_at, idft.
  rewrite Cconj_mult, Cconj_RtoC. f_equal. rewrite Csum_conj.
  rewrite <- (Csum_reflect
    (fun k => Cmult (Cmult (dft (fun i => Cconj (x i)) N k)
                           (phase t (energy m (kk k))))
                    (cis (2 * PI * INR k * INR n / INR N)))).
  apply Csum_ext. intros j Hj.
  rewrite !Cconj_mult, (dft_conj x N j Hj), phase_conj, Cconj_cis_pos.
  rewrite (cis_reflect N j n Hj), (Hsym j Hj). reflexivity.
Qed.

Lemma symmetric_grid_energy k m j :
  symmetric_grid k -> (j < length k)%nat ->
  energy m (nth (reflect (length k) j) k 0) = energy m (nth j k 0).
Proof. intros Hs Hj. apply energy_sq, Hs, Hj. Qed.

Lemma evolve_conj_list psi k t m :
  psi <> [] -> length k = length psi -> symmetric_grid k ->
  map (evolve_at (at_index (map Cconj psi)) (fun j => nth j k 0)
                 (length psi) t m)
      (seq 0 (length psi))
  = map Cconj
        (map (evolve_at (at_index psi) (fun j => nth j k 0)
                        (length psi) (- t) m)
             (seq 0 (length psi))).
Proof.
  intros Hne Hlen Hsym. rewrite map_map. apply map_seq_ext. intros n Hn.
  rewrite evolve_at_conj.
  - apply evolve_at_ext. intros i Hi. apply at_index_map, Hi.
  - intros j Hj. rewrite <- Hlen in *.
    apply (symmetric_grid_energy k m j Hsym Hj).
Qed.

(** X18. Time reversal is complex conjugation: on a wavenumber grid whose
    opposite frequencies have the same squared wavenumber, evolving the
    conjugate packet by [t] gives the conjugate of the packet evolved by
    [-t]. *)
Theorem evolve_conjugate_time_reversal psi k t m :
  psi <> [] -> length k = length psi -> m <> 0 -> symmetric_grid k ->
  exists e,
    evolve psi k (- t) m = Ok e /\
    evolve (map Cconj psi) k t m = Ok (map Cconj e).
Proof.
  intros Hne Hlen _ Hsym. eexists. split; [apply evolve_index; assumption|].
  rewrite evolve_index.
  - rewrite length_map. f_equal. apply evolve_conj_list; assumption.
  - apply nonempty_length. rewrite length_map. apply nonempty_length, Hne.
  - rewrite length_map. exact Hlen.
Qed.

Lemma sample_k_symmetric : symmetric_grid sample_k.
Proof.
  intros j Hj. unfold sample_k in *. cbn [length] in *.
  destruct j as [|[|[|[|j]]]]; try lia; cbn; ring.
Qed.

Lemma evolve_conjugate_time_reversal_witness :
  exists e,
    evolve sample_psi sample_k (- 3) m_default = Ok e /\
    evolve (map Cconj sample_psi) sample_k 3 m_default = Ok (map Cconj e).
Proof.
  apply (evolve_conjugate_time_reversal sample_psi sample_k 3 m_default);
    [discriminate | reflexivity | unfold m_default; lra
    | exact sample_k_symmetric].
Defined.

Lemma Cabs_conj z : Cabs (Cconj z) = Cabs z.
Proof. unfold Cabs, Cconj. cbn [fst snd]. f_equal. ring. Qed.

Lemma density_conj e : density (map Cconj e) = density e.
Proof.
  unfold density. rewrite map_map. apply map_ext. intros z.
  rewrite Cabs_conj. reflexivity.
Qed.

Lemma real_conj psi :
  Forall (fun z : C => snd z = 0) psi -> map Cconj psi = psi.
Proof.
  induction 1 as [|z psi Hz _ IH]; [reflexivity|].
  cbn [map]. rewrite IH. f_equal. destruct z as [a b]. cbn [snd] in Hz.
  subst b. unfold Cconj. cbn [fst snd]. f_equal. ring.
Qed.

(** X19. For a real-valued packet on such a grid the probability
    densities at [+t] and [-t] are the same: the comparison the script
    plots is an identity exactly when the initial packet is real. *)
Theorem real_packet_density_symmetric psi k t m :
  psi <> [] -> length k = length psi -> m <> 0 -> symmetric_grid k ->
  Forall (fun z : C => snd z = 0) psi ->
  exists e e',
    evolve psi k t m = Ok e /\ evolve psi k (- t) m = Ok e' /\
    density e = density e'.
Proof.
  intros Hne Hlen _ Hsym Hreal.
  exists (map Cconj
            (map (evolve_at (at_index psi) (fun j => nth j k 0)
                            (length psi) (- t) m)
                 (seq 0 (length psi)))).
  eexists. split; [|split; [apply evolve_index; assumption|]].
  - rewrite <- (evolve_conj_list psi k t m Hne Hlen Hsym).
    rewrite (real_conj psi Hreal). apply evolve_index; assumption.
  - apply density_conj.
Qed.

Lemma real_packet_density_symmetric_witness :
  exists e e',
    evolve [(1, 0); (3, 0); (-2, 0); (0, 0)] sample_k 3 m_default = Ok e /\
    evolve [(1, 0); (3, 0); (-2, 0); (0, 0)] sample_k (- 3) m_default
    = Ok e' /\
    density e = density e'.
Proof.
  apply (real_packet_density_symmetric
           [(1, 0); (3, 0); (-2, 0); (0, 0)] sample_k 3 m_default);
    [discriminate | reflexivity | unfold m_default; lra
    | exact sample_k_symmetric | repeat constructor].
Defined.

(** ** The position and wavenumber grids *)

Example linspace_three :
  exists a b c,
    np_linspace (-1) 1 3 = Ok [a; b; c] /\ a = -1 /\ b = 0 /\ c = 1.
Proof.
  eexists _, _, _. split; [reflexivity|]. simpl. repeat split; lra.
Qed.

Example fftfreq_indices :
  map (freq_index 5) (seq 0 5) = [0; 1; 2; -2; -1]%Z /\
  map (freq_index 4) (seq 0 4) = [0; 1; -2; -1]%Z.
Proof. split; reflexivity. Qed.

Example wave_grid_one_point_raises :
  wave_grid (-10) 10 1 = Raise IndexError /\
  wave_grid (-10) 10 (-1) = Raise ValueError.
Proof. split; reflexivity. Qed.

Lemma length_fftfreq n d : (1 <= n)%nat -> length (fftfreq n d) = n.
Proof.
  intros Hn. unfold fftfreq.
  rewrite length_map, length_app, !length_map, !length_seq.
  apply Nat2Z.inj. rewrite Nat2Z.inj_add, Z2Nat.id, Nat2Z.inj_div.
  - change (Z.of_nat 2) with 2%Z. Z.div_mod_to_equations. lia.
  - assert (0 <= (Z.of_nat n - 1) / 2)%Z by (apply Z.div_pos; lia). lia.
Qed.

Lemma item_Ok x i v : x !! i = Some v -> item x i = Ok v.
Proof. intros H. unfold item. rewrite H. reflexivity. Qed.

(** The samples of [np.linspace] for at least two of them. *)
Lemma np_linspace_samples start stop num :
  (2 <= num)%Z ->
  exists xs,
    np_linspace start stop num = Ok xs /\
    length xs = Z.to_nat num /\
    last xs = Some stop /\
    forall i, (i < Z.to_nat num)%nat ->
      xs !! i
      = Some (if decide (i = Z.to_nat num - 1)%nat then stop
              else INR i * ((stop - start) / INR (Z.to_nat num - 1)) + start)
      /\
      (if decide (i = Z.to_nat num - 1)%nat then stop
       else INR i * ((stop - start) / INR (Z.to_nat num - 1)) + start)
      = start + INR i * ((stop - start) / INR (Z.to_nat num - 1)).
Proof.
  intros Hnum. unfold np_linspace.
  destruct (Z.ltb_spec num 0); [lia|].
  destruct (Z.ltb_spec 1 num); [|lia].
  set (n := Z.to_nat num). assert (Hn : (2 <= n)%nat) by (unfold n; lia).
  destruct (Nat.ltb_spec 0 (n - 1)); [|lia].
  set (f := fun i : nat => INR i * ((stop - start) / INR (n - 1)) + start).
  assert (Hlen : length (map f (seq 0 n)) = n)
    by (rewrite length_map, length_seq; reflexivity).
  eexists. split; [reflexivity|].
  split; [rewrite length_insert; exact Hlen|]. split.
  - rewrite last_lookup, length_insert, Hlen.
    replace (Nat.pred n) with (n - 1)%nat by lia.
    apply list_lookup_insert_eq. lia.
  - intros i Hi. split.
    + rewrite list_lookup_insert by lia.
      destruct (decide (i = n - 1)%nat) as [->|Hne].
      * rewrite decide_True by (split; [reflexivity | lia]). reflexivity.
      * rewrite decide_False by (intros [E _]; lia).
        rewrite list_lookup_fmap, lookup_seq_lt by exact Hi. reflexivity.
    + destruct (decide (i = n - 1)%nat) as [->|Hne]; [|ring].
      assert (INR (n - 1) <> 0) by (apply not_0_INR; lia).
      field. assumption.
Qed.



Lemma fftfreq_split n :
  (1 <= n)%nat ->
  (Z.to_nat ((Z.of_nat n - 1) / 2 + 1) + n / 2 = n)%nat /\
  (1 <= Z.to_nat ((Z.of_nat n - 1) / 2 + 1))%nat.
Proof.
  intros Hn.
  assert (H0 : (0 <= (Z.of_nat n - 1) / 2)%Z) by (apply Z.div_pos; lia).
  split; [|lia].
  apply Nat2Z.inj. rewrite Nat2Z.inj_add, Z2Nat.id, Nat2Z.inj_div by lia.
  change (Z.of_nat 2) with 2%Z. Z.div_mod_to_equations. lia.
Qed.

Lemma fftfreq_integers n j :
  (j < n)%nat ->
  nth j (map Z.of_nat (seq 0 (Z.to_nat ((Z.of_nat n - 1) / 2 + 1)))
         ++ map (fun i => (Z.of_nat i - Z.of_nat (n / 2))%Z)
                (seq 0 (n / 2)))
      0%Z
  = freq_index n j.
Proof.
  intros Hj. destruct (fftfreq_split n) as [Hsplit HN]; [lia|].
  set (N := Z.to_nat ((Z.of_nat n - 1) / 2 + 1)) in *.
  assert (HNz : Z.of_nat N = ((Z.of_nat n - 1) / 2 + 1)%Z).
  { unfold N. apply Z2Nat.id.
    assert (0 <= (Z.of_nat n - 1) / 2)%Z by (apply Z.div_pos; lia). lia. }
  unfold freq_index. rewrite <- HNz.
  destruct (Z.ltb_spec (Z.of_nat j) (Z.of_nat N)) as [Hlt|Hge].
  - rewrite app_nth1 by (rewrite length_map, length_seq; lia).
    change 0%Z with (Z.of_nat 0). rewrite map_nth, seq_nth by lia.
    reflexivity.
  - rewrite app_nth2 by (rewrite length_map, length_seq; lia).
    rewrite length_map, length_seq.
    rewrite (nth_indep _ 0%Z (Z.of_nat 0 - Z.of_nat (n / 2))%Z)
      by (rewrite length_map, length_seq; lia).
    rewrite (map_nth (fun i => (Z.of_nat i - Z.of_nat (n / 2))%Z)).
    rewrite seq_nth by lia. lia.
Qed.

Lemma fftfreq_nth n d j :
  (j < n)%nat ->
  nth j (fftfreq n d) 0 = IZR (freq_index n j) * (1 / (INR n * d)).
Proof.
  intros Hj. unfold fftfreq.
  set (val := 1 / (INR n * d)). set (l := _ ++ _).
  assert (Hl : length l = n).
  { unfold l. rewrite length_app, !length_map, !length_seq.
    apply fftfreq_split. lia. }
  rewrite (nth_indep _ 0 (IZR 0 * val)) by (rewrite length_map; lia).
  rewrite (map_nth (fun i => IZR i * val)). unfold l.
  rewrite fftfreq_integers by exact Hj. reflexivity.
Qed.

(** Opposite frequencies have opposite indices, except the middle one of
    an even length, which is its own opposite. *)
Lemma freq_index_reflect n j :
  (j < n)%nat ->
  freq_index n (reflect n j) = (- freq_index n j)%Z \/
  (2 * j = n)%nat /\ freq_index n (reflect n j) = freq_index n j.
Proof.
  intros Hj. destruct j as [|j].
  - left. rewrite reflect_0. unfold freq_index.
    destruct (Z.ltb_spec (Z.of_nat 0) ((Z.of_nat n - 1) / 2 + 1));
      [reflexivity|].
    assert (0 <= (Z.of_nat n - 1) / 2)%Z by (apply Z.div_pos; lia). lia.
  - rewrite reflect_pos by lia. unfold freq_index.
    rewrite Nat2Z.inj_sub by lia.
    destruct (Z.ltb_spec (Z.of_nat n - Z.of_nat (S j))
                         ((Z.of_nat n - 1) / 2 + 1)) as [H1|H1];
      destruct (Z.ltb_spec (Z.of_nat (S j))
                           ((Z.of_nat n - 1) / 2 + 1)) as [H2|H2];
      revert H1 H2; Z.div_mod_to_equations; intros;
      first [left; lia | right; split; lia].
Qed.

Lemma freq_index_reflect_sq n j :
  (j < n)%nat ->
  IZR (freq_index n (reflect n j)) ^ 2 = IZR (freq_index n j) ^ 2.
Proof.
  intros Hj. destruct (freq_index_reflect n j Hj) as [-> | [_ ->]].
  - rewrite opp_IZR. ring.
  - reflexivity.
Qed.

(** X21. The wavenumber grid: entry [j] of [fftfreq(n, d) * 2 * pi] is
    [2 * pi * f / (n * d)] for the signed index [f] of [j] ([j] itself in
    the first half, [j - n] in the second); opposite frequencies have
    opposite indices, except the middle one of an even length, so the
    grid is symmetric as the time-reversal property needs. *)
Theorem fftfreq_wavenumbers n d :
  (1 <= n)%nat -> d <> 0 ->
  let k_vals := map (fun f => f * 2 * PI) (fftfreq n d) in
  length k_vals = n /\
  (forall j, (j < n)%nat ->
     nth j k_vals 0 = 2 * PI * IZR (freq_index n j) / (INR n * d) /\
     (freq_index n (reflect n j) = (- freq_index n j)%Z \/
      (2 * j = n)%nat /\ freq_index n (reflect n j) = freq_index n j)) /\
  symmetric_grid k_vals.
Proof.
  intros Hn Hd. cbn zeta.
  assert (HnR : INR n <> 0) by (apply not_0_INR; lia).
  assert (Hlen : length (map (fun f => f * 2 * PI) (fftfreq n d)) = n)
    by (rewrite length_map; apply length_fftfreq, Hn).
  assert (Hnth : forall j, (j < n)%nat ->
            nth j (map (fun f => f * 2 * PI) (fftfreq n d)) 0
            = 2 * PI * IZR (freq_index n j) / (INR n * d)).
  { intros j Hj.
    rewrite (nth_indep _ 0 (0 * 2 * PI)) by (rewrite Hlen; exact Hj).
    rewrite (map_nth (fun f => f * 2 * PI)), fftfreq_nth by exact Hj.
    field. split; assumption. }
  split; [exact Hlen|]. split.
  - intros j Hj. split; [apply Hnth, Hj | apply freq_index_reflect, Hj].
  - intros j Hj. rewrite Hlen in *.
    rewrite !Hnth by (try apply reflect_lt; exact Hj).
    unfold Rdiv. rewrite !Rpow_mult_distr, freq_index_reflect_sq by exact Hj.
    reflexivity.
Qed.

Lemma fftfreq_wavenumbers_witness :
  let k_vals := map (fun f => f * 2 * PI) (fftfreq 4 (1 / 2)) in
  length k_vals = 4%nat /\
  (forall j, (j < 4)%nat ->
     nth j k_vals 0 = 2 * PI * IZR (freq_index 4 j) / (INR 4 * (1 / 2)) /\
     (freq_index 4 (reflect 4 j) = (- freq_index 4 j)%Z \/
      (2 * j = 4)%nat /\ freq_index 4 (reflect 4 j) = freq_index 4 j)) /\
  symmetric_grid k_vals.
Proof.
  apply (fftfreq_wavenumbers 4 (1 / 2)); [lia | lra].
Defined.

(** ** Fourier modes are stationary states *)

Lemma dft_mode c N j l :
  (j < N)%nat -> (l < N)%nat ->
  dft (fun n => Cmult c (cis (2 * PI * INR j * INR n / INR N))) N l
  = Cmult c (if Nat.eq_dec j l then RtoC (INR N) else Czero).
Proof.
  intros Hj Hl. assert (HN : INR N <> 0) by (apply not_0_INR; lia).
  unfold dft. rewrite <- (roots_orthogonal N j l Hj Hl), Csum_scale.
  apply Csum_ext. intros n _.
  rewrite <- Cmult_assoc_C, <- cis_plus. do 2 f_equal. field. exact HN.
Qed.

Lemma length_fourier_mode c N j : length (fourier_mode c N j) = N.
Proof. unfold fourier_mode. rewrite length_map, length_seq. reflexivity. Qed.

(** X22. Fourier modes are stationary states: [evolve] multiplies the
    mode [j] by the single phase factor [exp(-1j * E * t / hbar)] of the
    energy [E] of wavenumber [k[j]], and changes nothing else. *)
Theorem evolve_fourier_mode c N j k t m :
  (j < N)%nat -> length k = N -> m <> 0 ->
  evolve (fourier_mode c N j) k t m
  = Ok (map (Cmult (phase t (energy m (nth j k 0)))) (fourier_mode c N j)).
Proof.
  intros Hj Hlen _.
  assert (HN : INR N <> 0) by (apply not_0_INR; lia).
  assert (Hne : fourier_mode c N j <> []).
  { apply nonempty_length. rewrite length_fourier_mode. lia. }
  rewrite evolve_index by (rewrite ?length_fourier_mode; assumption).
  rewrite length_fourier_mode. f_equal. unfold fourier_mode at 2.
  rewrite map_map. apply map_seq_ext. intros n Hn.
  rewrite (evolve_at_ext _
             (fun i => Cmult c (cis (2 * PI * INR j * INR i / INR N))))
    by (intros i Hi; unfold at_index, fourier_mode; apply nth_map_seq, Hi).
  unfold evolve_at.
  rewrite (idft_ext _
    (fun l => Cmult (Cmult c (if Nat.eq_dec j l then RtoC (INR N) else Czero))
                    (phase t (energy m (nth l k 0)))))
    by (intros l Hl; rewrite dft_mode by assumption; reflexivity).
  unfold idft. rewrite (Csum_single _ N j Hj); cbv beta.
  - destruct (Nat.eq_dec j j) as [_|Hjj]; [|contradiction].
    set (ph := phase t (energy m (nth j k 0))).
    set (w := cis (2 * PI * INR j * INR n / INR N)). clearbody ph w.
    assert (Hab : Cmult (RtoC (/ INR N)) (RtoC (INR N)) = Cone)
      by (rewrite <- RtoC_mult, Rinv_l by exact HN; reflexivity).
    revert Hab. generalize (RtoC (/ INR N)) (RtoC (INR N)).
    intros a b Hab.
    transitivity (Cmult (Cmult a b) (Cmult ph (Cmult c w))); [ring|].
    rewrite Hab. ring.
  - intros l _ Hlj. destruct (Nat.eq_dec j l) as [E|_]; [congruence|].
    ring.
Qed.

Lemma evolve_fourier_mode_witness :
  evolve (fourier_mode (2, 1) 4 3) sample_k (5 / 2) m_default
  = Ok (map (Cmult (phase (5 / 2) (energy m_default (nth 3 sample_k 0))))
            (fourier_mode (2, 1) 4 3)).
Proof.
  apply (evolve_fourier_mode (2, 1) 4 3 sample_k (5 / 2) m_default);
    [lia | reflexivity | unfold m_default; lra].
Defined.

(** ** Plane waves on the script's grid *)

Lemma Cexp_imaginary a x :
  Cexp (Cmult (Cmult Ci (RtoC a)) (RtoC x)) = cis (a * x).
Proof.
  unfold Cexp, Cmult, Ci, RtoC, cis. cbn [fst snd].
  replace (0 * a - 1 * 0) with 0 by ring.
  replace (0 * 0 + 1 * a) with a by ring.
  replace (0 * x - a * 0) with 0 by ring.
  replace (0 * 0 + a * x) with (a * x) by ring.
  rewrite exp_0. apply C_eq; cbn [fst snd]; ring.
Qed.







(** ** The Gaussian packet and the script's two snapshots *)

Lemma length_gaussian_packet x0 k0 sigma x_vals :
  length (gaussian_packet x0 k0 sigma x_vals) = length x_vals.
Proof. unfold gaussian_packet. apply length_map. Qed.

(** X24. Over exact real arithmetic, the probability density of the
    initial packet of line 90 is the Gaussian
    [exp(-(x - x0)^2 / sigma^2) / (2 pi sigma^2)] at every grid point,
    whatever the momentum [k0], which only turns the phase. *)
Theorem gaussian_packet_density x0 k0 sigma x_vals :
  sigma <> 0 ->
  density (gaussian_packet x0 k0 sigma x_vals)
  = map (fun x => 1 / (2 * PI * sigma ^ 2) * exp (- (x - x0) ^ 2 / sigma ^ 2))
        x_vals /\
  forall k1,
    density (gaussian_packet x0 k1 sigma x_vals)
    = density (gaussian_packet x0 k0 sigma x_vals).
Proof.
  intros Hsigma.
  assert (Hpi : 0 < 2 * PI) by (pose proof PI_RGT_0; lra).
  assert (Hs : sqrt (2 * PI) ^ 2 = 2 * PI) by (apply pow2_sqrt; lra).
  assert (Hs0 : sqrt (2 * PI) <> 0).
  { intros E. rewrite E in Hs. lra. }
  assert (Heq : forall k,
    density (gaussian_packet x0 k sigma x_vals)
    = map (fun x => 1 / (2 * PI * sigma ^ 2)
                    * exp (- (x - x0) ^ 2 / sigma ^ 2)) x_vals).
  { intros k. unfold density, gaussian_packet. rewrite map_map.
    apply map_ext.
    intros x. rewrite Cabs_sq, normsq_mult, Cexp_imaginary, normsq_cis.
    unfold normsq, RtoC. cbn [fst snd].
    replace (- (x - x0) ^ 2 / sigma ^ 2)
      with (- (x - x0) ^ 2 / (2 * sigma ^ 2) + - (x - x0) ^ 2 / (2 * sigma ^ 2))
      by (field; exact Hsigma).
    rewrite exp_plus.
    generalize (exp (- (x - x0) ^ 2 / (2 * sigma ^ 2))). intros e.
    revert Hs Hs0. generalize (sqrt (2 * PI)). intros s Hs Hs0.
    rewrite <- Hs. field. split; assumption. }
  split; [apply Heq|]. intros k1. rewrite !Heq. reflexivity.
Qed.

Lemma gaussian_packet_density_witness :
  density (gaussian_packet (-3) 5 1 [-10; 0; 10])
  = map (fun x => 1 / (2 * PI * 1 ^ 2) * exp (- (x - -3) ^ 2 / 1 ^ 2))
        [-10; 0; 10] /\
  forall k1,
    density (gaussian_packet (-3) k1 1 [-10; 0; 10])
    = density (gaussian_packet (-3) 5 1 [-10; 0; 10]).
Proof. apply (gaussian_packet_density (-3) 5 1 [-10; 0; 10]). lra. Defined.

Lemma sum_normsq_evolved psi k t m :
  psi <> [] -> length k = length psi ->
  sum_normsq (inverse_spectrum (zip_with Cmult (spectrum psi) (phases k t m)))
  = sum_normsq psi.
Proof.
  intros Hne Hlen.
  set (G := zip_with Cmult (spectrum psi) (phases k t m)).
  assert (HG : length G = length psi).
  { unfold G. rewrite length_zip_with, length_spectrum, length_phases. lia. }
  assert (HN : INR (length psi) <> 0).
  { apply not_0_INR. apply nonempty_length in Hne. lia. }
  apply (Rmult_eq_reg_l (INR (length psi))); [|exact HN].
  rewrite <- HG at 1. rewrite sum_normsq_inverse_spectrum. unfold G.
  rewrite sum_normsq_phases by (rewrite length_spectrum; exact Hlen).
  apply sum_normsq_spectrum.
Qed.

Lemma evolve_twice psi k t1 t2 m :
  psi <> [] -> length k = length psi ->
  evolve (inverse_spectrum (zip_with Cmult (spectrum psi) (phases k t1 m)))
         k t2 m
  = evolve psi k (t1 + t2) m.
Proof.
  intros Hne Hlen.
  set (G := zip_with Cmult (spectrum psi) (phases k t1 m)).
  assert (HG : length G = length psi).
  { unfold G. rewrite length_zip_with, length_spectrum, length_phases. lia. }
  rewrite (evolve_Ok psi k (t1 + t2) m Hne Hlen). rewrite evolve_Ok.
  - rewrite spectrum_inverse_spectrum. unfold G.
    rewrite zip_phases_plus. reflexivity.
  - apply nonempty_length. rewrite length_inverse_spectrum, HG.
    apply nonempty_length, Hne.
  - rewrite length_inverse_spectrum, HG. exact Hlen.
Qed.

Lemma evolve_no_time psi k m :
  psi <> [] -> length k = length psi -> evolve psi k 0 m = Ok psi.
Proof.
  intros Hne Hlen. rewrite evolve_Ok by assumption.
  rewrite zip_phases_zero by (rewrite length_spectrum; exact Hlen).
  rewrite inverse_spectrum_spectrum. reflexivity.
Qed.

(** X25. The quantum part of the script (lines 82-100) with its constants
    as parameters: on a grid of [num >= 2] points it returns the packet and
    its snapshots at [+t] and [-t], all of [num] entries; both snapshots
    carry the total probability of the packet; evolving the [-t] snapshot
    over [2 t] gives the [+t] snapshot, and evolving the [+t] snapshot over
    [-t] gives the packet back. *)
Theorem quantum_part_snapshots start stop num x0 k0 sigma t :
  (2 <= num)%Z -> start <> stop -> sigma <> 0 ->
  exists x_vals dx k_vals psi0 psi_t psi_neg_t,
    wave_grid start stop num = Ok (x_vals, dx, k_vals) /\
    quantum_part start stop num x0 k0 sigma t = Ok (psi0, psi_t, psi_neg_t) /\
    psi0 = gaussian_packet x0 k0 sigma x_vals /\
    length psi0 = Z.to_nat num /\
    length psi_t = Z.to_nat num /\ length psi_neg_t = Z.to_nat num /\
    total_probability psi_t dx = total_probability psi0 dx /\
    total_probability psi_neg_t dx = total_probability psi0 dx /\
    evolve psi_neg_t k_vals (2 * t) m_default = Ok psi_t /\
    evolve psi_t k_vals (- t) m_default = Ok psi0.
Proof.
  intros Hnum _ _.
  destruct (np_linspace_samples start stop num Hnum)
    as (xs & Hxs & Hlen & _ & Hsamples).
  destruct (Hsamples 0%nat ltac:(lia)) as [H0 _].
  destruct (Hsamples 1%nat ltac:(lia)) as [H1 _].
  assert (Hg : exists dx, wave_grid start stop num
    = Ok (xs, dx, map (fun f => f * 2 * PI) (fftfreq (length xs) dx))).
  { unfold wave_grid. rewrite Hxs. cbn [bind].
    rewrite (item_Ok _ _ _ H1). cbn [bind].
    rewrite (item_Ok _ _ _ H0). cbn [bind]. eexists. reflexivity. }
  destruct Hg as [dx Hg].
  set (k := map (fun f => f * 2 * PI) (fftfreq (length xs) dx)) in *.
  set (psi0 := gaussian_packet x0 k0 sigma xs).
  assert (Hl0 : length psi0 = Z.to_nat num)
    by (unfold psi0; rewrite length_gaussian_packet; exact Hlen).
  assert (Hne : psi0 <> []) by (apply nonempty_length; lia).
  assert (Hk : length k = length psi0).
  { unfold k. rewrite length_map, length_fftfreq; lia. }
  set (ev := fun s => inverse_spectrum
                        (zip_with Cmult (spectrum psi0) (phases k s m_default))).
  assert (Hev : forall s, evolve psi0 k s m_default = Ok (ev s))
    by (intros s; apply evolve_Ok; assumption).
  assert (Hlev : forall s, length (ev s) = Z.to_nat num).
  { intros s. unfold ev.
    rewrite length_inverse_spectrum, length_zip_with, length_spectrum,
      length_phases. lia. }
  exists xs, dx, k, psi0, (ev t), (ev (- t)).
  split; [exact Hg|]. split.
  { unfold quantum_part. rewrite Hg. cbn [bind fst snd]. fold psi0.
    rewrite !Hev. reflexivity. }
  split; [reflexivity|]. split; [exact Hl0|].
  split; [apply Hlev|]. split; [apply Hlev|].
  split; [rewrite !total_probability_sum_normsq; f_equal;
          apply sum_normsq_evolved; assumption|].
  split; [rewrite !total_probability_sum_normsq; f_equal;
          apply sum_normsq_evolved; assumption|].
  split.
  - unfold ev at 1. rewrite evolve_twice by assumption.
    replace (- t + 2 * t) with t by ring. apply Hev.
  - unfold ev. rewrite evolve_twice by assumption.
    replace (t + - t) with 0 by ring. apply evolve_no_time; assumption.
Qed.

Lemma quantum_part_snapshots_witness :
  exists x_vals dx k_vals psi0 psi_t psi_neg_t,
    wave_grid (-10) 10 1024 = Ok (x_vals, dx, k_vals) /\
    quantum_part (-10) 10 1024 (-3) 5 1 1 = Ok (psi0, psi_t, psi_neg_t) /\
    psi0 = gaussian_packet (-3) 5 1 x_vals /\
    length psi0 = Z.to_nat 1024 /\
    length psi_t = Z.to_nat 1024 /\ length psi_neg_t = Z.to_nat 1024 /\
    total_probability psi_t dx = total_probability psi0 dx /\
    total_probability psi_neg_t dx = total_probability psi0 dx /\
    evolve psi_neg_t k_vals (2 * 1) m_default = Ok psi_t /\
    evolve psi_t k_vals (- 1) m_default = Ok psi0.
Proof.
  apply (quantum_part_snapshots (-10) 10 1024 (-3) 5 1 1); [lia | lra | lra].
Defined.

(** * The script on float64 *)

(** ** The float64 embedding on concrete inputs *)

(** The double 0.1 is a little more than one tenth. *)
Example tenth_exceeds_one_tenth : (1 # 10 < f64_value f64_tenth)%Q.
Proof. vm_compute. reflexivity. Qed.

(** [int(100 / 0.1)] is 1000 on floats: the quotient rounds to 1000.0. *)
Example script_steps_f64 :
  f64_div (f64_of_Z 100) f64_tenth = f64_of_Z 1000 /\
  py_int (f64_value (f64_div (f64_of_Z 100) f64_tenth)) = 1000%Z.
Proof. split; vm_compute; reflexivity. Qed.

Example rand_times_ten :
  fvscale (f64_of_Z 10) (f64_3_16, f64_3_16)
  = (f64_div (f64_of_Z 15) (f64_of_Z 8), f64_div (f64_of_Z 15) (f64_of_Z 8)).
Proof. vm_compute. reflexivity. Qed.

Example one_fifth_is_a_quotient :
  f64_div (f64_of_Z 1) (f64_of_Z 5) = f64_fifth.
Proof. vm_compute. reflexivity. Qed.

Example empty_sum_f64 : f64_neg (np_sum_f64 []) = S754_zero true.
Proof. reflexivity. Qed.

Example overflowing_difference :
  f64_sub f64_1e308 (f64_neg f64_1e308) = S754_infinity false.
Proof. vm_compute. reflexivity. Qed.

(** Adding five times [0.2 * log 0.2] gives the same float whatever the
    order of the additions. *)
Example five_terms_any_order :
  let x := f64_mul f64_fifth f64_log_fifth in
  let s := np_sum_f64 [x; x; x; x; x] in
  f64_add x (f64_add (f64_add (f64_add x x) x) x) = s /\
  f64_add (f64_add (f64_add x x) (f64_add x x)) x = s /\
  f64_add (f64_add x x) (f64_add (f64_add x x) x) = s.
Proof. vm_compute. repeat split. Qed.

(** ** Signs and values of floats *)

Lemma binary_round_aux_opp prec emax s m e l :
  binary_round_aux prec emax (negb s) m e l
  = SFopp (binary_round_aux prec emax s m e l).
Proof.
  unfold binary_round_aux.
  destruct (shr_fexp prec emax m e l) as [mrs e'].
  destruct (shr_fexp prec emax _ e' loc_Exact) as [mrs' e''].
  destruct (shr_m mrs'); try reflexivity.
  destruct (e'' <=? emax - prec)%Z; reflexivity.
Qed.

(** [(-x) * y] is [-(x * y)], bit for bit. *)
Lemma f64_mul_neg_l x y : f64_mul (f64_neg x) y = f64_neg (f64_mul x y).
Proof.
  unfold f64_mul, f64_neg.
  destruct x as [sx|sx| |sx mx ex], y as [sy|sy| |sy my ey];
    cbn [SFmul SFopp]; try reflexivity;
    try (destruct sx, sy; reflexivity).
  rewrite <- binary_round_aux_opp. f_equal. destruct sx, sy; reflexivity.
Qed.

Lemma f64_value_neg x : (f64_value (f64_neg x) == - f64_value x)%Q.
Proof.
  destruct x as [s|s| |s m e]; unfold f64_neg, SFopp, f64_value;
    try reflexivity.
  destruct s; unfold negb, cond_Zopp; rewrite ?inject_Z_opp; ring.
Qed.

Lemma fvscale_neg dt v : fvscale dt (fvneg v) = fvneg (fvscale dt v).
Proof.
  unfold fvscale, fvneg. cbn [fst snd]. rewrite !f64_mul_neg_l. reflexivity.
Qed.

Lemma fvvalue_neg p : veq (fvvalue (fvneg p)) (vneg (fvvalue p)).
Proof. split; apply f64_value_neg. Qed.

(** ** The Euler loops on float64 *)

Lemma euler_loop_f64_prefix dt vel pos traj n :
  (n <= length traj)%nat ->
  fold_left
    (fun s t => let p := advance_f64 dt (fst s) vel in (p, <[t := p]> (snd s)))
    (seq 0 n) (pos, traj)
  = (frame_after_f64 dt vel pos n,
     map (fun t => frame_after_f64 dt vel pos (S t)) (seq 0 n) ++ drop n traj).
Proof.
  induction n as [|n IH]; intros Hn.
  - cbn. rewrite drop_0. reflexivity.
  - rewrite seq_S, fold_left_app, IH by lia. cbn [fold_left fst snd plus].
    f_equal. rewrite map_app. cbn [map].
    rewrite insert_app_r_alt by (rewrite length_map, length_seq; lia).
    rewrite length_map, length_seq, Nat.sub_diag, <- app_assoc. f_equal.
    destruct (drop n traj) as [|x rest] eqn:E.
    + apply (f_equal length) in E. rewrite length_drop in E. simpl in E. lia.
    + cbn. f_equal. apply drop_cons_inv in E. symmetry. apply E.
Qed.

Lemma euler_loop_f64_frames dt steps vel pos traj :
  length traj = Z.to_nat steps ->
  snd (euler_loop_f64 dt steps vel pos traj)
  = map (fun t => frame_after_f64 dt vel pos (S t)) (seq 0 (Z.to_nat steps)).
Proof.
  intros Hlen. unfold euler_loop_f64, range.
  rewrite euler_loop_f64_prefix by lia. cbn [snd].
  rewrite drop_ge by lia. apply app_nil_r.
Qed.

Lemma frame_after_f64_pointwise dt vel pos i p v :
  pos !! i = Some p -> vel !! i = Some v ->
  forall n, frame_after_f64 dt vel pos n !! i
            = Some (point_after_f64 dt v p n).
Proof.
  intros Hp Hv. induction n as [|n IH]; [exact Hp|].
  change (frame_after_f64 dt vel pos (S n))
    with (advance_f64 dt (frame_after_f64 dt vel pos n) vel).
  unfold advance_f64. rewrite lookup_zip_with, IH. cbn [mbind option_bind].
  rewrite list_lookup_fmap, Hv. reflexivity.
Qed.

Lemma frame_after_f64_length dt vel pos n :
  length vel = length pos ->
  length (frame_after_f64 dt vel pos n) = length pos.
Proof.
  intros Hlen. induction n as [|n IH]; [reflexivity|].
  change (frame_after_f64 dt vel pos (S n))
    with (advance_f64 dt (frame_after_f64 dt vel pos n) vel).
  unfold advance_f64. rewrite length_zip_with, length_map, IH. lia.
Qed.

Lemma integrate_f64_Ok rand randn N dt steps run :
  integrate_f64 rand randn N dt steps = Ok run ->
  (0 <= N)%Z /\ (0 <= steps)%Z /\
  pos0_f64 run = map (fvscale (f64_of_Z 10)) (map rand (range N)) /\
  vel0_f64 run = map randn (range N) /\
  traj_fwd_f64 run
  = map (fun t => frame_after_f64 dt (vel0_f64 run) (pos0_f64 run) (S t))
        (seq 0 (Z.to_nat steps)) /\
  traj_rev_f64 run
  = map (fun t => frame_after_f64 dt (map fvneg (vel0_f64 run))
                    (pos0_f64 run) (S t))
        (seq 0 (Z.to_nat steps)).
Proof.
  unfold integrate_f64, np_random_f64, np_zeros3_f64.
  destruct (Z.ltb_spec N 0) as [|HN]; [discriminate|]. cbn [bind].
  destruct (Z.ltb_spec steps 0) as [|Hs]; [discriminate|].
  cbn [orb bind]. intros H. injection H as <-.
  cbn [pos0_f64 vel0_f64 traj_fwd_f64 traj_rev_f64].
  rewrite !euler_loop_f64_frames by apply length_replicate.
  repeat split; auto.
Qed.

(** Entry [s] of the initial positions followed by the frames is the
    array before update [s]. *)
Lemma frames_f64_lookup dt vel pos steps s :
  (s <= Z.to_nat steps)%nat ->
  (pos :: map (fun t => frame_after_f64 dt vel pos (S t))
              (seq 0 (Z.to_nat steps))) !! s
  = Some (frame_after_f64 dt vel pos s).
Proof.
  intros Hs. destruct s as [|s]; [reflexivity|]. cbn [lookup list_lookup].
  change ((map (fun t => frame_after_f64 dt vel pos (S t))
             (seq 0 (Z.to_nat steps))) !! s
          = Some (frame_after_f64 dt vel pos (S s))).
  rewrite list_lookup_fmap, lookup_seq_lt by lia. reflexivity.
Qed.

(** Without rounding, [n] updates move a particle by [n] times the
    rounded product [vel * dt]. *)
Lemma point_after_f64_exact dt v p n :
  (forall s, (s < n)%nat ->
     exact_sum (fst (point_after_f64 dt v p s)) (f64_mul (fst v) dt) /\
     exact_sum (snd (point_after_f64 dt v p s)) (f64_mul (snd v) dt)) ->
  veq (fvvalue (point_after_f64 dt v p n))
      (vadd (fvvalue p)
            (vscale (inject_Z (Z.of_nat n)) (fvvalue (fvscale dt v)))).
Proof.
  induction n as [|n IH]; intros Hex.
  - unfold veq, vadd, vscale. cbn. split; ring.
  - destruct (Hex n ltac:(lia)) as [[_ Hx] [_ Hy]].
    specialize (IH (fun s Hs => Hex s ltac:(lia))).
    destruct IH as [IHx IHy].
    change (point_after_f64 dt v p (S n))
      with (fvadd (point_after_f64 dt v p n) (fvscale dt v)).
    unfold veq, vadd, vscale, fvvalue, fvadd, fvscale in *.
    cbn [fst snd] in *. rewrite Hx, Hy, IHx, IHy.
    rewrite Nat2Z.inj_succ. unfold Z.succ. rewrite inject_Z_plus.
    split; ring.
Qed.

Lemma frame_after_f64_exact dt vel pos n :
  length vel = length pos ->
  (forall s, (s < n)%nat ->
     exact_advance dt (frame_after_f64 dt vel pos s) vel) ->
  Forall2 veq
    (map fvvalue (frame_after_f64 dt vel pos n))
    (zip_with vadd (map fvvalue pos)
       (map (fun v => vscale (inject_Z (Z.of_nat n)) (fvvalue (fvscale dt v)))
            vel)).
Proof.
  intros Hlen Hex. apply Forall2_same_length_lookup_2.
  - rewrite length_zip_with, !length_map, frame_after_f64_length by exact Hlen.
    lia.
  - intros i a b Ha Hb.
    rewrite list_lookup_fmap in Ha.
    rewrite lookup_zip_with, !list_lookup_fmap in Hb.
    destruct (pos !! i) as [p|] eqn:Hp; [|discriminate].
    destruct (vel !! i) as [v|] eqn:Hv; [|discriminate].
    rewrite (frame_after_f64_pointwise dt vel pos i p v Hp Hv) in Ha.
    cbn in Ha, Hb. injection Ha as <-. injection Hb as <-.
    apply point_after_f64_exact. intros s Hs.
    specialize (Hex s Hs). unfold exact_advance in Hex.
    eapply Forall2_lookup_lr in Hex;
      [exact Hex | apply frame_after_f64_pointwise; eassumption | exact Hv].
Qed.

(** The frames of a run whose updates up to frame [t] are exact. *)
Lemma exact_run_frames rand randn N dt steps run t :
  integrate_f64 rand randn N dt steps = Ok run ->
  (t < Z.to_nat steps)%nat ->
  (forall s p, (s <= t)%nat ->
     (pos0_f64 run :: traj_fwd_f64 run) !! s = Some p ->
     exact_advance dt p (vel0_f64 run)) ->
  (forall s p, (s <= t)%nat ->
     (pos0_f64 run :: traj_rev_f64 run) !! s = Some p ->
     exact_advance dt p (map fvneg (vel0_f64 run))) ->
  exists ff fr,
    traj_fwd_f64 run !! t = Some ff /\ traj_rev_f64 run !! t = Some fr /\
    length (pos0_f64 run) = Z.to_nat N /\
    length (vel0_f64 run) = Z.to_nat N /\
    length ff = Z.to_nat N /\ length fr = Z.to_nat N /\
    Forall2 veq (map fvvalue ff)
      (zip_with vadd (map fvvalue (pos0_f64 run))
         (map (fun v => vscale (inject_Z (Z.of_nat (S t)))
                               (fvvalue (fvscale dt v)))
              (vel0_f64 run))) /\
    Forall2 veq (map fvvalue fr)
      (zip_with vadd (map fvvalue (pos0_f64 run))
         (map (fun v => vscale (inject_Z (Z.of_nat (S t)))
                               (vneg (fvvalue (fvscale dt v))))
              (vel0_f64 run))).
Proof.
  intros Hrun Ht Hfwd Hrev.
  apply integrate_f64_Ok in Hrun.
  destruct Hrun as (HN & Hs & Hp & Hv & Htf & Htr).
  set (pos := pos0_f64 run) in *. set (vel := vel0_f64 run) in *.
  assert (HlenN : length pos = Z.to_nat N).
  { rewrite Hp, !length_map. unfold range. apply length_seq. }
  assert (HlenV : length vel = Z.to_nat N).
  { rewrite Hv, !length_map. unfold range. apply length_seq. }
  assert (Hlen : length vel = length pos) by lia.
  assert (Hlen' : length (map fvneg vel) = length pos)
    by (rewrite length_map; exact Hlen).
  rewrite Htf in Hfwd. rewrite Htr in Hrev.
  exists (frame_after_f64 dt vel pos (S t)),
         (frame_after_f64 dt (map fvneg vel) pos (S t)).
  split; [rewrite Htf, list_lookup_fmap, lookup_seq_lt by lia; reflexivity|].
  split; [rewrite Htr, list_lookup_fmap, lookup_seq_lt by lia; reflexivity|].
  rewrite !frame_after_f64_length by assumption.
  do 4 (split; [assumption|]).
  assert (Hf := frame_after_f64_exact dt vel pos (S t) Hlen).
  assert (Hr := frame_after_f64_exact dt (map fvneg vel) pos (S t) Hlen').
  specialize (Hf (fun s Hs' =>
    Hfwd s _ ltac:(lia) (frames_f64_lookup dt vel pos steps s ltac:(lia)))).
  specialize (Hr (fun s Hs' =>
    Hrev s _ ltac:(lia)
      (frames_f64_lookup dt (map fvneg vel) pos steps s ltac:(lia)))).
  split; [exact Hf|].
  rewrite map_map in Hr.
  eapply Forall2_trans; [| exact Hr |].
  - intros x y z Hxy Hyz. eapply veq_trans; eassumption.
  - apply Forall2_same_length_lookup_2.
    + rewrite !length_zip_with, !length_map. reflexivity.
    + intros i a b Ha Hb.
      rewrite lookup_zip_with, !list_lookup_fmap in Ha, Hb.
      destruct (pos !! i) as [p|]; [|discriminate].
      destruct (vel !! i) as [v|]; [|discriminate].
      cbn in Ha, Hb. injection Ha as <-. injection Hb as <-.
      rewrite fvscale_neg.
      destruct (fvvalue_neg (fvscale dt v)) as [H1 H2].
      unfold veq, vadd, vscale, vneg in *. cbn [fst snd] in *.
      rewrite H1, H2. split; reflexivity.
Qed.

(** C10, as the code has it.  On float64, at every time step [t] up to
    which no position update of the two loops was rounded, the forward
    and the reverse frame add up, particle by particle, to twice the
    initial positions.  The reverse displacement [(-vel) * dt] is always
    the exact opposite of the forward one; it is the rounding of
    [pos += vel * dt] that can break the symmetry. *)
Theorem point_reflection rand randn N dt steps run t :
  integrate_f64 rand randn N dt steps = Ok run ->
  (t < Z.to_nat steps)%nat ->
  (forall s p, (s <= t)%nat ->
     (pos0_f64 run :: traj_fwd_f64 run) !! s = Some p ->
     exact_advance dt p (vel0_f64 run)) ->
  (forall s p, (s <= t)%nat ->
     (pos0_f64 run :: traj_rev_f64 run) !! s = Some p ->
     exact_advance dt p (map fvneg (vel0_f64 run))) ->
  exists ff fr,
    traj_fwd_f64 run !! t = Some ff /\ traj_rev_f64 run !! t = Some fr /\
    length ff = Z.to_nat N /\ length fr = Z.to_nat N /\
    Forall2 veq (zip_with vadd (map fvvalue ff) (map fvvalue fr))
                (map (vscale 2) (map fvvalue (pos0_f64 run))).
Proof.
  intros Hrun Ht Hfwd Hrev.
  destruct (exact_run_frames rand randn N dt steps run t Hrun Ht Hfwd Hrev)
    as (ff & fr & Hff & Hfr & Lp & Lv & Lf & Lr & Hf & Hr).
  exists ff, fr. do 4 (split; [assumption|]).
  apply Forall2_same_length_lookup_2.
  - rewrite length_zip_with, !length_map. lia.
  - intros i a b Ha Hb.
    rewrite lookup_zip_with in Ha. rewrite !list_lookup_fmap in Hb.
    destruct (map fvvalue ff !! i) as [x|] eqn:Hx; [|discriminate].
    destruct (map fvvalue fr !! i) as [y|] eqn:Hy; [|discriminate].
    destruct (pos0_f64 run !! i) as [p|] eqn:Hpi; [|discriminate].
    cbn in Ha, Hb. injection Ha as <-. injection Hb as <-.
    destruct (lookup_lt_is_Some_2 (vel0_f64 run) i) as [v Hvi].
    { rewrite Lv, <- Lp. eapply lookup_lt_Some, Hpi. }
    eapply Forall2_lookup_l in Hf; [|exact Hx].
    eapply Forall2_lookup_l in Hr; [|exact Hy].
    destruct Hf as (x' & Hx' & [Hx1 Hx2]), Hr as (y' & Hy' & [Hy1 Hy2]).
    rewrite lookup_zip_with, !list_lookup_fmap, Hpi, Hvi in Hx', Hy'.
    cbn in Hx', Hy'. injection Hx' as <-. injection Hy' as <-.
    unfold veq, vadd, vscale, vneg in *. cbn [fst snd] in *.
    rewrite Hx1, Hx2, Hy1, Hy2. split; ring.
Qed.

Lemma point_reflection_witness :
  exists run ff fr,
    integrate_f64 sample_rand_f64 sample_randn_f64 2 f64_eighth 2 = Ok run /\
    traj_fwd_f64 run !! 1%nat = Some ff /\
    traj_rev_f64 run !! 1%nat = Some fr /\
    length ff = Z.to_nat 2 /\ length fr = Z.to_nat 2 /\
    Forall2 veq (zip_with vadd (map fvvalue ff) (map fvvalue fr))
                (map (vscale 2) (map fvvalue (pos0_f64 run))).
Proof.
  eexists.
  destruct (point_reflection sample_rand_f64 sample_randn_f64 2 f64_eighth 2
              _ 1 eq_refl) as (ff & fr & H).
  - simpl; lia.
  - intros s p Hs Hp. destruct s as [|[|s]]; [| |lia];
      vm_compute in Hp; injection Hp as <-;
      repeat constructor; vm_compute; reflexivity.
  - intros s p Hs Hp. destruct s as [|[|s]]; [| |lia];
      vm_compute in Hp; injection Hp as <-;
      repeat constructor; vm_compute; reflexivity.
  - exists ff, fr. split; [reflexivity|]. exact H.
Defined.

(** C10 as stated fails on float64.  With the script's [dt = 0.1], a
    particle at 1.875 with velocity 2.0 is at 2.2750000000000004 in
    frame 1 of the forward run and at 1.475 in frame 1 of the reverse
    run: the two do not add up to 3.75, neither as real numbers nor
    when they are added as floats (3.7500000000000004). *)
Lemma point_reflection_fails_in_float64 :
  exists run ff fr,
    integrate_f64 sample_rand_f64 sample_randn_f64 1 f64_tenth 2 = Ok run /\
    traj_fwd_f64 run !! 1%nat = Some ff /\
    traj_rev_f64 run !! 1%nat = Some fr /\
    ~ Forall2 veq (zip_with vadd (map fvvalue ff) (map fvvalue fr))
                  (map (vscale 2) (map fvvalue (pos0_f64 run))) /\
    zip_with fvadd ff fr <> map (fvscale f64_two) (pos0_f64 run).
Proof.
  eexists _, _, _. split; [vm_compute; reflexivity|].
  split; [reflexivity|]. split; [reflexivity|]. split.
  - intros H. apply Forall2_cons_1 in H. destruct H as [[H _] _].
    vm_compute in H. discriminate.
  - vm_compute. discriminate.
Qed.

(** X2. Closed form of the float64 trajectories when no update is
    rounded: frame [t] then holds, for each particle, the initial
    position plus (forward) or minus (reverse) [t + 1] times the rounded
    product [vel * dt]; the initial positions themselves are not a
    frame. *)
Theorem trajectory_closed_form rand randn N dt steps run t i p0 v :
  integrate_f64 rand randn N dt steps = Ok run ->
  (t < Z.to_nat steps)%nat ->
  pos0_f64 run !! i = Some p0 -> vel0_f64 run !! i = Some v ->
  (forall s p, (s <= t)%nat ->
     (pos0_f64 run :: traj_fwd_f64 run) !! s = Some p ->
     exact_advance dt p (vel0_f64 run)) ->
  (forall s p, (s <= t)%nat ->
     (pos0_f64 run :: traj_rev_f64 run) !! s = Some p ->
     exact_advance dt p (map fvneg (vel0_f64 run))) ->
  exists ff fr pf pr,
    traj_fwd_f64 run !! t = Some ff /\ ff !! i = Some pf /\
    traj_rev_f64 run !! t = Some fr /\ fr !! i = Some pr /\
    veq (fvvalue pf)
        (vadd (fvvalue p0)
              (vscale (inject_Z (Z.of_nat (S t))) (fvvalue (fvscale dt v)))) /\
    veq (fvvalue pr)
        (vadd (fvvalue p0)
              (vscale (inject_Z (Z.of_nat (S t)))
                      (vneg (fvvalue (fvscale dt v))))).
Proof.
  intros Hrun Ht Hp Hv Hfwd Hrev.
  destruct (exact_run_frames rand randn N dt steps run t Hrun Ht Hfwd Hrev)
    as (ff & fr & Hff & Hfr & Lp & Lv & Lf & Lr & Hf & Hr).
  destruct (lookup_lt_is_Some_2 ff i) as [pf Hpf].
  { rewrite Lf, <- Lp. eapply lookup_lt_Some, Hp. }
  destruct (lookup_lt_is_Some_2 fr i) as [pr Hpr].
  { rewrite Lr, <- Lp. eapply lookup_lt_Some, Hp. }
  exists ff, fr, pf, pr. do 4 (split; [assumption|]).
  eapply Forall2_lookup_l in Hf;
    [|rewrite list_lookup_fmap, Hpf; reflexivity].
  eapply Forall2_lookup_l in Hr;
    [|rewrite list_lookup_fmap, Hpr; reflexivity].
  destruct Hf as (x & Hx & Hf), Hr as (y & Hy & Hr).
  rewrite lookup_zip_with, !list_lookup_fmap, Hp, Hv in Hx, Hy.
  cbn in Hx, Hy. injection Hx as <-. injection Hy as <-.
  split; assumption.
Qed.

Lemma trajectory_closed_form_witness :
  exists run ff fr pf pr,
    integrate_f64 sample_rand_f64 sample_randn_f64 2 f64_eighth 3 = Ok run /\
    traj_fwd_f64 run !! 2%nat = Some ff /\ ff !! 1%nat = Some pf /\
    traj_rev_f64 run !! 2%nat = Some fr /\ fr !! 1%nat = Some pr /\
    veq (fvvalue pf)
        (vadd (fvvalue (fvscale (f64_of_Z 10) (sample_rand_f64 1)))
              (vscale (inject_Z (Z.of_nat 3))
                      (fvvalue (fvscale f64_eighth (sample_randn_f64 1))))) /\
    veq (fvvalue pr)
        (vadd (fvvalue (fvscale (f64_of_Z 10) (sample_rand_f64 1)))
              (vscale (inject_Z (Z.of_nat 3))
                      (vneg (fvvalue
                               (fvscale f64_eighth (sample_randn_f64 1)))))).
Proof.
  eexists.
  destruct (trajectory_closed_form sample_rand_f64 sample_randn_f64 2
              f64_eighth 3 _ 2 1
              (fvscale (f64_of_Z 10) (sample_rand_f64 1))
              (sample_randn_f64 1) eq_refl)
    as (ff & fr & pf & pr & H).
  - simpl; lia.
  - reflexivity.
  - reflexivity.
  - intros s p Hs Hp. destruct s as [|[|[|s]]]; [| | |lia];
      vm_compute in Hp; injection Hp as <-;
      repeat constructor; vm_compute; reflexivity.
  - intros s p Hs Hp. destruct s as [|[|[|s]]]; [| | |lia];
      vm_compute in Hp; injection Hp as <-;
      repeat constructor; vm_compute; reflexivity.
  - exists ff, fr, pf, pr. split; [reflexivity|]. exact H.
Defined.

(** ** The chaos indicator on float64 *)





Section PairLoops.

Context {St : Type} (f : St -> fvec2 -> fvec2 -> result St).



End PairLoops.

Section ChaosProperties.

Variable nrm2 : float64 -> float64 -> float64.
Variable np_log : float64 -> float64.






End ChaosProperties.




(** ** The entropy on float64 and the bound [ln (min N (G * G))] *)

Lemma exp_series_spec q n :
  Q2R (fst (exp_series q n)) = / INR (fact n) * Q2R q ^ n /\
  Q2R (snd (exp_series q n))
  = sum_f_R0 (fun i => / INR (fact i) * Q2R q ^ i) n.
Proof.
  induction n as [|n [IHt IHs]].
  - cbn. unfold Q2R. cbn. split; field.
  - assert (Ht : Q2R (fst (exp_series q (S n)))
                 = / INR (fact (S n)) * Q2R q ^ S n).
    { cbn [exp_series fst].
      rewrite (Qeq_eqR _ _ (Qred_correct _)).
      unfold Qdiv. rewrite !Q2R_mult, Q2R_inv, IHt.
      - replace (Q2R (inject_Z (Z.of_nat (S n)))) with (INR (S n)).
        + rewrite fact_simpl, mult_INR. cbn [pow].
          assert (INR (S n) <> 0) by (apply not_0_INR; lia).
          assert (INR (fact n) <> 0) by apply INR_fact_neq_0.
          field. split; assumption.
        + unfold Q2R. cbn [Qnum Qden inject_Z].
          rewrite INR_IZR_INZ. field.
      - intros E. unfold Qeq in E. cbn [Qnum Qden inject_Z] in E. lia. }
    split; [exact Ht|].
    cbn [exp_series snd]. rewrite (Qeq_eqR _ _ (Qred_correct _)).
    rewrite Q2R_plus, IHs. cbn [sum_f_R0]. f_equal. exact Ht.
Qed.

(** The partial sums of the series lie below the exponential. *)
Lemma exp_series_le q n :
  (0 <= q)%Q -> Q2R (snd (exp_series q n)) <= exp (Q2R q).
Proof.
  intros Hq. destruct (exp_series_spec q n) as [_ ->].
  apply sum_incr.
  - exact (proj2_sig (exist_exp (Q2R q))).
  - intros i. apply Rmult_le_pos.
    + left. apply Rinv_0_lt_compat, INR_fact_lt_0.
    + apply pow_le. replace 0 with (Q2R 0) by (unfold Q2R; cbn; lra).
      apply Qle_Rle, Hq.
Qed.

Lemma ln_lt_rational (c : R) (q : Q) n :
  0 < c -> (0 <= q)%Q -> c < Q2R (snd (exp_series q n)) -> ln c < Q2R q.
Proof.
  intros Hc Hq Hs. apply exp_lt_inv. rewrite exp_ln by exact Hc.
  eapply Rlt_le_trans; [exact Hs | apply exp_series_le, Hq].
Qed.

(** C4, as the code has it.  Over exact real arithmetic, whenever
    [compute_entropy] returns, which it does for every grid size of at
    least 1, the entropy of each time step that has at least one
    particle lies between 0 and [ln (min N (G * G))], where [N] is the
    number of particles of that step and [min N (G * G)] is at least 1. *)
Theorem entropy_bounds cast traj G :
  ((1 <= G)%Z ->
   exists es, compute_entropy cast traj G = Ok es /\
              length es = length traj) /\
  (forall es,
     compute_entropy cast traj G = Ok es ->
     Forall2
       (fun frame e =>
          (1 <= length frame)%nat ->
          (1 <= Nat.min (length frame) (Z.to_nat G * Z.to_nat G))%nat /\
          0 <= e
          <= ln (INR (Nat.min (length frame) (Z.to_nat G * Z.to_nat G))))
       traj es).
Proof.
  split; [apply compute_entropy_total|].
  intros es Hrun. rewrite compute_entropy_traverse in Hrun.
  apply traverse_Ok in Hrun.
  eapply Forall2_impl; [exact Hrun|].
  intros frame e He HN. cbv beta in He.
  apply entropy_step_Ok in He. destruct He as (grid & Hg & ->).
  assert (HG : (1 <= G)%Z).
  { destruct frame as [|p frame]; [simpl in HN; lia|].
    eapply occupancy_nonempty, Hg. }
  apply occupancy_Ok in Hg. destruct Hg as [Hsq Hsum].
  pose proof (entropy_bounds_counts grid) as Hb. cbn zeta in Hb.
  rewrite Hsum, (length_join_square _ _ Hsq) in Hb.
  split; [nia | exact Hb].
Qed.

Lemma entropy_bounds_witness :
  exists es,
    compute_entropy cast_x86_64 sample_traj 10 = Ok es /\
    length es = length sample_traj /\
    Forall2
      (fun frame e =>
         (1 <= length frame)%nat ->
         (1 <= Nat.min (length frame) (Z.to_nat 10 * Z.to_nat 10))%nat /\
         0 <= e
         <= ln (INR (Nat.min (length frame) (Z.to_nat 10 * Z.to_nat 10))))
      sample_traj es.
Proof.
  destruct (entropy_bounds cast_x86_64 sample_traj 10) as [Htot Hb].
  destruct Htot as (es & Hes & Hlen); [lia|].
  exists es. split; [exact Hes|]. split; [exact Hlen|].
  exact (Hb es Hes).
Defined.

(** C4 as stated fails twice.  On float64, five particles in five
    different cells of a 10 x 10 grid have the entropy
    1.6094379124341005, which is more than [ln 5]: the five products
    [0.2 * log 0.2] are rounded, and so is their sum.  And for a time
    step without particles the entropy is [-0.0] while [min N (G * G)]
    is 0, which has no logarithm. *)
Lemma entropy_bound_exceeded :
  (exists e,
     compute_entropy_f64 cast_x86_64_f64 np_log_sample five_cells 10
     = Ok [e] /\
     Forall (fun frame => length frame = 5%nat) five_cells /\
     ln (INR (Nat.min 5 (Z.to_nat 10 * Z.to_nat 10))) < Q2R (f64_value e)) /\
  (compute_entropy_f64 cast_x86_64_f64 np_log_sample no_particles 10
   = Ok [S754_zero true] /\
   Forall (fun frame => length frame = 0%nat) no_particles /\
   Nat.min 0 (Z.to_nat 10 * Z.to_nat 10) = 0%nat /\
   forall b, exp b <> INR 0).
Proof.
  split.
  - eexists. split; [vm_compute; reflexivity|].
    split; [repeat constructor|].
    replace (INR (Nat.min 5 (Z.to_nat 10 * Z.to_nat 10))) with 5
      by (change (Nat.min 5 (Z.to_nat 10 * Z.to_nat 10)) with 5%nat;
          simpl; lra).
    apply (ln_lt_rational 5 _ 30); [lra | vm_compute; discriminate |].
    replace 5 with (Q2R 5) by (unfold Q2R; cbn; lra).
    apply Qlt_Rlt. vm_compute. reflexivity.
  - split; [vm_compute; reflexivity|]. split; [repeat constructor|].
    split; [reflexivity|].
    intros b. pose proof (exp_pos b). simpl. lra.
Qed.

(** ** Binning on float64 *)

Lemma cell_f64_in_range cast G p :
  (1 <= G)%Z ->
  (0 <= fst (cell_f64 cast G p) < G)%Z /\ (0 <= snd (cell_f64 cast G p) < G)%Z.
Proof.
  intros HG. unfold cell_f64, cell_index_f64. cbn [fst snd].
  split; apply np_clip_range, HG.
Qed.

Lemma occupancy_f64_counts cast G frame :
  (1 <= G)%Z ->
  exists grid,
    occupancy_f64 cast G frame = Ok grid /\
    sum_list (mjoin grid) = length frame /\
    forall i j, (i < Z.to_nat G)%nat -> (j < Z.to_nat G)%nat ->
      (grid !!! i) !!! j
      = length (filter (fun c => c = (Z.of_nat i, Z.of_nat j))
                       (map (cell_f64 cast G) frame)).
Proof.
  intros HG. unfold occupancy_f64, np_zeros2.
  destruct (Z.ltb_spec G 0); [lia|]. cbn [bind].
  destruct (for_each_grid_incr_counts (Z.to_nat G)
              (map (cell_f64 cast G) frame) _ (square_zeros _))
    as (grid & Hrun & Hcount).
  - apply Forall_forall. intros c Hc. apply list_elem_of_fmap in Hc.
    destruct Hc as (p & -> & _). rewrite Z2Nat.id by lia.
    apply cell_f64_in_range, HG.
  - exists grid. split; [exact Hrun|]. split.
    + destruct (for_each_grid_incr (Z.to_nat G) _ _ _ (square_zeros _) Hrun)
        as [_ Hsum].
      rewrite Hsum, sum_list_join_zeros, length_map. lia.
    + intros i j Hi Hj. rewrite Hcount, lookup_zeros by assumption.
      reflexivity.
Qed.

Lemma compute_entropy_f64_traverse cast np_log traj G :
  compute_entropy_f64 cast np_log traj G
  = traverse (fun frame =>
                let* grid := occupancy_f64 cast G frame in
                Ok (entropy_of_grid_f64 np_log grid)) traj.
Proof.
  unfold compute_entropy_f64.
  rewrite (for_each_ext traj _
             (fun acc x =>
                let* y := (let* grid := occupancy_f64 cast G x in
                           Ok (entropy_of_grid_f64 np_log grid)) in
                Ok (acc ++ [y]))).
  - rewrite for_each_append. destruct (traverse _ traj); reflexivity.
  - intros acc frame. destruct (occupancy_f64 cast G frame); reflexivity.
Qed.

(** X26. Binning on float64.  For a grid size of at least 1,
    [compute_entropy] returns one value per time step whatever the
    coordinates are, finite, infinite or NaN: every particle is counted
    in exactly one cell, with indices in [0, G-1], and the counts of a
    step add up to its number of particles.  For a coordinate whose
    scaled value [x / 10 * G], as float64 rounds it, is finite and fits
    int64, the index is that value truncated toward zero and clipped. *)
Theorem binning_on_float64 cast np_log traj G :
  (1 <= G)%Z ->
  exists grids,
    traverse (occupancy_f64 cast G) traj = Ok grids /\
    compute_entropy_f64 cast np_log traj G
    = Ok (map (entropy_of_grid_f64 np_log) grids) /\
    Forall2
      (fun frame grid =>
         sum_list (mjoin grid) = length frame /\
         (forall i j, (i < Z.to_nat G)%nat -> (j < Z.to_nat G)%nat ->
            (grid !!! i) !!! j
            = length (filter (fun c => c = (Z.of_nat i, Z.of_nat j))
                             (map (cell_f64 cast G) frame))) /\
         (forall p, p ∈ frame ->
            (0 <= fst (cell_f64 cast G p) < G)%Z /\
            (0 <= snd (cell_f64 cast G p) < G)%Z))
      traj grids /\
    forall x : float64,
      let y := f64_mul (f64_div x (f64_of_Z 10)) (f64_of_Z G) in
      is_finite y = true ->
      (int64_min <= Qtrunc (f64_value y) <= int64_max)%Z ->
      cell_index_f64 cast G x = np_clip (Qtrunc (f64_value y)) 0 (G - 1).
Proof.
  intros HG. rewrite compute_entropy_f64_traverse.
  assert (Hcell : forall x : float64,
    let y := f64_mul (f64_div x (f64_of_Z 10)) (f64_of_Z G) in
    is_finite y = true ->
    (int64_min <= Qtrunc (f64_value y) <= int64_max)%Z ->
    cell_index_f64 cast G x = np_clip (Qtrunc (f64_value y)) 0 (G - 1)).
  { intros x y Hfin [Hlo Hhi]. unfold cell_index_f64, astype_int_f64.
    fold y. rewrite Hfin.
    destruct (Z.leb_spec int64_min (Qtrunc (f64_value y))); [|lia].
    destruct (Z.leb_spec (Qtrunc (f64_value y)) int64_max); [|lia].
    reflexivity. }
  induction traj as [|frame traj (grids & Hgrids & Hes & Hall & _)].
  - exists []. repeat split; try constructor. exact Hcell.
  - destruct (occupancy_f64_counts cast G frame HG)
      as (grid & Hg & Hsum & Hcount).
    exists (grid :: grids). cbn [traverse map].
    rewrite Hg, Hgrids, Hes. cbn [bind].
    repeat split; try reflexivity; [|exact Hcell].
    constructor; [|exact Hall].
    split; [exact Hsum|]. split; [exact Hcount|].
    intros p _. apply cell_f64_in_range, HG.
Qed.

Lemma binning_on_float64_witness :
  exists grids,
    traverse (occupancy_f64 cast_x86_64_f64 10) sample_traj_f64 = Ok grids /\
    compute_entropy_f64 cast_x86_64_f64 np_log_sample sample_traj_f64 10
    = Ok (map (entropy_of_grid_f64 np_log_sample) grids) /\
    Forall2
      (fun frame grid =>
         sum_list (mjoin grid) = length frame /\
         (forall i j, (i < Z.to_nat 10)%nat -> (j < Z.to_nat 10)%nat ->
            (grid !!! i) !!! j
            = length (filter (fun c => c = (Z.of_nat i, Z.of_nat j))
                             (map (cell_f64 cast_x86_64_f64 10) frame))) /\
         (forall p, p ∈ frame ->
            (0 <= fst (cell_f64 cast_x86_64_f64 10 p) < 10)%Z /\
            (0 <= snd (cell_f64 cast_x86_64_f64 10 p) < 10)%Z))
      sample_traj_f64 grids /\
    forall x : float64,
      let y := f64_mul (f64_div x (f64_of_Z 10)) (f64_of_Z 10) in
      is_finite y = true ->
      (int64_min <= Qtrunc (f64_value y) <= int64_max)%Z ->
      cell_index_f64 cast_x86_64_f64 10 x
      = np_clip (Qtrunc (f64_value y)) 0 (10 - 1).
Proof.
  apply (binning_on_float64 cast_x86_64_f64 np_log_sample sample_traj_f64 10).
  lia.
Defined.
